(** * Pseudo-terminal lifecycle of the pty package: a shallow embedding

    The Go package allocates a pseudo-console (two pipes and a console
    handle), launches a process attached to it, resizes it, watches the
    process exit and tears the console down.  The repository holds several
    generations of the Windows backend next to the Unix one; each generation
    is embedded in a module of its own:

    - [Env]      environment merging ([dedupEnvCase], [addCriticalEnv]);
    - [Legacy]   the closer-based [conPty] ([open], [winPtyConsoleCloser],
                 [start], [windowsProcess]);
    - [Unix]     the Unix [start];
    - [ConPty]   the mutex-guarded [conPty] ([openPty], [Close],
                 [closeConsoleNoLock], [setsize], [winProc],
                 [StartWithAttrs]);
    - [Rw]       the read-locked [Setsize] that tests the handle against 0;
    - [Block]    the environment block ([createEnvBlock]);
    - [Command]  [Command] and [CommandContext].

    [Trace] and [Files] hold vocabulary for reading a history and for the
    files of a pair.

    Platform calls are recorded, with their results, in a history; what the
    platform answers is a parameter of every definition. *)

From Stdlib Require Import ZArith Lia Ascii.
From stdpp Require Import gmap strings list.

Open Scope Z_scope.

(** ** Environment merging (start_windows.go) *)

Module Env.

Section Env.

(** [strings.ToLower], [strings.EqualFold] and [os.Getenv] belong to the Go
    library and the host; the functions below take them as they are. *)
Variable ToLower : string -> string.
Variable EqualFold : string -> string -> bool.
Variable Getenv : string -> string.

(** [strings.Index(s, substr)]: the byte index of the first occurrence, or
    -1. *)
Definition Index (s substr : string) : Z :=
  match String.index 0 substr s with
  | Some n => Z.of_nat n
  | None => -1
  end.

(** The slice [s[:n]]. *)
Definition slice_to (s : string) (n : Z) : string :=
  String.substring 0 (Z.to_nat n) s.

(** The slice [s[n:]]. *)
Definition slice_from (s : string) (n : Z) : string :=
  String.substring (Z.to_nat n) (String.length s - Z.to_nat n)%nat s.

(** One iteration of the loop of [dedupEnvCase] over the pair
    ([out], [saw]); [saw] maps a key to its index in [out]. *)
Definition dedup_body (caseInsensitive : bool)
    (st : list string * gmap string nat) (kv : string)
    : list string * gmap string nat :=
  let '(out, saw) := st in
  let eq := Index kv "=" in
  if eq <? 0 then (out ++ [kv], saw)
  else
    let k := slice_to kv eq in
    let k := if caseInsensitive then ToLower k else k in
    match saw !! k with
    | Some dupIdx => (<[dupIdx := kv]> out, saw)
    | None => (out ++ [kv], <[k := length out]> saw)
    end.

Definition dedupEnvCase (caseInsensitive : bool) (env : list string)
    : list string :=
  fst (foldl (dedup_body caseInsensitive) ([], ∅) env).

(** The loop of [addCriticalEnv]: is there an entry whose key folds to
    SYSTEMROOT? *)
Fixpoint has_systemroot (env : list string) : bool :=
  match env with
  | [] => false
  | kv :: rest =>
      let eq := Index kv "=" in
      if eq <? 0 then has_systemroot rest
      else if EqualFold (slice_to kv eq) "SYSTEMROOT" then true
      else has_systemroot rest
  end.

Definition addCriticalEnv (env : list string) : list string :=
  if has_systemroot env then env
  else env ++ ["SYSTEMROOT=" +:+ Getenv "SYSTEMROOT"].

(** *** Specification vocabulary *)

(** The key under which [dedupEnvCase] files an entry; [None] for an entry
    without [=]. *)
Definition env_key (caseInsensitive : bool) (kv : string) : option string :=
  let eq := Index kv "=" in
  if eq <? 0 then None
  else Some (if caseInsensitive then ToLower (slice_to kv eq)
             else slice_to kv eq).

(** The text after the first [=]. *)
Definition env_value (kv : string) : string :=
  slice_from kv (Index kv "=" + 1).

(** The entry's key folds to [name] under [EqualFold]. *)
Definition key_folds_to (name kv : string) : bool :=
  let eq := Index kv "=" in
  if eq <? 0 then false else EqualFold (slice_to kv eq) name.

(** The entries of [l] filed under the key [k]. *)
Definition with_key (ci : bool) (k : string) (l : list string) : list string :=
  filter (fun kv => env_key ci kv = Some k) l.

(** The entries of [l] without [=]. *)
Definition without_key (ci : bool) (l : list string) : list string :=
  filter (fun kv => env_key ci kv = None) l.

(** What the loop of [dedupEnvCase] keeps true, [pre] being the entries read
    so far: [saw] knows the index of each key of [out] and no other key;
    [out] holds, for each key, the last entry of [pre] with that key and
    nothing else with it; the entries without [=] are those of [pre]. *)
Definition dedup_inv (ci : bool) (pre : list string)
    (st : list string * gmap string nat) : Prop :=
  (forall k i, snd st !! k = Some i ->
     exists old, fst st !! i = Some old /\ env_key ci old = Some k)
  /\ (forall k, snd st !! k = None ->
       forall kv, kv ∈ fst st -> env_key ci kv <> Some k)
  /\ (forall k, with_key ci k (fst st) = option_list (last (with_key ci k pre)))
  /\ without_key ci (fst st) = without_key ci pre.

End Env.

(** On strings of ASCII bytes Go's [strings.ToLower] maps [A]..[Z] to
    [a]..[z] and keeps every other byte, and [strings.EqualFold] compares
    the two strings after that mapping. *)
Definition lower_byte (c : ascii) : ascii :=
  let n := nat_of_ascii c in
  if ((65 <=? n) && (n <=? 90))%nat then ascii_of_nat (n + 32) else c.

Fixpoint ToLower_ascii (s : string) : string :=
  match s with
  | EmptyString => EmptyString
  | String c rest => String (lower_byte c) (ToLower_ascii rest)
  end.

Definition EqualFold_ascii (s t : string) : bool :=
  String.eqb (ToLower_ascii s) (ToLower_ascii t).

End Env.

(** ** Go values and the platform *)

Module Go.

(** An [*os.File], by the order in which the platform created it. *)
Definition fd := nat.

(** [windows.Handle], a [uintptr]. *)
Definition Handle := Z.

(** [windows.InvalidHandle = ^Handle(0)] on a 64-bit host. *)
Definition InvalidHandle : Handle := 2 ^ 64 - 1.

Definition S_OK : Z := 0.

(** Integer conversions of Go, on [Z]. *)
Definition int32 (x : Z) : Z := (x + 2 ^ 31) mod 2 ^ 32 - 2 ^ 31.
Definition int16 (x : Z) : Z := (x + 2 ^ 15) mod 2 ^ 16 - 2 ^ 15.
Definition uint16 (x : Z) : Z := x mod 2 ^ 16.
Definition uint32 (x : Z) : Z := x mod 2 ^ 32.

(** [os.ProcessState], as far as the package reads it. *)
Record ProcessState := { ExitCode : Z }.

Definition Success (st : ProcessState) : bool := ExitCode st =? 0.

(** Go's [error] values; a nil [error] is [None] of [option error]. *)
#[warnings="-register-all"]
Inductive error :=
| ErrUnsupported                                  (* pty.ErrUnsupported *)
| ErrNotPty                                       (* pty.ErrNotPty *)
| ErrClosed                                       (* pty.ErrClosed *)
| ErrFileClosed                                   (* os.ErrClosed *)
| ErrInvalid                                      (* os.ErrInvalid *)
| Errno (code : Z)                                (* syscall.Errno *)
| ErrNew (msg : string)                           (* errors.New(msg) *)
| ErrWrap (msg : string) (cause : option error)   (* fmt.Errorf("msg: %w", cause) *)
| ErrCode (msg : string) (code : Z) (cause : option error)
                                                  (* fmt.Errorf("msg (%d): %w", code, cause) *)
| ExitError (st : ProcessState)                   (* &exec.ExitError{ProcessState: st} *)
| ErrJoin (errs : list error).                    (* errors.Join *)

(** [errors.Join]: nil when every argument is nil. *)
Definition errors_Join (errs : list (option error)) : option error :=
  match omap id errs with
  | [] => None
  | es => Some (ErrJoin es)
  end.

(** [windows.SmallRect]: the visible window of a console screen buffer. *)
Record SmallRect := { Left : Z; Top : Z; Right : Z; Bottom : Z }.

(** [Winsize]: rows, columns and the pixel sizes, all [uint16]. *)
Record Winsize := { Rows : Z; Cols : Z; X : Z; Y : Z }.

(** A [windows.Coord{X, Y}] read as one [uint32]: [X] in the low half. *)
Definition coord_word (x y : Z) : Z := uint16 x + uint16 y * 2 ^ 16.

(** Goroutines the package starts. *)
Inductive task :=
| TaskWait (pid : Z)             (* go wp.waitProcess() / go wp.waitInternal() *)
| TaskKillOnContext (pid : Z).   (* go wp.killOnContext(ctx) *)

(** One call that leaves the package, with what it returned. *)
Inductive event :=
| EvPipe (res : (fd * fd) + error)                (* os.Pipe() *)
| EvOpenPty (res : (fd * fd) + error)             (* the Unix open() *)
| EvFileClose (f : fd) (res : option error)       (* Close of an open os.File *)
| EvRtlGetVersion (major build : Z)               (* windows.RtlGetVersion() *)
| EvFind (proc : string) (res : option error)     (* LazyProc.Find() *)
| EvCreatePseudoConsole (size hInput hOutput flags : Z) (r1 : Z)
    (lastErr : option error) (hpc : Handle)
| EvClosePseudoConsole (hpc : Handle) (r1 : Z) (lastErr : option error)
| EvResizePseudoConsole (hpc : Handle) (size : Z) (r1 : Z)
    (lastErr : option error)
| EvGetConsoleScreenBufferInfo (h : Handle) (res : SmallRect + error)
| EvLib (fn : string) (args : list string) (res : string + error)
| EvUpdateAttr (hpc : Handle) (res : option error)
| EvCreateProcess (asUser : bool) (env : list string) (res : Z + error)
| EvCloseHandles (pid : Z)                        (* CloseHandle of pi.Thread and pi.Process *)
| EvExecEnvDefault (res : list string + error)
| EvFindProcess (pid : Z) (res : option error)
| EvExecStart (res : option error)                (* exec.Cmd.Start() *)
| EvProcWait (pid : Z) (res : ProcessState + error)
| EvProcKill (pid : Z) (res : option error)
| EvGo (t : task).

Definition history := list event.

(** run.go: a [StartOption] is a function from the [File] to an error.  What
    it can do with the [File] is call its methods, resize it, and call
    functions that have nothing to do with it; the constructors list these,
    each with the rest of the function. *)
Inductive StartOption :=
| OptReturn (err : option error)
| OptClose (k : option error -> StartOption)
| OptFd (k : Z -> StartOption)
| OptName (k : string -> StartOption)
| OptSetsize (sz : Winsize) (k : option error -> StartOption)
| OptLib (fn : string) (args : list string) (k : string + error -> StartOption).

(** [WithSize(sz)] is [func(f File) error { return Setsize(f, sz) }]. *)
Definition WithSize (sz : Winsize) : StartOption := OptSetsize sz OptReturn.

(** What the host answers to each call, given the calls made so far.  The
    three functions of Go's string library that environment merging uses are
    listed with it. *)
Class platform := {
  pl_Pipe : history -> option error;
  pl_OpenPty : history -> option error;
  pl_FileClose : history -> fd -> option error;
  pl_RtlGetVersion : history -> Z * Z;
  pl_Find : history -> string -> option error;
  pl_CreatePseudoConsole : history -> Z * option error * Handle;
  pl_ClosePseudoConsole : history -> Handle -> Z * option error;
  pl_ResizePseudoConsole : history -> Handle -> Z -> Z * option error;
  pl_GetConsoleScreenBufferInfo : history -> Handle -> SmallRect + error;
  pl_Lib : history -> string -> list string -> string + error;
  pl_execEnvDefault : history -> list string + error;
  pl_UpdateAttr : history -> Handle -> option error;
  pl_CreateProcess : history -> Z + error;
  pl_FindProcess : history -> Z -> option error;
  pl_ExecStart : history -> option error;
  pl_ProcWait : history -> Z -> ProcessState + error;
  pl_ProcKill : history -> Z -> option error;
  pl_Getenv : string -> string;
  go_ToLower : string -> string;
  go_EqualFold : string -> string -> bool
}.

(** Files are numbered in the order of their creation. *)
Fixpoint next_fd (h : history) : fd :=
  match h with
  | [] => 0%nat
  | EvPipe (inl _) :: rest => S (S (next_fd rest))
  | EvOpenPty (inl _) :: rest => S (S (next_fd rest))
  | _ :: rest => next_fd rest
  end.

Definition closes (f : fd) (e : event) : bool :=
  match e with
  | EvFileClose g _ => Nat.eqb f g
  | _ => false
  end.

(** [Close] has been called on the file. *)
Definition file_closed (h : history) (f : fd) : bool := existsb (closes f) h.

Definition destroys (hpc : Handle) (e : event) : bool :=
  match e with
  | EvClosePseudoConsole g _ _ => hpc =? g
  | _ => false
  end.

(** [ClosePseudoConsole] has been called on the handle. *)
Definition console_closed (h : history) (hpc : Handle) : bool :=
  existsb (destroys hpc) h.

Definition is_destroy (e : event) : bool :=
  match e with EvClosePseudoConsole _ _ _ => true | _ => false end.

Definition is_resize (e : event) : bool :=
  match e with EvResizePseudoConsole _ _ _ _ => true | _ => false end.

Definition is_probe (e : event) : bool :=
  match e with EvRtlGetVersion _ _ => true | _ => false end.

Definition is_proc_wait (e : event) : bool :=
  match e with EvProcWait _ _ => true | _ => false end.

Definition count (p : event -> bool) (h : history) : nat :=
  length (List.filter p h).

(** *** Computations that call the platform *)

Definition M (A : Type) : Type := history -> A * history.

Definition ret {A} (a : A) : M A := fun h => (a, h).

Definition bind {A B} (m : M A) (k : A -> M B) : M B :=
  fun h => let (a, h') := m h in k a h'.

(** The events a computation adds to a history. *)
Definition emitted {A} (m : M A) (h : history) : list event :=
  drop (length h) (snd (m h)).

(** Every event that [m] adds to a history satisfies [Q] (and [m] only
    adds events). *)
Definition emits {A} (Q : event -> Prop) (m : M A) : Prop :=
  forall h, exists evs, snd (m h) = h ++ evs /\ Forall Q evs.

(** [Q] holds of the result of [m] and of the history it leaves. *)
Definition post {A} (m : M A) (h : history) (Q : A -> history -> Prop) : Prop :=
  Q (fst (m h)) (snd (m h)).

Definition any_event (e : event) : Prop := True.

Definition not_probe (e : event) : Prop := is_probe e = false.

Definition is_file_close (e : event) : bool :=
  match e with EvFileClose _ _ => true | _ => false end.

Definition only_file_close (e : event) : Prop := is_file_close e = true.

(** The event touches no file and no console of a pair. *)
Definition leaves_pair (e : event) : bool :=
  negb (is_file_close e || is_destroy e || is_resize e).

Section Calls.

Context {P : platform}.

Definition os_Pipe : M ((fd * fd) + error) := fun h =>
  let res := match pl_Pipe h with
             | Some e => inr e
             | None => inl (next_fd h, S (next_fd h))
             end in
  (res, h ++ [EvPipe res]).

(** The Unix [open()], which is not among the sources: it creates the pty
    and the tty, or fails. *)
Definition OpenPty : M ((fd * fd) + error) := fun h =>
  let res := match pl_OpenPty h with
             | Some e => inr e
             | None => inl (next_fd h, S (next_fd h))
             end in
  (res, h ++ [EvOpenPty res]).

Definition Exec_Start : M (option error) := fun h =>
  let res := pl_ExecStart h in (res, h ++ [EvExecStart res]).

(** [Close] of an [os.File]: a nil file answers [ErrInvalid], a file already
    closed [ErrClosed]; neither reaches the host. *)
Definition File_Close (f : option fd) : M (option error) := fun h =>
  match f with
  | None => (Some ErrInvalid, h)
  | Some f =>
      if file_closed h f then (Some ErrFileClosed, h)
      else let res := pl_FileClose h f in (res, h ++ [EvFileClose f res])
  end.

Definition RtlGetVersion : M (Z * Z) := fun h =>
  let v := pl_RtlGetVersion h in (v, h ++ [EvRtlGetVersion (fst v) (snd v)]).

Definition Find (proc : string) : M (option error) := fun h =>
  let res := pl_Find h proc in (res, h ++ [EvFind proc res]).

Definition CreatePseudoConsole_Call (size hInput hOutput flags : Z)
    : M (Z * option error * Handle) := fun h =>
  let '(r1, err, hpc) := pl_CreatePseudoConsole h in
  ((r1, err, hpc),
   h ++ [EvCreatePseudoConsole size hInput hOutput flags r1 err hpc]).

Definition ClosePseudoConsole_Call (hpc : Handle) : M (Z * option error) :=
  fun h =>
  let '(r1, err) := pl_ClosePseudoConsole h hpc in
  ((r1, err), h ++ [EvClosePseudoConsole hpc r1 err]).

Definition ResizePseudoConsole_Call (hpc : Handle) (size : Z)
    : M (Z * option error) := fun h =>
  let '(r1, err) := pl_ResizePseudoConsole h hpc size in
  ((r1, err), h ++ [EvResizePseudoConsole hpc size r1 err]).

Definition GetConsoleScreenBufferInfo (hc : Handle) : M (SmallRect + error) :=
  fun h =>
  let res := pl_GetConsoleScreenBufferInfo h hc in
  (res, h ++ [EvGetConsoleScreenBufferInfo hc res]).

(** A function of Go's library, or a helper of the package that is not part
    of the sources at hand: it returns a string or fails. *)
Definition Lib (fn : string) (args : list string) : M (string + error) :=
  fun h => let res := pl_Lib h fn args in (res, h ++ [EvLib fn args res]).

Definition UpdateAttr (hpc : Handle) : M (option error) := fun h =>
  let res := pl_UpdateAttr h hpc in (res, h ++ [EvUpdateAttr hpc res]).

Definition CreateProcess (asUser : bool) (env : list string) : M (Z + error) :=
  fun h =>
  let res := pl_CreateProcess h in (res, h ++ [EvCreateProcess asUser env res]).

Definition CloseHandles (pid : Z) : M unit := fun h =>
  (tt, h ++ [EvCloseHandles pid]).

Definition execEnvDefault : M (list string + error) := fun h =>
  let res := pl_execEnvDefault h in (res, h ++ [EvExecEnvDefault res]).

Definition FindProcess (pid : Z) : M (option error) := fun h =>
  let res := pl_FindProcess h pid in (res, h ++ [EvFindProcess pid res]).

Definition Proc_Wait (pid : Z) : M (ProcessState + error) := fun h =>
  let res := pl_ProcWait h pid in (res, h ++ [EvProcWait pid res]).

Definition Proc_Kill (pid : Z) : M (option error) := fun h =>
  let res := pl_ProcKill h pid in (res, h ++ [EvProcKill pid res]).

Definition go (t : task) : M unit := fun h => (tt, h ++ [EvGo t]).

(** [windows.ResizePseudoConsole]: the HRESULT as an error. *)
Definition windows_ResizePseudoConsole (hpc : Handle) (size : Z)
    : M (option error) := fun h =>
  let '(r1, _, h') := ResizePseudoConsole_Call hpc size h in
  (if r1 =? 0 then None else Some (Errno r1), h').

End Calls.

End Go.

Import Go.

Declare Scope go_scope.
Notation "'let*' x ':=' c 'in' k" := (bind c (fun x => k))
  (at level 10, x pattern, c at level 100, k at level 200) : go_scope.
Open Scope go_scope.

(** ** The read-locked resize (Setsize and GetsizeFull on [*conPty]) *)

Module Rw.

(** Modelled from the spec: the [conPty] of this generation is not among the
    sources.  Its [Setsize] and [GetsizeFull] take the read lock [mtx] of the
    pair and read its [handle], which counts as closed when it is 0; a pair
    is an endpoint whose handle is owned by it until teardown. *)
Record conPty := { handle : Handle }.

(** The dynamic type of a [File]: this generation's [*conPty], or anything
    else. *)
Inductive File :=
| FilePty (p : conPty)
| FileOther (tag : nat).

Section Rw.

Context {P : platform}.

Definition Setsize (t : File) (ws : Winsize) : M (option error) :=
  match t with
  | FileOther _ => ret (Some (ErrNew "not a pty"))
  | FilePty pty =>
      if handle pty =? 0 then ret (Some ErrClosed)
      else
        let* err := windows_ResizePseudoConsole (handle pty)
                      (coord_word (int16 (Cols ws)) (int16 (Rows ws))) in
        match err with
        | Some e => ret (Some e)
        | None => ret None
        end
  end.

Definition GetsizeFull (t : File) : M (option Winsize * option error) :=
  match t with
  | FileOther _ => ret (None, Some (ErrNew "not a pty"))
  | FilePty pty =>
      if handle pty =? 0 then ret (None, Some ErrClosed)
      else
        let* res := GetConsoleScreenBufferInfo (handle pty) in
        match res with
        | inr e => ret (None, Some e)
        | inl win =>
            ret (Some {| Rows := uint16 (int16 (int16 (Bottom win - Top win) + 1));
                         Cols := uint16 (int16 (int16 (Right win - Left win) + 1));
                         X := 0; Y := 0 |}, None)
        end
  end.

End Rw.

End Rw.

(** ** The closer-based pseudo-console (open, start, windowsProcess) *)

Module Legacy.

(** The [closer] field holds one of two functions of the package. *)
Inductive closer_fn := winPtyCloser_fn | winTtyCloser_fn.

Record conPty := {
  handle : Handle;
  r : fd;
  w : fd;
  closer : closer_fn;
  name : string
}.

Definition set_handle (p : conPty) (hpc : Handle) : conPty :=
  {| handle := hpc; r := r p; w := w p; closer := closer p; name := name p |}.

(** [syscall.SysProcAttr] and [exec.Cmd], as far as [Start] reads them. *)
Record SysProcAttr := {
  HideWindow : bool;
  CmdLine : string;
  CreationFlags : Z;
  Token : Z
}.

Definition SysProcAttr_zero : SysProcAttr :=
  {| HideWindow := false; CmdLine := ""; CreationFlags := 0; Token := 0 |}.

Record Cmd := {
  Path : string;
  Args : list string;
  Env : option (list string);
  Dir : string;
  Process : option Z;
  SysProcAttr_ : option SysProcAttr
}.

Definition set_Env (c : Cmd) (env : option (list string)) : Cmd :=
  {| Path := Path c; Args := Args c; Env := env; Dir := Dir c;
     Process := Process c; SysProcAttr_ := SysProcAttr_ c |}.

Definition set_Path (c : Cmd) (path : string) : Cmd :=
  {| Path := path; Args := Args c; Env := Env c; Dir := Dir c;
     Process := Process c; SysProcAttr_ := SysProcAttr_ c |}.

Definition set_Process (c : Cmd) (pid : option Z) : Cmd :=
  {| Path := Path c; Args := Args c; Env := Env c; Dir := Dir c;
     Process := pid; SysProcAttr_ := SysProcAttr_ c |}.

Definition set_SysProcAttr (c : Cmd) (a : option SysProcAttr) : Cmd :=
  {| Path := Path c; Args := Args c; Env := Env c; Dir := Dir c;
     Process := Process c; SysProcAttr_ := a |}.

Record windowsProcess := {
  cmdDone : bool;              (* the channel cmdDone has been closed *)
  cmdErr : option error;
  proc : Z
}.

Definition set_cmdErr (p : windowsProcess) (e : option error) : windowsProcess :=
  {| cmdDone := cmdDone p; cmdErr := e; proc := proc p |}.

Definition close_cmdDone (p : windowsProcess) : windowsProcess :=
  {| cmdDone := true; cmdErr := cmdErr p; proc := proc p |}.

Section Legacy.

Context {P : platform}.

(** Helpers of the package that are not among the sources: the packing of a
    [windowsCoord] and the command line [makeCmdLine(c.argv())]. *)
Variable Pack : Z -> Z -> Z.
Variable makeCmdLine : Cmd -> string.

Definition procCreatePseudoConsole (hInput hOutput : Z) (dwFlags : Z)
    (consoleHandle : Handle) : M (option error * Handle) :=
  let* err := Find "CreatePseudoConsole" in
  match err with
  | Some e => ret (Some e, consoleHandle)
  | None =>
      let* (r0, _, hpc) :=
        CreatePseudoConsole_Call (Pack 80 30) hInput hOutput dwFlags in
      if int32 r0 <? 0 then
        let r0 := if Z.land r0 0x1fff0000 =? 0x00070000
                  then Z.land r0 0xffff else r0 in
        ret (Some (Errno r0), hpc)
      else ret (None, hpc)
  end.

Definition open : M (conPty * conPty + error) :=
  let* p1 := os_Pipe in
  match p1 with
  | inr err => ret (inr err)
  | inl (pr, consoleW) =>
  let* p2 := os_Pipe in
  match p2 with
  | inr err =>
      let* _ := File_Close (Some consoleW) in
      let* _ := File_Close (Some pr) in
      ret (inr err)
  | inl (consoleR, pw) =>
  let* (err, consoleHandle) :=
    procCreatePseudoConsole (Z.of_nat consoleR) (Z.of_nat consoleW) 0 0 in
  match err with
  | Some err =>
      let* _ := File_Close (Some consoleW) in
      let* _ := File_Close (Some pr) in
      let* _ := File_Close (Some pw) in
      let* _ := File_Close (Some consoleR) in
      ret (inr err)
  | None =>
  (* These pipes can be closed here without any worry *)
  let* err := File_Close (Some consoleW) in
  match err with
  | Some err =>
      ret (inr (ErrWrap "failed to close pseudo console handle" (Some err)))
  | None =>
  let* err := File_Close (Some consoleR) in
  match err with
  | Some err =>
      ret (inr (ErrWrap "failed to close pseudo console handle" (Some err)))
  | None =>
      ret (inl ({| handle := consoleHandle; r := pr; w := pw;
                   closer := winPtyCloser_fn; name := "" |},
                {| handle := consoleHandle; r := consoleR; w := consoleW;
                   closer := winTtyCloser_fn; name := "windows-pty" |}))
  end end end end end.

Definition winPtyConsoleCloser (p : conPty) : M (option error * conPty) :=
  if negb (handle p =? InvalidHandle) then
    let* err := Find "ClosePseudoConsole" in
    match err with
    | Some e => ret (Some e, p)
    | None =>
        let* (_, err) := ClosePseudoConsole_Call (handle p) in
        ret (err, set_handle p InvalidHandle)
    end
  else ret (None, p).

Definition winPtyCloser (p : conPty) : M (option error * conPty) :=
  let* _ := File_Close (Some (r p)) in
  let* _ := File_Close (Some (w p)) in
  winPtyConsoleCloser p.

Definition winTtyCloser (t : conPty) : M (option error * conPty) :=
  let* _ := File_Close (Some (r t)) in
  let* err := File_Close (Some (w t)) in
  ret (err, t).

Definition Close (p : conPty) : M (option error * conPty) :=
  match closer p with
  | winPtyCloser_fn => winPtyCloser p
  | winTtyCloser_fn => winTtyCloser p
  end.

Definition Fd (p : conPty) : Z := handle p.

Definition Name (p : conPty) : string := name p.

(** *** run_windows.go *)

(** What a [StartOption] does to the pty it is given. *)
Fixpoint run_option (o : StartOption) (pty : conPty)
    : M (option error * conPty) :=
  match o with
  | OptReturn err => ret (err, pty)
  | OptClose k =>
      let* (err, pty') := Close pty in run_option (k err) pty'
  | OptFd k => run_option (k (Fd pty)) pty
  | OptName k => run_option (k (Name pty)) pty
  | OptSetsize sz k =>
      let* err := Rw.Setsize (Rw.FilePty {| Rw.handle := handle pty |}) sz in
      run_option (k err) pty
  | OptLib fn args k =>
      let* res := Lib fn args in run_option (k res) pty
  end.

(** The loop [for _, opt := range opts] of [start]: the first error ends
    it. *)
Fixpoint run_options (opts : list StartOption) (pty : conPty)
    : M (option error * conPty) :=
  match opts with
  | [] => ret (None, pty)
  | opt :: rest =>
      let* (err, pty') := run_option opt pty in
      match err with
      | Some e => ret (Some e, pty')
      | None => run_options rest pty'
      end
  end.

Definition updateProcThreadAttribute (hpc : Handle) : M (option error) :=
  let* err := UpdateAttr hpc in
  match err with
  | Some e =>
      ret (Some (ErrWrap
        "failed to update proc thread attributes for pseudo console" (Some e)))
  | None => ret None
  end.

(** [(c *windowExecCmd) Start()], with [c.cmd] and [c.conPty] as arguments.
    The strings and pointers that the library calls compute only flow into
    [CreateProcess]; each call is kept as a step that may fail. *)
Definition windowExecCmd_Start (c : Cmd) (pty : option conPty)
    : M (option error * Cmd) :=
  match Process c with
  | Some _ => ret (Some (ErrNew "exec: already started"), c)
  | None =>
  let argv0 := Path c in
  let sys := default SysProcAttr_zero (SysProcAttr_ c) in
  let* (err, c) :=
    match Env c with
    | None =>
        let* res := execEnvDefault in
        match res with
        | inl env => ret (None, set_Env c (Some env))
        | inr e => ret (Some e, c)
        end
    | Some _ => ret (None, c)
    end in
  match err with
  | Some e => ret (Some e, c)
  | None =>
  let* lp := Lib "lookExtensions" [Path c; Dir c] in
  match lp with
  | inr e => ret (Some e, c)
  | inl lp =>
  let c := set_Path c lp in
  let* argv0 :=
    if negb (String.eqb (Dir c) "")
    then Lib "joinExeDirAndFName" [Dir c; Path c]
    else ret (inl argv0) in
  match argv0 with
  | inr e => ret (Some e, c)
  | inl argv0 =>
  let* argv0p := Lib "UTF16PtrFromString" [argv0] in
  match argv0p with
  | inr e => ret (Some e, c)
  | inl _ =>
  let cmdline :=
    if negb (String.eqb (CmdLine sys) "") then CmdLine sys
    else makeCmdLine c in
  let* argvp :=
    if negb (String.eqb cmdline "")
    then Lib "UTF16PtrFromString" [cmdline]
    else ret (inl "") in
  match argvp with
  | inr e => ret (Some e, c)
  | inl _ =>
  let* dirp :=
    if negb (String.eqb (Dir c) "")
    then Lib "UTF16PtrFromString" [Dir c]
    else ret (inl "") in
  match dirp with
  | inr e => ret (Some e, c)
  | inl _ =>
  let* attrList := Lib "NewProcThreadAttributeList" [] in
  match attrList with
  | inr e =>
      ret (Some (ErrWrap
        "failed to initialize process thread attribute list" (Some e)), c)
  | inl _ =>
  let* err :=
    match pty with
    | Some p => updateProcThreadAttribute (handle p)
    | None => ret None
    end in
  match err with
  | Some e => ret (Some e, c)
  | None =>
  let* res :=
    CreateProcess (negb (Token sys =? 0))
      (Env.addCriticalEnv go_EqualFold pl_Getenv
         (Env.dedupEnvCase go_ToLower true (default [] (Env c)))) in
  match res with
  | inr e => ret (Some e, c)
  | inl pid =>
  let* err := FindProcess pid in
  match err with
  | Some e =>
      let* _ := CloseHandles pid in
      ret (Some e, c)
  | None =>
      let c := set_Process c (Some pid) in
      let* _ := go (TaskWait pid) in
      let* _ := CloseHandles pid in
      ret (None, c)
  end end end end end end end end end end end.

(** [if c.SysProcAttr == nil { c.SysProcAttr = &syscall.SysProcAttr{} }]. *)
Definition default_attr (c : Cmd) : Cmd :=
  match SysProcAttr_ c with
  | None => set_SysProcAttr c (Some SysProcAttr_zero)
  | Some _ => c
  end.

(** [start] of run_windows.go.  The function returned by the [defer] closes
    the pty when the variable [err] of the function is not nil; it is
    registered after the options ran. *)
Definition start (c : Cmd) (opts : list StartOption)
    : M (option conPty * option error) :=
  let* res := open in
  match res with
  | inr err => ret (None, Some err)
  | inl (pty, _) =>
      let* (err, pty) := run_options opts pty in
      match err with
      | Some e => ret (Some pty, Some e)
      | None =>
          let c := default_attr c in
          let* (err, c) := windowExecCmd_Start c (Some pty) in
          match err with
          | Some e =>
              let* _ := Close pty in
              ret (None, Some e)
          | None => ret (Some pty, None)
          end
      end
  end.

(** The body of the monitor after [proc.Wait()]: the error of the wait, or
    an exit error when the process did not succeed. *)
Definition record_exit (p : windowsProcess) (res : ProcessState + error) : windowsProcess :=
  match res with
  | inr err => set_cmdErr p (Some err)
  | inl state =>
      if negb (Success state)
      then set_cmdErr p (Some (ExitError state))
      else p
  end.

(** The deferred function: the error of the teardown is recorded when the
    command left none. *)
Definition record_teardown (p : windowsProcess) (err : option error) : windowsProcess :=
  match err, cmdErr p with
  | Some e, None => set_cmdErr p (Some e)
  | _, _ => p
  end.

(** [waitProcess]: the one call of [proc.Wait()], then the two deferred
    functions, the console closer first and [close(p.cmdDone)] last. *)
Definition waitProcess (p : windowsProcess) (pty : conPty)
    : M (windowsProcess * conPty) :=
  let* res := Proc_Wait (proc p) in
  let p := record_exit p res in
  let* (err, pty) := winPtyConsoleCloser pty in
  let p := record_teardown p err in
  ret (close_cmdDone p, pty).

(** [Wait]: receive from [cmdDone], then read [cmdErr].  The receive blocks
    until the channel is closed: [None] is a caller that is still blocked. *)
Definition Wait (p : windowsProcess) : option (option error) :=
  if cmdDone p then Some (cmdErr p) else None.

Definition Kill (p : windowsProcess) : M (option error) := Proc_Kill (proc p).

(** *** Specification vocabulary *)

(** The outcome of a process: the error of the OS wait; on an abnormal exit
    an exit error with the state; on a clean exit what the console teardown
    of the monitor returned. *)
Definition outcome (res : ProcessState + error) (teardown : option error)
    : option error :=
  match res with
  | inr err => Some err
  | inl st => if Success st then teardown else Some (ExitError st)
  end.

(** What the options passed to [start] can have done to the pty [p0] that
    [open] returned: the files and the closer are the same, and the handle is
    the same or has been set to invalid after a destroy call on it. *)
Definition kept (p0 p : conPty) (h : history) : Prop :=
  r p = r p0 /\ w p = w p0 /\ closer p = closer p0
  /\ (handle p = handle p0
      \/ (handle p = InvalidHandle /\ console_closed h (handle p0) = true)).

(** The entry point of [ClosePseudoConsole] is always found. *)
Definition destroy_found : Prop :=
  forall h, pl_Find h "ClosePseudoConsole" = None.

(** A process as [Start] creates it: [cmdDone] open, [cmdErr] nil. *)
Definition fresh_process (p : windowsProcess) : Prop :=
  cmdDone p = false /\ cmdErr p = None.

End Legacy.

End Legacy.

(** ** The Unix start *)

Module Unix.

(** [exec.Cmd], as far as [start] writes it. *)
Record Cmd := {
  Stdin : option fd;
  Stdout : option fd;
  Stderr : option fd;
  SysProcAttr_ : option (bool * bool)   (* Setsid, Setctty *)
}.

Section Unix.

Context {P : platform}.

(** [Name] of an [*os.File]. *)
Variable Name : fd -> string.

Definition open : M ((fd * fd) + error) := OpenPty.

(** What a [StartOption] does to the pty, an [*os.File]; the Unix [Setsize]
    is not among the sources and is a library call here. *)
Fixpoint run_option (o : StartOption) (pty : fd) : M (option error) :=
  match o with
  | OptReturn err => ret err
  | OptClose k =>
      let* err := File_Close (Some pty) in run_option (k err) pty
  | OptFd k => run_option (k (Z.of_nat pty)) pty
  | OptName k => run_option (k (Name pty)) pty
  | OptSetsize sz k =>
      let* res := Lib "Setsize" [] in
      run_option (k (match res with inr e => Some e | inl _ => None end)) pty
  | OptLib fn args k =>
      let* res := Lib fn args in run_option (k res) pty
  end.

Fixpoint run_options (opts : list StartOption) (pty : fd) : M (option error) :=
  match opts with
  | [] => ret None
  | opt :: rest =>
      let* err := run_option opt pty in
      match err with
      | Some e => ret (Some e)
      | None => run_options rest pty
      end
  end.

Definition or_tty (f : option fd) (tty : fd) : option fd :=
  match f with
  | None => Some tty
  | Some g => Some g
  end.

(** [start]: the deferred [tty.Close()] is registered after the options
    ran. *)
Definition start (c : Cmd) (opts : list StartOption)
    : M (option fd * option error) :=
  let* res := open in
  match res with
  | inr err => ret (None, Some err)
  | inl (pty, tty) =>
      let* err := run_options opts pty in
      match err with
      | Some e => ret (Some pty, Some e)
      | None =>
          let c := {| Stdin := or_tty (Stdin c) tty;
                      Stdout := or_tty (Stdout c) tty;
                      Stderr := or_tty (Stderr c) tty;
                      SysProcAttr_ := match SysProcAttr_ c with
                                      | None => Some (true, true)
                                      | Some a => Some a
                                      end |} in
          let* err := Exec_Start in
          match err with
          | Some e =>
              let* _ := File_Close (Some pty) in
              let* _ := File_Close (Some tty) in
              ret (None, Some e)
          | None =>
              let* _ := File_Close (Some tty) in
              ret (Some pty, None)
          end
      end
  end.

End Unix.

End Unix.

(** ** The mutex-guarded pseudo-console *)

Module ConPty.

(** [closeMutex] has no field here.  Every function that locks it holds it
    from its first statement to its return; these functions are first given
    as whole calls ([run_call]), then statement by statement as goroutines
    ([thread]), where the mutex is the [mutex] of a [config]. *)
Record conPty := {
  console : Handle;
  consoler : option fd;
  consolew : option fd;
  pr : option fd;
  pw : option fd;
  closed : bool
}.

Definition set_console (p : conPty) (hpc : Handle) : conPty :=
  {| console := hpc; consoler := consoler p; consolew := consolew p;
     pr := pr p; pw := pw p; closed := closed p |}.

Definition set_closed (p : conPty) (b : bool) : conPty :=
  {| console := console p; consoler := consoler p; consolew := consolew p;
     pr := pr p; pw := pw p; closed := b |}.

(** [conFile]: [has_conPty] says that the embedded [*conPty] is not nil. *)
Record conFile := {
  has_conPty : bool;
  master : bool;
  r : option fd;
  w : option fd
}.

(** The dynamic type of a [File]: [*conFile] or anything else (a nil [File]
    fails the type assertion like any other value). *)
Inductive File :=
| FileCon (f : conFile)
| FileOther (tag : nat).

(** A call returns, or panics on a nil pointer. *)
Inductive outcome (A : Type) :=
| Returns (a : A)
| Panics.

Arguments Returns {A} a.
Arguments Panics {A}.

(** [pty.Cmd] of cmd_windows.go, as far as [start] reads it. *)
Record Cmd := {
  Context : bool;              (* cmd.Context != nil *)
  Path : string;
  Args : list string;
  Env : list string;
  Dir : string;
  Process : option Z;
  Token : Z;
  HideWindow : bool;
  CreationFlags : Z
}.

Definition set_Dir (c : Cmd) (dir : string) : Cmd :=
  {| Context := Context c; Path := Path c; Args := Args c; Env := Env c;
     Dir := dir; Process := Process c; Token := Token c;
     HideWindow := HideWindow c; CreationFlags := CreationFlags c |}.

Definition set_Process (c : Cmd) (pid : option Z) : Cmd :=
  {| Context := Context c; Path := Path c; Args := Args c; Env := Env c;
     Dir := Dir c; Process := pid; Token := Token c;
     HideWindow := HideWindow c; CreationFlags := CreationFlags c |}.

Record winProc := {
  cmdDone : bool;              (* the channel cmdDone has been closed *)
  cmdErr : option error;
  proc : Z
}.

Definition set_cmdErr (p : winProc) (e : option error) : winProc :=
  {| cmdDone := cmdDone p; cmdErr := e; proc := proc p |}.

Definition close_cmdDone (p : winProc) : winProc :=
  {| cmdDone := true; cmdErr := cmdErr p; proc := proc p |}.

(** The two cases of the [select] of [killOnContext]. *)
Inductive select_case := CaseCmdDone | CaseCtxDone.

(** [winerrorFailed]: the value read as a 32-bit integer is negative. *)
Definition winerrorFailed (r1 : Z) : bool := int32 r1 <? 0.

(** What a goroutine has left to run of a call on the pair: a result; the
    [Lock] or the [Unlock] of [closeMutex] and the rest; or one statement (a
    read or a write of the pair, or one call of the host) that yields the
    rest. *)
#[warnings="-register-all"]
Inductive thread :=
| Done (res : option error)
| Lock (k : thread)
| Unlock (k : thread)
| Step (f : conPty -> M (thread * conPty)).

(** The pair, the goroutine that holds [closeMutex], and the goroutines. *)
Record config := {
  pair : conPty;
  mutex : option nat;
  pool : list thread
}.

(** The statements between [Lock] and the return: they end with [Unlock]
    then the result, and each statement only adds events. *)
Inductive critical : thread -> Prop :=
| critical_Unlock res : critical (Unlock (Done res))
| critical_Step f :
    (forall p h, critical (fst (fst (f p h)))) ->
    (forall p h, exists evs, snd (f p h) = h ++ evs) ->
    critical (Step f).

Section ConPty.

Context {P : platform}.

Definition close_both (a b : fd) : M unit :=
  let* _ := File_Close (Some a) in
  let* _ := File_Close (Some b) in
  ret tt.

Definition openPty : M (conPty + error) :=
  let* vsn := RtlGetVersion in
  if (fst vsn <? 10) || (snd vsn <? 17763) then
    ret (inr (ErrNew "pty not supported"))
  else
  let* p1 := os_Pipe in
  match p1 with
  | inr err => ret (inr err)
  | inl (pr_, consolew_) =>
  let* p2 := os_Pipe in
  match p2 with
  | inr err =>
      let* _ := close_both consolew_ pr_ in
      ret (inr err)
  | inl (consoler_, pw_) =>
  let consoleSize := 80 + Z.shiftl 80 16 in
  let* (ret_, err, hpc) :=
    CreatePseudoConsole_Call consoleSize
      (Z.of_nat consoler_) (Z.of_nat consoler_) 0 in
  if negb (ret_ =? S_OK) then
    let* _ := close_both consolew_ pr_ in
    let* _ := close_both pw_ consoler_ in
    ret (inr (ErrCode "create pseudo console" (int32 ret_) err))
  else
    ret (inl {| console := hpc; consoler := Some consoler_;
                consolew := Some consolew_; pr := Some pr_; pw := Some pw_;
                closed := false |})
  end end.

Definition ptyf (p : conPty) : conFile :=
  {| has_conPty := true; master := true; r := pr p; w := pw p |}.

Definition ttyf (p : conPty) : conFile :=
  {| has_conPty := false; master := false; r := consoler p; w := consolew p |}.

Definition open : M (conFile * conFile * conPty + error) :=
  let* res := openPty in
  match res with
  | inr err => ret (inr err)
  | inl pty => ret (inl (ptyf pty, ttyf pty, pty))
  end.

Definition Fd (p : conPty) : Z := console p.

Definition Name (p : conPty) : string := "windows-pty".

(** [closeConsoleNoLock]: to be called with [closeMutex] held. *)
Definition closeConsoleNoLock (p : conPty) : M (option error * conPty) :=
  if negb (console p =? InvalidHandle) then
    let* (ret_, err) := ClosePseudoConsole_Call (console p) in
    if winerrorFailed ret_ then
      ret (Some (ErrCode "close pseudo console" ret_ err), p)
    else ret (None, set_console p InvalidHandle)
  else ret (None, p).

(** The end of [Close]: the pipes, each writer before its reader; [pw] and
    [pr] only when they are not nil. *)
Definition close_pipes (p : conPty) : M unit :=
  let* _ := match pw p with
            | Some f => File_Close (Some f)
            | None => ret None
            end in
  let* _ := File_Close (consoler p) in
  let* _ := File_Close (consolew p) in
  let* _ := match pr p with
            | Some f => File_Close (Some f)
            | None => ret None
            end in
  ret tt.

(** [(p *conPty) Close()], under [closeMutex]. *)
Definition Close (p : conPty) : M (option error * conPty) :=
  if closed p then ret (None, p)
  else
    let* (err, p) := closeConsoleNoLock p in
    match err with
    | Some e => ret (Some e, p)
    | None =>
        (* Only set closed after the console has been successfully closed. *)
        let p := set_closed p true in
        let* _ := close_pipes p in
        ret (None, p)
    end.

(** [(p *conFile) Close()]; [pty] is the pair behind the embedded pointer.
    It takes no lock. *)
Definition conFile_Close (f : conFile) (pty : conPty)
    : M (option error * conPty) :=
  let* e1 := File_Close (r f) in
  let* e2 := File_Close (w f) in
  let err := errors_Join [e1; e2] in
  if master f then
    let* (e3, pty) := closeConsoleNoLock pty in
    ret (errors_Join [err; e3], pty)
  else ret (err, pty).

(** *** Resizing (the Setsize and GetsizeFull on [*conFile]) *)

(** [setsize], under [closeMutex]. *)
Definition setsize (p : conPty) (size : Winsize) : M (option error) :=
  if closed p || (console p =? InvalidHandle) then ret (Some ErrClosed)
  else
    let* (ret_, err) :=
      ResizePseudoConsole_Call (console p)
        (coord_word (int16 (Cols size)) (int16 (Rows size))) in
    if negb (ret_ =? S_OK) then ret err else ret None.

(** [Setsize]; [pty] is the pair behind the pointer embedded in a
    [*conFile]. *)
Definition Setsize (f : File) (size : Winsize) (pty : conPty)
    : M (outcome (option error)) :=
  match f with
  | FileOther _ => ret (Returns (Some ErrNotPty))
  | FileCon cf =>
      if has_conPty cf then
        let* err := setsize pty size in ret (Returns err)
      else ret Panics
  end.

(** [getsizeFull], under [closeMutex]. *)
Definition getsizeFull (p : conPty) : M (option Winsize * option error) :=
  if closed p || (console p =? InvalidHandle) then ret (None, Some ErrClosed)
  else
    let* res := GetConsoleScreenBufferInfo (console p) in
    match res with
    | inr e => ret (None, Some e)
    | inl win =>
        let w_ := int16 (int16 (Right win - Left win) + 1) in
        let h_ := int16 (int16 (Bottom win - Top win) + 1) in
        ret (Some {| Rows := uint16 h_; Cols := uint16 w_; X := 0; Y := 0 |},
             None)
    end.

Definition GetsizeFull (f : File) (pty : conPty)
    : M (outcome (option Winsize * option error)) :=
  match f with
  | FileOther _ => ret (Returns (None, Some ErrUnsupported))
  | FileCon cf =>
      if has_conPty cf then
        let* res := getsizeFull pty in ret (Returns res)
      else ret Panics
  end.

(** *** The process monitor and the cancellation watcher *)

(** The body of the monitor after [proc.Wait()]: the error of the wait, or
    an exit error when the process did not succeed. *)
Definition record_exit (p : winProc) (res : ProcessState + error) : winProc :=
  match res with
  | inr err => set_cmdErr p (Some err)
  | inl state =>
      if negb (Success state)
      then set_cmdErr p (Some (ExitError state))
      else p
  end.

(** The deferred function: the error of the teardown is recorded when the
    command left none. *)
Definition record_teardown (p : winProc) (err : option error) : winProc :=
  match err, cmdErr p with
  | Some e, None => set_cmdErr p (Some e)
  | _, _ => p
  end.

(** [waitInternal]: the one call of [proc.Wait()], then the deferred
    teardown under [closeMutex], then [close(p.cmdDone)]. *)
Definition waitInternal (p : winProc) (pty : conPty)
    : M (winProc * conPty) :=
  let* res := Proc_Wait (proc p) in
  let p := record_exit p res in
  let* (err, pty) := closeConsoleNoLock pty in
  let p := record_teardown p err in
  ret (close_cmdDone p, pty).

(** The deferred function of [waitInternal] alone: what the monitor does to
    the pair. *)
Definition monitor_teardown (pty : conPty) : M (option error * conPty) :=
  closeConsoleNoLock pty.

(** [Wait]: [None] is a caller still blocked on [cmdDone]. *)
Definition Wait (p : winProc) : option (option error) :=
  if cmdDone p then Some (cmdErr p) else None.

Definition Kill (p : winProc) : M (option error) := Proc_Kill (proc p).

(** [killOnContext], given the case its [select] takes. *)
Definition killOnContext (p : winProc) (c : select_case) : M unit :=
  match c with
  | CaseCmdDone => ret tt
  | CaseCtxDone => let* _ := Kill p in ret tt
  end.

(** A case of the [select] can be taken when its channel is ready. *)
Definition case_ready (p : winProc) (ctx_done : bool) (c : select_case) : bool :=
  match c with
  | CaseCmdDone => cmdDone p
  | CaseCtxDone => ctx_done
  end.

(** *** start_windows.go *)

(** [(p *conPty) start(cmd)]. *)
Definition start (p : conPty) (cmd : Cmd) : M (option error * Cmd) :=
  let* fullPath := Lib "exec.LookPath" [Path cmd] in
  match fullPath with
  | inr e => ret (Some e, cmd)
  | inl fullPath =>
  let* pathPtr := Lib "UTF16PtrFromString" [fullPath] in
  match pathPtr with
  | inr e => ret (Some e, cmd)
  | inl _ =>
  let* argsPtr := Lib "UTF16PtrFromString" (Args cmd) in
  match argsPtr with
  | inr e => ret (Some e, cmd)
  | inl _ =>
  let* wd := if String.eqb (Dir cmd) "" then Lib "os.Getwd" []
             else ret (inl (Dir cmd)) in
  match wd with
  | inr e => ret (Some e, cmd)
  | inl dir =>
  let cmd := set_Dir cmd dir in
  let* dirPtr := Lib "UTF16PtrFromString" [Dir cmd] in
  match dirPtr with
  | inr e => ret (Some e, cmd)
  | inl _ =>
  let* attrs := Lib "NewProcThreadAttributeList" [] in
  match attrs with
  | inr e => ret (Some e, cmd)
  | inl _ =>
  let* err := UpdateAttr (console p) in
  match err with
  | Some e => ret (Some e, cmd)
  | None =>
  let* res :=
    CreateProcess (negb (Token cmd =? 0))
      (Env.addCriticalEnv go_EqualFold pl_Getenv
         (Env.dedupEnvCase go_ToLower true (Env cmd))) in
  match res with
  | inr e => ret (Some e, cmd)
  | inl pid =>
  let* err := FindProcess pid in
  match err with
  | Some e =>
      let* _ := CloseHandles pid in
      ret (Some (ErrCode "find process" pid (Some e)), cmd)
  | None =>
      let cmd := set_Process cmd (Some pid) in
      let* _ := go (TaskWait pid) in
      let* _ := if Context cmd then go (TaskKillOnContext pid) else ret tt in
      let* _ := CloseHandles pid in
      ret (None, cmd)
  end end end end end end end end end.

(** The function deferred by [StartWithAttrs]: it reads the variable [err]
    of [StartWithAttrs] and closes [ptyf] when that is not nil. *)
Definition StartWithAttrs_deferred (err : option error) (ptyf_ : conFile)
    (pty : conPty) : M conPty :=
  match err with
  | Some _ => let* (_, pty) := conFile_Close ptyf_ pty in ret pty
  | None => ret pty
  end.

(** [StartWithAttrs].  Its variable [err] is the one declared with
    [winPty, err := openPty()]; the two [if err := ...] below declare
    variables of their own and the results have no names, so [err] is nil
    whenever the deferred function runs. *)
Definition StartWithAttrs (cmd : Cmd) (sz : option Winsize)
    : M (option conFile * option error * option conPty) :=
  let* res := openPty in
  match res with
  | inr e => ret (None, Some e, None)
  | inl winPty =>
      let err : option error := None in
      let ptyf_ := ptyf winPty in
      let* err1 := match sz with
                   | Some sz => setsize winPty sz
                   | None => ret None
                   end in
      match err1 with
      | Some e =>
          let* winPty := StartWithAttrs_deferred err ptyf_ winPty in
          ret (None, Some e, Some winPty)
      | None =>
          let* (err2, cmd) := start winPty cmd in
          match err2 with
          | Some e =>
              let* winPty := StartWithAttrs_deferred err ptyf_ winPty in
              ret (None, Some e, Some winPty)
          | None =>
              let* winPty := StartWithAttrs_deferred err ptyf_ winPty in
              ret (Some ptyf_, None, Some winPty)
          end
      end
  end.

Definition StartWithSize (cmd : Cmd) (ws : option Winsize)
    : M (option conFile * option error * option conPty) :=
  StartWithAttrs cmd ws.

Definition Start (cmd : Cmd)
    : M (option conFile * option error * option conPty) :=
  StartWithSize cmd None.

(** *** Calls on one pair *)

(** The calls that take [closeMutex], and what each returns. *)
Inductive call :=
| CallClose
| CallSetsize (size : Winsize)
| CallGetsizeFull
| CallTeardown.                (* the deferred function of waitInternal *)

Definition run_call (c : call) (pty : conPty) : M (option error * conPty) :=
  match c with
  | CallClose => Close pty
  | CallSetsize size => let* err := setsize pty size in ret (err, pty)
  | CallGetsizeFull => let* res := getsizeFull pty in ret (snd res, pty)
  | CallTeardown => monitor_teardown pty
  end.

(** The calls of a list, one after the other: the errors they return and
    the pair at the end. *)
Fixpoint run_calls (cs : list call) (pty : conPty)
    : M (list (option error) * conPty) :=
  match cs with
  | [] => ret ([], pty)
  | c :: rest =>
      let* (err, pty) := run_call c pty in
      let* (errs, pty) := run_calls rest pty in
      ret (err :: errs, pty)
  end.

(** *** Goroutines on one pair *)

(** [closeConsoleNoLock] statement by statement: the test of the handle,
    the destroy call on the handle as it is then, the write of the invalid
    handle; [k] is the rest, given the error returned. *)
Definition closeConsoleNoLock_t (k : option error -> thread) : thread :=
  Step (fun p =>
    if negb (console p =? InvalidHandle) then
      ret (Step (fun p =>
             let* (ret_, err) := ClosePseudoConsole_Call (console p) in
             if winerrorFailed ret_ then
               ret (k (Some (ErrCode "close pseudo console" ret_ err)), p)
             else
               ret (Step (fun p => ret (k None, set_console p InvalidHandle)),
                    p)),
           p)
    else ret (k None, p)).

(** The four closes at the end of [Close], then [k]. *)
Definition close_pipes_t (k : thread) : thread :=
  Step (fun p =>
    let* _ := match pw p with
              | Some f => File_Close (Some f)
              | None => ret None
              end in
    ret (Step (fun p =>
           let* _ := File_Close (consoler p) in
           ret (Step (fun p =>
                  let* _ := File_Close (consolew p) in
                  ret (Step (fun p =>
                         let* _ := match pr p with
                                   | Some f => File_Close (Some f)
                                   | None => ret None
                                   end in
                         ret (k, p)), p)), p)), p)).

Definition Close_t : thread :=
  Lock (Step (fun p =>
    if closed p then ret (Unlock (Done None), p)
    else
      ret (closeConsoleNoLock_t (fun err =>
             match err with
             | Some e => Unlock (Done (Some e))
             | None =>
                 Step (fun p =>
                   ret (close_pipes_t (Unlock (Done None)),
                        set_closed p true))
             end), p))).

Definition setsize_t (size : Winsize) : thread :=
  Lock (Step (fun p =>
    if closed p || (console p =? InvalidHandle) then
      ret (Unlock (Done (Some ErrClosed)), p)
    else
      ret (Step (fun p =>
             let* (ret_, err) :=
               ResizePseudoConsole_Call (console p)
                 (coord_word (int16 (Cols size)) (int16 (Rows size))) in
             ret (Unlock (Done (if negb (ret_ =? S_OK) then err else None)),
                  p)), p))).

Definition getsizeFull_t : thread :=
  Lock (Step (fun p =>
    if closed p || (console p =? InvalidHandle) then
      ret (Unlock (Done (Some ErrClosed)), p)
    else
      ret (Step (fun p =>
             let* res := GetConsoleScreenBufferInfo (console p) in
             ret (Unlock (Done (match res with
                                | inr e => Some e
                                | inl _ => None
                                end)), p)), p))).

(** The deferred function of [waitInternal]. *)
Definition teardown_t : thread :=
  Lock (closeConsoleNoLock_t (fun err => Unlock (Done err))).

(** [(p *conFile) Close()]: no [Lock]. *)
Definition conFile_Close_t (f : conFile) : thread :=
  Step (fun p =>
    let* e1 := File_Close (r f) in
    ret (Step (fun p =>
           let* e2 := File_Close (w f) in
           let err := errors_Join [e1; e2] in
           ret (if master f then
                  closeConsoleNoLock_t (fun e3 => Done (errors_Join [err; e3]))
                else Done err, p)), p)).

Definition thread_of (c : call) : thread :=
  match c with
  | CallClose => Close_t
  | CallSetsize size => setsize_t size
  | CallGetsizeFull => getsizeFull_t
  | CallTeardown => teardown_t
  end.

(** One step of goroutine [i]: [Lock] waits while another goroutine holds
    the mutex; a goroutine that has returned does nothing. *)
Definition step (i : nat) (c : config) : M config := fun h =>
  match pool c !! i with
  | Some (Lock k) =>
      match mutex c with
      | None =>
          ({| pair := pair c; mutex := Some i; pool := <[i := k]> (pool c) |},
           h)
      | Some _ => (c, h)
      end
  | Some (Unlock k) =>
      ({| pair := pair c; mutex := None; pool := <[i := k]> (pool c) |}, h)
  | Some (Step f) =>
      let '(t, p, h') := f (pair c) h in
      ({| pair := p; mutex := mutex c; pool := <[i := t]> (pool c) |}, h')
  | Some (Done _) => (c, h)
  | None => (c, h)
  end.

(** The goroutines run as the scheduler picks them. *)
Fixpoint run_sched (sched : list nat) (c : config) : M config :=
  match sched with
  | [] => ret c
  | i :: rest => let* c' := step i c in run_sched rest c'
  end.

(** A goroutine run alone to its return. *)
Fixpoint finish (t : thread) (p : conPty) (h : history)
    : option error * conPty * history :=
  match t with
  | Done res => (res, p, h)
  | Lock k => finish k p h
  | Unlock k => finish k p h
  | Step f =>
      match f p h with
      | (t', p', h') => finish t' p' h'
      end
  end.

(** One goroutine per call, none started. *)
Definition spawn (cs : list call) (p : conPty) : config :=
  {| pair := p; mutex := None; pool := map thread_of cs |}.

(** Where goroutine [j] stands when it is not inside a call: it has not
    taken the mutex yet and is the call [cs !! j]; or it was the [k]-th to
    take it and has returned what that call returned. *)
Definition settled (cs : list call) (idx : list nat)
    (errs : list (option error)) (j : nat) (t : thread) : Prop :=
  ((j ∉ idx) /\ exists cj, cs !! j = Some cj /\ t = thread_of cj)
  \/ (exists k res,
        idx !! k = Some j /\ errs !! k = Some res /\ t = Done res).

(** The goroutines of [c], one per call of [cs], have run from the pair [p0]
    and the history [h0] as if the goroutines [idx] had made their calls one
    after the other, in that order, and returned what these calls return:
    either no goroutine holds the mutex and pair and history are those that
    the calls leave; or goroutine [i] holds it, is inside its call, begun
    after the others, and run alone from here it ends as that call does. *)
Definition serialised (cs : list call) (p0 : conPty) (h0 : history)
    (idx : list nat) (c : config) (h : history) : Prop :=
  NoDup idx /\
  exists order errs p1 h1,
    Forall2 (fun i ci => cs !! i = Some ci) idx order
    /\ run_calls order p0 h0 = (errs, p1, h1)
    /\ match mutex c with
       | None =>
           pair c = p1 /\ h = h1
           /\ forall j t, pool c !! j = Some t -> settled cs idx errs j t
       | Some i =>
           exists t ci,
             pool c !! i = Some t /\ critical t
             /\ cs !! i = Some ci /\ (i ∉ idx)
             /\ finish t (pair c) h = run_call ci p1 h1
             /\ (exists evs, h = h1 ++ evs)
             /\ forall j t', j <> i -> pool c !! j = Some t' ->
                  settled cs idx errs j t'
       end.

(** *** Specification vocabulary *)

(** The pair is as [openPty] returns it: not closed, its handle valid. *)
Definition is_open (p : conPty) : Prop :=
  closed p = false /\ console p <> InvalidHandle.

(** The pair is closed, or its handle has been set to invalid. *)
Definition is_shut (p : conPty) : Prop :=
  closed p = true \/ console p = InvalidHandle.

(** The host never answers a destroy call with a failure. *)
Definition destroy_succeeds : Prop :=
  forall h hpc, winerrorFailed (fst (pl_ClosePseudoConsole h hpc)) = false.

(** Where a pair stands after [n] destroy calls on a host on which destroy
    succeeds: open and none issued, or its handle invalid and one issued. *)
Definition destroyed_once (p : conPty) (n : nat) : Prop :=
  (is_open p /\ n = 0%nat) \/ (console p = InvalidHandle /\ n = 1%nat).

(** The handles that the events destroy: a destroy call counts when its
    answer is not a failure. *)
Definition gone_after (gone : list Handle) (evs : list event) : list Handle :=
  foldl (fun g e =>
           match e with
           | EvClosePseudoConsole hpc r1 _ =>
               if winerrorFailed r1 then g else hpc :: g
           | _ => g
           end) gone evs.

(** The handle of the pair, when valid, is none of the handles [gone]. *)
Definition fresh_handle (p : conPty) (gone : list Handle) : Prop :=
  console p <> InvalidHandle -> existsb (Z.eqb (console p)) gone = false.

(** No resize call of [evs] names a handle that was destroyed before it,
    [gone] being the handles destroyed before [evs]. *)
Fixpoint resize_guarded (gone : list Handle) (evs : list event) : bool :=
  match evs with
  | [] => true
  | e :: rest =>
      match e with
      | EvResizePseudoConsole hpc _ _ _ => negb (existsb (Z.eqb hpc) gone)
      | _ => true
      end && resize_guarded (gone_after gone [e]) rest
  end.

(** [n] calls of [openPty], one after the other. *)
Fixpoint openPty_times (n : nat) : M (list (conPty + error)) :=
  match n with
  | O => ret []
  | S k =>
      let* res := openPty in
      let* rest := openPty_times k in
      ret (res :: rest)
  end.

(** The type assertion of [f] to a pointer to [conFile]. *)
Definition as_conFile (f : File) : option conFile :=
  match f with
  | FileCon cf => Some cf
  | FileOther _ => None
  end.

End ConPty.

End ConPty.

(** ** The environment block (start_windows.go) *)

Module Block.

(** The byte 0. *)
Definition NUL : ascii := Ascii.zero.

(** [[]byte(s)]. *)
Definition bytes (s : string) : list ascii := String.list_ascii_of_string s.

(** [copy(b[lo:hi], src)]: the slice expression panics ([None]) unless
    [lo <= hi <= len(b)]; [copy] writes as many bytes as fit. *)
Definition copy (b : list ascii) (lo hi : nat) (src : list ascii)
    : option (list ascii) :=
  if (lo <=? hi)%nat && (hi <=? length b)%nat then
    let n := Nat.min (hi - lo) (length src) in
    Some (take lo b ++ take n src ++ drop (lo + n) b)
  else None.

(** The first loop of [createEnvBlock] and the [length += 1] after it. *)
Definition block_length (envv : list string) : nat :=
  (foldl (fun length s => length + (String.length s + 1)) 0 envv + 1)%nat.

(** One iteration of the second loop, on the buffer [b] and the index [i]. *)
Definition block_body (st : option (list ascii * nat)) (s : string)
    : option (list ascii * nat) :=
  match st with
  | None => None
  | Some (b, i) =>
      let l := String.length s in
      match copy b i (i + l) (bytes s) with
      | None => None
      | Some b =>
          match copy b (i + l) (i + l + 1) [NUL] with
          | None => None
          | Some b => Some (b, (i + l + 1)%nat)
          end
      end
  end.

(** The buffer [b] of [createEnvBlock] for a list that is not empty. *)
Definition block_bytes (envv : list string) : option (list ascii) :=
  match foldl block_body (Some (replicate (block_length envv) NUL, 0%nat)) envv with
  | None => None
  | Some (b, i) => copy b i (i + 1) [NUL]
  end.

Section Block.

(** [utf16.Encode([]rune(string(b)))], of Go's library. *)
Variable encode : list ascii -> list Z.

(** [createEnvBlock]: the array whose first element the result points to;
    [None] is a panic. *)
Definition createEnvBlock (envv : list string) : option (list Z) :=
  if (length envv =? 0)%nat then Some (encode [NUL; NUL])
  else
    match block_bytes envv with
    | None => None
    | Some b => Some (encode b)
    end.

End Block.

(** *** Specification vocabulary *)

(** The entries one after the other, each followed by a byte 0. *)
Definition layout (envv : list string) : list ascii :=
  concat (map (fun s => bytes s ++ [NUL]) envv).

(** The entry holds no byte 0. *)
Definition nul_free (s : string) : Prop := NUL ∉ bytes s.

(** A byte below 128. *)
Definition is_ascii (c : ascii) : Prop := (nat_of_ascii c < 128)%nat.

(** The entry holds no byte 0 and only bytes below 128. *)
Definition plain (s : string) : Prop :=
  nul_free s /\ Forall is_ascii (bytes s).

(** The encoder loses nothing on bytes below 128. *)
Definition faithful (encode : list ascii -> list Z) : Prop :=
  forall b1 b2, Forall is_ascii b1 -> Forall is_ascii b2 ->
                encode b1 = encode b2 -> b1 = b2.

End Block.

(** ** Reading a history *)

Module Trace.

(** The files that the events create. *)
Fixpoint opened (evs : list event) : list fd :=
  match evs with
  | [] => []
  | EvPipe (inl (a, b)) :: rest => a :: b :: opened rest
  | EvOpenPty (inl (a, b)) :: rest => a :: b :: opened rest
  | _ :: rest => opened rest
  end.

(** A call of a function of Go's library. *)
Definition is_lib (e : event) : bool :=
  match e with EvLib _ _ _ => true | _ => false end.

(** A process has been created. *)
Definition is_created (e : event) : bool :=
  match e with EvCreateProcess _ _ (inl _) => true | _ => false end.

Definition is_create_process (e : event) : bool :=
  match e with EvCreateProcess _ _ _ => true | _ => false end.

Definition is_go (e : event) : bool :=
  match e with EvGo _ => true | _ => false end.

Definition is_kill (e : event) : bool :=
  match e with EvProcKill _ _ => true | _ => false end.

Definition is_close_handles (e : event) : bool :=
  match e with EvCloseHandles _ => true | _ => false end.

(** The event starts something: a process or a goroutine. *)
Definition is_launch (e : event) : bool := is_create_process e || is_go e.

(** The event changes nothing of a pair that exists: it closes no file,
    destroys and resizes no console. *)
Definition spares_pair (e : event) : Prop :=
  is_file_close e = false /\ is_destroy e = false /\ is_resize e = false.

(** What is left of the events without the calls of the library. *)
Definition steps (evs : list event) : list event :=
  List.filter (fun e => negb (is_lib e)) evs.

End Trace.

(** ** Building a command (cmd_windows.go) *)

Module Command.

(** [CommandContext(ctx, name, arg...)]; [ctx] says whether the context is
    not nil.  The fields it does not set are zero: no directory, no process,
    no [SysProcAttr]. *)
Definition CommandContext (ctx : bool) (name : string) (arg : list string)
    : ConPty.Cmd :=
  {| ConPty.Context := ctx;
     ConPty.Path := name;
     ConPty.Args := [name] ++ arg;
     ConPty.Env := [];
     ConPty.Dir := "";
     ConPty.Process := None;
     ConPty.Token := 0;
     ConPty.HideWindow := false;
     ConPty.CreationFlags := 0 |}.

(** [Command(name, arg...)]: the context is [context.Background()]. *)
Definition Command (name : string) (arg : list string) : ConPty.Cmd :=
  CommandContext true name arg.

End Command.

(** ** The files of a pair *)

Module Files.

Import ConPty.

(** The four files of the pair are four files, none closed yet. *)
Definition four_files (p : conPty) (a b c d : fd) (h : history) : Prop :=
  pr p = Some a /\ consolew p = Some b /\ consoler p = Some c /\ pw p = Some d
  /\ NoDup [a; b; c; d]
  /\ forall f, f ∈ [a; b; c; d] -> file_closed h f = false.

End Files.

(** ** Sample hosts *)

Module Sample.

(** A host: Windows 10 build 19045, console handle 4096, process 77 that
    exits with status 0, [SYSTEMROOT] set.  The arguments say what closing a
    file, destroying and resizing the console, creating a process and
    [exec.Cmd.Start] answer; every other call succeeds. *)
Definition make_host (fclose : fd -> option error)
    (destroy resize : Z * option error) (spawn : Z + error)
    (exec : option error) : platform :=
  {| pl_Pipe := fun _ => None;
     pl_OpenPty := fun _ => None;
     pl_FileClose := fun _ f => fclose f;
     pl_RtlGetVersion := fun _ => (10, 19045);
     pl_Find := fun _ _ => None;
     pl_CreatePseudoConsole := fun _ => (0, None, 4096);
     pl_ClosePseudoConsole := fun _ _ => destroy;
     pl_ResizePseudoConsole := fun _ _ _ => resize;
     pl_GetConsoleScreenBufferInfo := fun _ _ =>
       inl {| Left := 0; Top := 0; Right := 79; Bottom := 29 |};
     pl_Lib := fun _ _ _ => inl "ok";
     pl_execEnvDefault := fun _ => inl ["PATH=C:/Windows"];
     pl_UpdateAttr := fun _ _ => None;
     pl_CreateProcess := fun _ => spawn;
     pl_FindProcess := fun _ _ => None;
     pl_ExecStart := fun _ => exec;
     pl_ProcWait := fun _ _ => inl {| ExitCode := 0 |};
     pl_ProcKill := fun _ _ => None;
     pl_Getenv := fun _ => "C:/Windows";
     go_ToLower := Env.ToLower_ascii;
     go_EqualFold := Env.EqualFold_ascii |}.

(** Every call succeeds ([ClosePseudoConsole] answers S_FALSE). *)
Definition host : platform :=
  make_host (fun _ => None) (1, None) (0, None) (inl 77) None.

(** [ClosePseudoConsole] answers E_FAIL, with last error 6. *)
Definition host_destroy_fails : platform :=
  make_host (fun _ => None) (0x80004005, Some (Errno 6)) (0, None) (inl 77)
    None.

(** [ResizePseudoConsole] answers E_INVALIDARG. *)
Definition host_resize_fails : platform :=
  make_host (fun _ => None) (1, None) (0x80070057, Some (Errno 87)) (inl 77)
    None.

(** No process can be created. *)
Definition host_spawn_fails : platform :=
  make_host (fun _ => None) (1, None) (0, None) (inr (Errno 2))
    (Some (Errno 2)).

(** Closing file 1, the console's end of the first pipe, fails. *)
Definition host_close_fails : platform :=
  make_host (fun f => if Nat.eqb f 1 then Some (Errno 6) else None)
    (1, None) (0, None) (inl 77) None.

Definition pack (x y : Z) : Z := coord_word x y.

Definition cmdline (c : Legacy.Cmd) : string := Legacy.Path c.

Definition legacy_cmd : Legacy.Cmd :=
  {| Legacy.Path := "cmd.exe"; Legacy.Args := ["cmd.exe"];
     Legacy.Env := Some ["A=1"; "a=2"; "B=3"]; Legacy.Dir := "";
     Legacy.Process := None; Legacy.SysProcAttr_ := None |}.

(** The pty that the closer-based [open] returns on these hosts, and the
    process of [legacy_cmd]. *)
Definition legacy_pty : Legacy.conPty :=
  {| Legacy.handle := 4096; Legacy.r := 0%nat; Legacy.w := 3%nat;
     Legacy.closer := Legacy.winPtyCloser_fn; Legacy.name := "" |}.

Definition legacy_process : Legacy.windowsProcess :=
  {| Legacy.cmdDone := false; Legacy.cmdErr := None; Legacy.proc := 77 |}.

(** A process whose monitor has run. *)
Definition exited : ConPty.winProc :=
  {| ConPty.cmdDone := true; ConPty.cmdErr := None; ConPty.proc := 77 |}.

Definition name (f : fd) : string := "/dev/ptmx".

Definition unix_cmd : Unix.Cmd :=
  {| Unix.Stdin := None; Unix.Stdout := None; Unix.Stderr := None;
     Unix.SysProcAttr_ := None |}.

Definition cmd : ConPty.Cmd :=
  {| ConPty.Context := true; ConPty.Path := "cmd.exe";
     ConPty.Args := ["cmd.exe"]; ConPty.Env := ["A=1"; "a=2"; "B=3"];
     ConPty.Dir := ""; ConPty.Process := None; ConPty.Token := 0;
     ConPty.HideWindow := false; ConPty.CreationFlags := 0 |}.

Definition size_24x80 : Winsize := {| Rows := 24; Cols := 80; X := 0; Y := 0 |}.

(** The pair that [openPty] returns on these hosts. *)
Definition pair : ConPty.conPty :=
  {| ConPty.console := 4096; ConPty.consoler := Some 2%nat;
     ConPty.consolew := Some 1%nat; ConPty.pr := Some 0%nat;
     ConPty.pw := Some 3%nat; ConPty.closed := false |}.

End Sample.

(** ** More sample hosts *)

Module Hosts.

(** The sample host, but [CreatePseudoConsole] answers [r0] with the last
    error [err]. *)
Definition create_answers (r0 : Z) (err : option error) : platform :=
  {| pl_Pipe := fun _ => None;
     pl_OpenPty := fun _ => None;
     pl_FileClose := fun _ _ => None;
     pl_RtlGetVersion := fun _ => (10, 19045);
     pl_Find := fun _ _ => None;
     pl_CreatePseudoConsole := fun _ => (r0, err, 0);
     pl_ClosePseudoConsole := fun _ _ => (1, None);
     pl_ResizePseudoConsole := fun _ _ _ => (0, None);
     pl_GetConsoleScreenBufferInfo := fun _ _ =>
       inl {| Left := 0; Top := 0; Right := 79; Bottom := 29 |};
     pl_Lib := fun _ _ _ => inl "ok";
     pl_execEnvDefault := fun _ => inl ["PATH=C:/Windows"];
     pl_UpdateAttr := fun _ _ => None;
     pl_CreateProcess := fun _ => inl 77;
     pl_FindProcess := fun _ _ => None;
     pl_ExecStart := fun _ => None;
     pl_ProcWait := fun _ _ => inl {| ExitCode := 0 |};
     pl_ProcKill := fun _ _ => None;
     pl_Getenv := fun _ => "C:/Windows";
     go_ToLower := Env.ToLower_ascii;
     go_EqualFold := Env.EqualFold_ascii |}.

(** What [utf16.Encode([]rune(string(b)))] gives on bytes below 128: one
    code unit for each byte, of the same value. *)
Definition encode (b : list ascii) : list Z :=
  map (fun c => Z.of_nat (nat_of_ascii c)) b.

End Hosts.

(** * Theorems *)

(** ** Lists: filtering after an update in place *)

Section FilterInsert.

Context {A : Type} (P : A -> Prop) `{!forall x, Decision (P x)}.

Lemma filter_insert_other (l : list A) i x y :
  l !! i = Some x -> ~ P x -> ~ P y -> filter P (<[i:=y]> l) = filter P l.
Proof.
  intros Hl Hx Hy.
  rewrite <- (take_drop_middle l i x Hl) at 2.
  rewrite insert_take_drop by (eapply lookup_lt_Some; eauto).
  rewrite !filter_app, !filter_cons.
  destruct (decide (P x)), (decide (P y)); tauto.
Qed.

Lemma filter_insert_one (l : list A) i x y :
  l !! i = Some x -> P x -> P y -> (length (filter P l) <= 1)%nat ->
  filter P (<[i:=y]> l) = [y].
Proof.
  intros Hl Hx Hy Hlen.
  rewrite <- (take_drop_middle l i x Hl) in Hlen.
  rewrite insert_take_drop by (eapply lookup_lt_Some; eauto).
  rewrite !filter_app, !filter_cons in *.
  destruct (decide (P x)); [|tauto]. destruct (decide (P y)); [|tauto].
  rewrite length_app in Hlen. simpl in Hlen.
  destruct (filter P (take i l)); [|simpl in Hlen; lia].
  destruct (filter P (drop (S i) l)); [reflexivity|simpl in Hlen; lia].
Qed.

Lemma filter_none (l : list A) : (forall x, x ∈ l -> ~ P x) -> filter P l = [].
Proof.
  induction l as [|a l IH]; intros Hall; [reflexivity|].
  rewrite filter_cons. destruct (decide (P a)) as [Ha|Ha].
  - exfalso. apply (Hall a); [left|exact Ha].
  - apply IH. intros x Hx. apply Hall. right. exact Hx.
Qed.

End FilterInsert.

(** ** Environment merging *)

Section EnvFacts.

Variable ToLower : string -> string.
Variable ci : bool.

Abbreviation env_key := (Env.env_key ToLower ci).
Abbreviation with_key := (Env.with_key ToLower ci).
Abbreviation without_key := (Env.without_key ToLower ci).
Abbreviation dedup_body := (Env.dedup_body ToLower ci).
Abbreviation dedup_inv := (Env.dedup_inv ToLower ci).

Lemma dedup_body_key out saw kv :
  dedup_body (out, saw) kv =
  match env_key kv with
  | None => (out ++ [kv], saw)
  | Some k =>
      match saw !! k with
      | Some dupIdx => (<[dupIdx := kv]> out, saw)
      | None => (out ++ [kv], <[k := length out]> saw)
      end
  end.
Proof.
  unfold Env.dedup_body, Env.env_key.
  destruct (Env.Index kv "=" <? 0); reflexivity.
Qed.

Lemma with_key_snoc k l kv :
  with_key k (l ++ [kv]) =
  with_key k l ++ (if decide (env_key kv = Some k) then [kv] else []).
Proof.
  unfold Env.with_key. rewrite filter_app, filter_cons, filter_nil.
  destruct (decide _); reflexivity.
Qed.

Lemma without_key_snoc l kv :
  without_key (l ++ [kv]) =
  without_key l ++ (if decide (env_key kv = None) then [kv] else []).
Proof.
  unfold Env.without_key. rewrite filter_app, filter_cons, filter_nil.
  destruct (decide _); reflexivity.
Qed.

Lemma option_list_last_length {A} (l : list A) :
  (length (option_list (last l)) <= 1)%nat.
Proof. destruct (last l); simpl; lia. Qed.

Lemma dedup_inv_nil : dedup_inv [] ([], ∅).
Proof.
  repeat split; simpl.
  - intros k i Hk. rewrite lookup_empty in Hk. discriminate.
  - intros k _ kv Hkv. inversion Hkv.
Qed.

Lemma dedup_inv_step pre st kv :
  dedup_inv pre st -> dedup_inv (pre ++ [kv]) (dedup_body st kv).
Proof.
  destruct st as [out saw]. intros (Hsaw & Hnew & Hkey & Hnokey).
  rewrite dedup_body_key. unfold Env.dedup_inv. simpl in Hsaw, Hnew, Hkey, Hnokey.
  destruct (env_key kv) as [k0|] eqn:Hk0.
  - destruct (saw !! k0) as [i|] eqn:Hi.
    + destruct (Hsaw _ _ Hi) as (old & Hold & Hkold).
      repeat split; simpl.
      * intros k j Hj. destruct (decide (j = i)) as [->|Hne].
        -- exists kv. split.
           ++ apply list_lookup_insert_eq. eapply lookup_lt_Some; eauto.
           ++ destruct (Hsaw _ _ Hj) as (o & Ho & Hko). congruence.
        -- destruct (Hsaw _ _ Hj) as (o & Ho & Hko). exists o. split; [|exact Hko].
           rewrite list_lookup_insert_ne by congruence. exact Ho.
      * intros k Hk x Hx Hkx.
        apply list_elem_of_lookup in Hx. destruct Hx as [j Hj].
        destruct (decide (j = i)) as [->|Hne].
        -- rewrite list_lookup_insert_eq in Hj by (eapply lookup_lt_Some; eauto).
           congruence.
        -- rewrite list_lookup_insert_ne in Hj by congruence.
           eapply Hnew; [exact Hk| |exact Hkx]. apply list_elem_of_lookup. eauto.
      * intros k. rewrite with_key_snoc. destruct (decide (env_key kv = Some k)) as [Heq|Hne].
        -- assert (k = k0) by congruence. subst k.
           rewrite last_snoc. simpl. unfold Env.with_key.
           eapply filter_insert_one; eauto.
           fold (with_key k0 out). rewrite Hkey. apply option_list_last_length.
        -- rewrite app_nil_r, <- Hkey. unfold Env.with_key.
           eapply filter_insert_other; eauto. congruence.
      * rewrite without_key_snoc. destruct (decide (env_key kv = None)); [congruence|].
        rewrite app_nil_r, <- Hnokey. unfold Env.without_key.
        eapply filter_insert_other; eauto. congruence.
    + repeat split; simpl.
      * intros k j Hj. destruct (decide (k0 = k)) as [->|Hne].
        -- rewrite lookup_insert_eq in Hj. injection Hj as <-.
           exists kv. split; [|exact Hk0].
           rewrite lookup_app_r by lia. rewrite Nat.sub_diag. reflexivity.
        -- rewrite lookup_insert_ne in Hj by congruence.
           destruct (Hsaw _ _ Hj) as (o & Ho & Hko). exists o. split; [|exact Hko].
           rewrite lookup_app_l by (eapply lookup_lt_Some; eauto). exact Ho.
      * intros k Hk x Hx Hkx. destruct (decide (k0 = k)) as [->|Hne].
        -- rewrite lookup_insert_eq in Hk. discriminate.
        -- rewrite lookup_insert_ne in Hk by congruence.
           apply elem_of_app in Hx. destruct Hx as [Hx|Hx].
           ++ eapply Hnew; eauto.
           ++ apply list_elem_of_singleton in Hx. congruence.
      * intros k. rewrite !with_key_snoc. destruct (decide (env_key kv = Some k)) as [Heq|Hne].
        -- assert (k = k0) by congruence. subst k.
           rewrite last_snoc. simpl.
           unfold Env.with_key at 1. rewrite filter_none; [reflexivity|].
           intros x Hx. eapply Hnew; eauto.
        -- rewrite !app_nil_r. apply Hkey.
      * rewrite !without_key_snoc. destruct (decide (env_key kv = None)); [congruence|].
        rewrite !app_nil_r. exact Hnokey.
  - repeat split; simpl.
    + intros k j Hj. destruct (Hsaw _ _ Hj) as (o & Ho & Hko). exists o. split; [|exact Hko].
      rewrite lookup_app_l by (eapply lookup_lt_Some; eauto). exact Ho.
    + intros k Hk x Hx Hkx. apply elem_of_app in Hx. destruct Hx as [Hx|Hx].
      * eapply Hnew; eauto.
      * apply list_elem_of_singleton in Hx. congruence.
    + intros k. rewrite !with_key_snoc. destruct (decide (env_key kv = Some k)); [congruence|].
      rewrite !app_nil_r. apply Hkey.
    + rewrite !without_key_snoc. destruct (decide (env_key kv = None)); [|congruence].
      rewrite Hnokey. reflexivity.
Qed.

Lemma dedup_inv_foldl env pre st :
  dedup_inv pre st -> dedup_inv (pre ++ env) (foldl dedup_body st env).
Proof.
  revert pre st. induction env as [|kv env IH]; intros pre st Hinv; simpl.
  - rewrite app_nil_r. exact Hinv.
  - replace (pre ++ kv :: env) with ((pre ++ [kv]) ++ env)
      by (rewrite <- app_assoc; reflexivity).
    apply IH. apply dedup_inv_step. exact Hinv.
Qed.

Lemma dedupEnvCase_last_wins env k :
  with_key k (Env.dedupEnvCase ToLower ci env) =
  option_list (last (with_key k env)).
Proof.
  unfold Env.dedupEnvCase.
  pose proof (dedup_inv_foldl env [] ([], ∅) dedup_inv_nil) as (_ & _ & Hkey & _).
  apply Hkey.
Qed.

Lemma dedupEnvCase_keeps_plain env :
  without_key (Env.dedupEnvCase ToLower ci env) = without_key env.
Proof.
  unfold Env.dedupEnvCase.
  pose proof (dedup_inv_foldl env [] ([], ∅) dedup_inv_nil) as (_ & _ & _ & Hno).
  apply Hno.
Qed.

End EnvFacts.

Lemma has_systemroot_spec EqualFold env :
  Env.has_systemroot EqualFold env =
  existsb (Env.key_folds_to EqualFold "SYSTEMROOT") env.
Proof.
  induction env as [|kv rest IH]; simpl; [reflexivity|].
  unfold Env.key_folds_to at 1.
  destruct (Env.Index kv "=" <? 0); simpl; [exact IH|].
  destruct (EqualFold _ _); simpl; [reflexivity | exact IH].
Qed.

(** C5: for the entries A=1, a=2, B=3 the environment that is forwarded
    ([dedupEnvCase] ignoring case, then [addCriticalEnv]) holds exactly one
    entry whose key folds to A, with value 2, exactly one for B, with value
    3, and a synthesized SYSTEMROOT entry; for every list and every key,
    [dedupEnvCase] keeps of the entries filed under that key exactly the last
    one; [addCriticalEnv] appends SYSTEMROOT exactly when no key folds to
    it. *)
Theorem env_merge_later_wins :
  (forall getenv : string -> string,
     let out := Env.addCriticalEnv Env.EqualFold_ascii getenv
                  (Env.dedupEnvCase Env.ToLower_ascii true
                     ["A=1"; "a=2"; "B=3"]) in
     out = ["a=2"; "B=3"; "SYSTEMROOT=" +:+ getenv "SYSTEMROOT"]
     /\ List.filter (Env.key_folds_to Env.EqualFold_ascii "A") out = ["a=2"]
     /\ Env.env_value "a=2" = "2"
     /\ List.filter (Env.key_folds_to Env.EqualFold_ascii "B") out = ["B=3"]
     /\ Env.env_value "B=3" = "3"
     /\ List.filter (Env.key_folds_to Env.EqualFold_ascii "SYSTEMROOT") out
        = ["SYSTEMROOT=" +:+ getenv "SYSTEMROOT"])
  /\ (forall (ToLower : string -> string) (env : list string) (k : string),
        Env.with_key ToLower true k (Env.dedupEnvCase ToLower true env) =
        option_list (last (Env.with_key ToLower true k env)))
  /\ (forall (EqualFold : string -> string -> bool) getenv (env : list string),
        Env.addCriticalEnv EqualFold getenv env =
        if existsb (Env.key_folds_to EqualFold "SYSTEMROOT") env then env
        else env ++ ["SYSTEMROOT=" +:+ getenv "SYSTEMROOT"]).
Proof.
  split; [|split].
  - intros getenv out.
    assert (Hout : out = ["a=2"; "B=3"; "SYSTEMROOT=" +:+ getenv "SYSTEMROOT"])
      by (subst out; vm_compute; reflexivity).
    rewrite Hout. clear Hout out.
    generalize (getenv "SYSTEMROOT"). intros v.
    repeat split; destruct v; vm_compute; reflexivity.
  - intros ToLower env k. apply dedupEnvCase_last_wins.
  - intros EqualFold getenv env. unfold Env.addCriticalEnv.
    rewrite has_systemroot_spec. reflexivity.
Qed.

(** ** Histories *)

Section HistoryFacts.

Lemma count_app p (h1 h2 : history) :
  count p (h1 ++ h2) = (count p h1 + count p h2)%nat.
Proof. unfold count. rewrite List.filter_app, length_app. reflexivity. Qed.

Lemma file_closed_app h1 h2 f :
  file_closed (h1 ++ h2) f = file_closed h1 f || file_closed h2 f.
Proof. apply existsb_app. Qed.

Lemma console_closed_app h1 h2 hpc :
  console_closed (h1 ++ h2) hpc = console_closed h1 hpc || console_closed h2 hpc.
Proof. apply existsb_app. Qed.

Lemma drop_emitted (h evs : history) : drop (length h) (h ++ evs) = evs.
Proof. apply drop_app_length. Qed.

Lemma file_closed_mono h evs f :
  file_closed h f = true -> file_closed (h ++ evs) f = true.
Proof. intros H. rewrite file_closed_app, H. reflexivity. Qed.

Lemma console_closed_mono h evs hpc :
  console_closed h hpc = true -> console_closed (h ++ evs) hpc = true.
Proof. intros H. rewrite console_closed_app, H. reflexivity. Qed.

Lemma extends_trans (h : history) evs1 evs2 :
  exists evs, (h ++ evs1) ++ evs2 = h ++ evs.
Proof. exists (evs1 ++ evs2). rewrite app_assoc. reflexivity. Qed.

Lemma only_file_close_count evs :
  Forall only_file_close evs ->
  count is_destroy evs = 0%nat /\ count is_resize evs = 0%nat.
Proof.
  induction 1 as [|e evs He _ [IH1 IH2]]; [split; reflexivity|].
  unfold only_file_close in He. destruct e; try discriminate.
  unfold count in *. simpl. auto.
Qed.

Lemma not_probe_count evs : Forall not_probe evs -> count is_probe evs = 0%nat.
Proof.
  induction 1 as [|e evs He _ IH]; [reflexivity|].
  unfold count in *. simpl. rewrite He. exact IH.
Qed.

End HistoryFacts.

(** ** Computations: the events they add *)

Section Emits.

Context {P : platform}.

Lemma emits_ret {A} Q (a : A) : emits Q (ret a).
Proof. intros h. exists []. rewrite app_nil_r. split; [reflexivity|constructor]. Qed.

Lemma emits_bind {A B} Q (m : M A) (k : A -> M B) :
  emits Q m -> (forall a, emits Q (k a)) -> emits Q (bind m k).
Proof.
  intros Hm Hk h. unfold bind. destruct (Hm h) as (e1 & H1 & F1).
  destruct (m h) as [a h1]. simpl in H1. subst h1.
  destruct (Hk a (h ++ e1)) as (e2 & H2 & F2).
  exists (e1 ++ e2). rewrite H2, app_assoc. split; [reflexivity|].
  apply Forall_app. split; assumption.
Qed.

Lemma emits_weaken {A} (Q Q' : event -> Prop) (m : M A) :
  (forall e, Q e -> Q' e) -> emits Q m -> emits Q' m.
Proof.
  intros HQ Hm h. destruct (Hm h) as (evs & H & F). exists evs.
  split; [exact H|]. eapply Forall_impl; eauto.
Qed.

Lemma emits_one {A} Q (f : history -> A) (e : history -> event) :
  (forall h, Q (e h)) -> emits Q (fun h => (f h, h ++ [e h])).
Proof. intros HQ h. exists [e h]. split; [reflexivity|]. repeat constructor. apply HQ. Qed.

(** Every call of [m] adds one event, which satisfies [Q]. *)
Lemma emits_call {A} (Q : event -> Prop) (m : M A) :
  (forall h, exists e, snd (m h) = h ++ [e] /\ Q e) -> emits Q m.
Proof.
  intros Hm h. destruct (Hm h) as (e & He & HQ). exists [e].
  split; [exact He|]. repeat constructor. exact HQ.
Qed.

Lemma emits_any_one {A} (m : M A) :
  (forall h, exists e, snd (m h) = h ++ [e]) -> emits any_event m.
Proof.
  intros Hm h. destruct (Hm h) as [e He]. exists [e]. split; [exact He|].
  repeat constructor.
Qed.

Lemma File_Close_emits Q f :
  (forall g res, Q (EvFileClose g res)) -> emits Q (File_Close f).
Proof.
  intros HQ h. unfold File_Close. destruct f as [f|].
  - destruct (file_closed h f).
    + exists []. rewrite app_nil_r. split; [reflexivity|constructor].
    + exists [EvFileClose f (pl_FileClose h f)]. split; [reflexivity|].
      repeat constructor. apply HQ.
  - exists []. rewrite app_nil_r. split; [reflexivity|constructor].
Qed.

Lemma File_Close_closed f h : file_closed (snd (File_Close (Some f) h)) f = true.
Proof.
  unfold File_Close. destruct (file_closed h f) eqn:E; simpl; [exact E|].
  rewrite file_closed_app. simpl. rewrite Nat.eqb_refl, orb_true_r. reflexivity.
Qed.

Lemma File_Close_any f : emits any_event (File_Close f).
Proof. apply File_Close_emits. intros; exact I. Qed.

Lemma File_Close_result f h :
  exists evs, snd (File_Close (Some f) h) = h ++ evs
              /\ file_closed (h ++ evs) f = true.
Proof.
  destruct (File_Close_any (Some f) h) as (evs & Hev & _).
  exists evs. split; [exact Hev|]. rewrite <- Hev. apply File_Close_closed.
Qed.

Lemma Lib_emits fn args : emits any_event (Lib fn args).
Proof. apply emits_any_one. intros h. eexists. reflexivity. Qed.

Lemma os_Pipe_any : emits any_event os_Pipe.
Proof. apply emits_any_one. intros h. eexists. reflexivity. Qed.

Lemma OpenPty_any : emits any_event OpenPty.
Proof. apply emits_any_one. intros h. eexists. reflexivity. Qed.

Lemma Exec_Start_any : emits any_event Exec_Start.
Proof. apply emits_any_one. intros h. eexists. reflexivity. Qed.

Lemma RtlGetVersion_any : emits any_event RtlGetVersion.
Proof. apply emits_any_one. intros h. eexists. reflexivity. Qed.

Lemma Find_any proc : emits any_event (Find proc).
Proof. apply emits_any_one. intros h. eexists. reflexivity. Qed.

Lemma CreatePseudoConsole_any size hi ho fl :
  emits any_event (CreatePseudoConsole_Call size hi ho fl).
Proof.
  apply emits_any_one. intros h. unfold CreatePseudoConsole_Call.
  destruct (pl_CreatePseudoConsole h) as [[r1 err] hpc]. eexists. reflexivity.
Qed.

Lemma ClosePseudoConsole_any hpc : emits any_event (ClosePseudoConsole_Call hpc).
Proof.
  apply emits_any_one. intros h. unfold ClosePseudoConsole_Call.
  destruct (pl_ClosePseudoConsole h hpc) as [r1 err]. eexists. reflexivity.
Qed.

Lemma ResizePseudoConsole_any hpc size :
  emits any_event (ResizePseudoConsole_Call hpc size).
Proof.
  apply emits_any_one. intros h. unfold ResizePseudoConsole_Call.
  destruct (pl_ResizePseudoConsole h hpc size) as [r1 err]. eexists. reflexivity.
Qed.

Lemma windows_Resize_any hpc size :
  emits any_event (windows_ResizePseudoConsole hpc size).
Proof.
  apply emits_any_one. intros h.
  unfold windows_ResizePseudoConsole, ResizePseudoConsole_Call.
  destruct (pl_ResizePseudoConsole h hpc size) as [r1 err]. eexists. reflexivity.
Qed.

Lemma GetConsoleScreenBufferInfo_any hc :
  emits any_event (GetConsoleScreenBufferInfo hc).
Proof. apply emits_any_one. intros h. eexists. reflexivity. Qed.

Lemma UpdateAttr_any hpc : emits any_event (UpdateAttr hpc).
Proof. apply emits_any_one. intros h. eexists. reflexivity. Qed.

Lemma CreateProcess_any u env : emits any_event (CreateProcess u env).
Proof. apply emits_any_one. intros h. eexists. reflexivity. Qed.

Lemma CloseHandles_any pid : emits any_event (CloseHandles pid).
Proof. apply emits_any_one. intros h. eexists. reflexivity. Qed.

Lemma execEnvDefault_any : emits any_event execEnvDefault.
Proof. apply emits_any_one. intros h. eexists. reflexivity. Qed.

Lemma FindProcess_any pid : emits any_event (FindProcess pid).
Proof. apply emits_any_one. intros h. eexists. reflexivity. Qed.

Lemma Proc_Wait_any pid : emits any_event (Proc_Wait pid).
Proof. apply emits_any_one. intros h. eexists. reflexivity. Qed.

Lemma Proc_Kill_any pid : emits any_event (Proc_Kill pid).
Proof. apply emits_any_one. intros h. eexists. reflexivity. Qed.

Lemma go_any t : emits any_event (go t).
Proof. apply emits_any_one. intros h. eexists. reflexivity. Qed.

End Emits.

Create HintDb emits.

#[export] Hint Resolve emits_ret Lib_emits File_Close_any os_Pipe_any
  OpenPty_any Exec_Start_any RtlGetVersion_any Find_any
  CreatePseudoConsole_any ClosePseudoConsole_any ResizePseudoConsole_any
  windows_Resize_any GetConsoleScreenBufferInfo_any UpdateAttr_any
  CreateProcess_any CloseHandles_any execEnvDefault_any FindProcess_any
  Proc_Wait_any Proc_Kill_any go_any : emits.

(** A computation built from the calls above only adds events. *)
Ltac emits_any :=
  repeat first
    [ progress auto with emits
    | apply emits_bind; [|intros]
    | match goal with
      | |- emits _ (match ?x with _ => _ end) => destruct x
      | |- emits _ (if ?b then _ else _) => destruct b
      | |- emits _ (let (_, _) := ?x in _) => destruct x
      end ].

(** [emits Q m] for [m] built from platform calls, [tac] proving [Q] of each
    event. *)
Ltac emits_with tac :=
  repeat first
    [ apply emits_ret
    | apply emits_bind; [|intros]
    | apply File_Close_emits; intros; tac
    | match goal with
      | |- emits _ (match ?x with _ => _ end) => destruct x
      | |- emits _ (if ?b then _ else _) => destruct b
      | |- emits _ (let (_, _) := ?x in _) => destruct x
      end
    | apply emits_call; intros ?;
      unfold os_Pipe, RtlGetVersion, Find, CreatePseudoConsole_Call,
        ClosePseudoConsole_Call, ResizePseudoConsole_Call,
        GetConsoleScreenBufferInfo, Lib, UpdateAttr, CreateProcess,
        CloseHandles, FindProcess, Proc_Wait, Proc_Kill, go;
      repeat match goal with
        | |- context [let (_, _) := ?x in _] => destruct x
        end;
      eexists; split; [reflexivity|tac] ].

(** ** Computations: postconditions *)

Section Post.

Context {P : platform}.

Lemma post_ret {A} (a : A) h (Q : A -> history -> Prop) :
  Q a h -> post (ret a) h Q.
Proof. intros H. exact H. Qed.

Lemma post_bind {A B} (m : M A) (k : A -> M B) h (Q : B -> history -> Prop) :
  post m h (fun a h' => post (k a) h' Q) -> post (bind m k) h Q.
Proof. unfold post, bind. destruct (m h) as [a h']. simpl. auto. Qed.

Lemma post_emits {A} Q0 (m : M A) h (Q : A -> history -> Prop) :
  emits Q0 m -> (forall a evs, Forall Q0 evs -> Q a (h ++ evs)) -> post m h Q.
Proof.
  intros Hm HQ. unfold post. destruct (Hm h) as (evs & Hev & Hall).
  rewrite Hev. apply HQ. exact Hall.
Qed.

Lemma post_File_Close f h (Q : option error -> history -> Prop) :
  (forall e evs, file_closed (h ++ evs) f = true -> Q e (h ++ evs)) ->
  post (File_Close (Some f)) h Q.
Proof.
  intros HQ. unfold post. destruct (File_Close_result f h) as (evs & Hev & Hc).
  rewrite Hev. apply HQ. exact Hc.
Qed.

Lemma post_os_Pipe h (Q : (fd * fd) + error -> history -> Prop) :
  (forall res evs, Q res (h ++ evs)) -> post os_Pipe h Q.
Proof. intros HQ. unfold post, os_Pipe. simpl. apply HQ. Qed.

End Post.

(** ** The mutex-guarded pair: Close, the teardown and the resize *)

Section ConPtyCalls.

Context {P : platform}.
Import ConPty.

Lemma closeConsoleNoLock_eq p h :
  closeConsoleNoLock p h =
  if console p =? InvalidHandle then (None, p, h)
  else
    let res := pl_ClosePseudoConsole h (console p) in
    let h' := h ++ [EvClosePseudoConsole (console p) (fst res) (snd res)] in
    if winerrorFailed (fst res)
    then (Some (ErrCode "close pseudo console" (fst res) (snd res)), p, h')
    else (None, set_console p InvalidHandle, h').
Proof.
  unfold closeConsoleNoLock, bind, ret, ClosePseudoConsole_Call.
  destruct (console p =? InvalidHandle); simpl; [reflexivity|].
  destruct (pl_ClosePseudoConsole h (console p)) as [r1 err]; simpl.
  destruct (winerrorFailed r1); reflexivity.
Qed.

Lemma close_pipes_emits p : emits only_file_close (close_pipes p).
Proof.
  unfold close_pipes.
  repeat (apply emits_bind; [|intros]);
    repeat match goal with
    | |- emits _ (match ?x with _ => _ end) => destruct x
    end;
    try apply emits_ret; apply File_Close_emits; reflexivity.
Qed.

Lemma Close_eq p h :
  Close p h =
  if closed p then (None, p, h)
  else
    match closeConsoleNoLock p h with
    | (Some e, p', h') => (Some e, p', h')
    | (None, p', h') =>
        (None, set_closed p' true, snd (close_pipes (set_closed p' true) h'))
    end.
Proof.
  unfold Close, bind, ret. destruct (closed p); [reflexivity|].
  destruct (closeConsoleNoLock p h) as [[[e|] p'] h']; [reflexivity|].
  destruct (close_pipes (set_closed p' true) h'); reflexivity.
Qed.

Lemma Close_cases p h :
  (closed p = true /\ Close p h = (None, p, h))
  \/ (closed p = false /\ exists e p' h',
        closeConsoleNoLock p h = (Some e, p', h') /\ Close p h = (Some e, p', h'))
  \/ (closed p = false /\ exists p' h' evs,
        closeConsoleNoLock p h = (None, p', h')
        /\ Close p h = (None, set_closed p' true, h' ++ evs)
        /\ Forall only_file_close evs).
Proof.
  rewrite Close_eq. destruct (closed p) eqn:Hc; [left; auto|right].
  destruct (closeConsoleNoLock p h) as [[[e|] p'] h'] eqn:Hcc.
  - left. split; [reflexivity|]. exists e, p', h'. split; reflexivity.
  - right. split; [reflexivity|].
    destruct (close_pipes_emits (set_closed p' true) h') as (evs & Hev & Hall).
    exists p', h', evs. split; [reflexivity|]. split; [|exact Hall].
    rewrite Hev. reflexivity.
Qed.

Lemma Close_success_closed p h :
  fst (fst (Close p h)) = None -> closed (snd (fst (Close p h))) = true.
Proof.
  destruct (Close_cases p h) as [[Hc Heq]|[(Hc & e & p' & h' & Hcc & Heq)|(Hc & p' & h' & evs & Hcc & Heq & Hall)]];
    rewrite Heq; simpl; auto; discriminate.
Qed.

(** *** One destroy call *)

(** One call on a host on which destroy succeeds. *)
Lemma run_call_phase c p h n :
  destroy_succeeds -> destroyed_once p n ->
  exists e p' evs,
    run_call c p h = (e, p', h ++ evs)
    /\ destroyed_once p' (n + count is_destroy evs)
    /\ (closed p = true -> closed p' = true)
    /\ (c = CallClose -> e = None /\ closed p' = true)
    /\ (c = CallClose -> closed p = true -> p' = p /\ evs = []).
Proof.
  intros Hok Hph. destruct c; simpl.
  - (* Close *)
    destruct (Close_cases p h) as [[Hc Heq]|[(Hc & e & p' & h' & Hcc & Heq)|(Hc & p' & h' & evs & Hcc & Heq & Hall)]].
    + exists None, p, []. rewrite app_nil_r. unfold count. simpl. rewrite Nat.add_0_r.
      repeat split; auto.
    + exfalso. rewrite closeConsoleNoLock_eq in Hcc.
      destruct (console p =? InvalidHandle); [discriminate|]. simpl in Hcc.
      rewrite Hok in Hcc. discriminate.
    + rewrite closeConsoleNoLock_eq in Hcc.
      destruct (only_file_close_count _ Hall) as [Hd _].
      destruct (console p =? InvalidHandle) eqn:Hinv.
      * injection Hcc as <- <-. apply Z.eqb_eq in Hinv.
        exists None, (set_closed p true), evs. rewrite Heq, Hd, Nat.add_0_r.
        repeat split; auto; try congruence.
        destruct Hph as [[[_ Hne] _]|[_ ->]]; [contradiction|].
        right. split; [exact Hinv|reflexivity].
      * simpl in Hcc. rewrite Hok in Hcc. injection Hcc as <- <-.
        apply Z.eqb_neq in Hinv.
        exists None, (set_closed (set_console p InvalidHandle) true),
          ([EvClosePseudoConsole (console p) (fst (pl_ClosePseudoConsole h (console p)))
              (snd (pl_ClosePseudoConsole h (console p)))] ++ evs).
        rewrite Heq, <- app_assoc, count_app, Hd.
        repeat split; auto; try congruence.
        destruct Hph as [[_ ->]|[Hi _]]; [|contradiction].
        right. split; reflexivity.
  - (* Setsize *)
    unfold setsize, bind, ret, ResizePseudoConsole_Call.
    destruct (closed p || (console p =? InvalidHandle)).
    + exists (Some ErrClosed), p, []. rewrite app_nil_r. unfold count; simpl.
      rewrite Nat.add_0_r. repeat split; auto; discriminate.
    + destruct (pl_ResizePseudoConsole _ _ _) as [r1 err].
      destruct (negb _); eexists _, p, [_]; (split; [reflexivity|]);
        unfold count; simpl; rewrite Nat.add_0_r; repeat split; auto; discriminate.
  - (* GetsizeFull *)
    unfold getsizeFull, bind, ret, GetConsoleScreenBufferInfo.
    destruct (closed p || (console p =? InvalidHandle)).
    + exists (Some ErrClosed), p, []. rewrite app_nil_r. unfold count; simpl.
      rewrite Nat.add_0_r. repeat split; auto; discriminate.
    + destruct (pl_GetConsoleScreenBufferInfo _ _); eexists _, p, [_];
        (split; [reflexivity|]);
        unfold count; simpl; rewrite Nat.add_0_r; repeat split; auto; discriminate.
  - (* Teardown *)
    unfold monitor_teardown. rewrite closeConsoleNoLock_eq.
    destruct (console p =? InvalidHandle) eqn:Hinv.
    + exists None, p, []. rewrite app_nil_r. unfold count; simpl.
      rewrite Nat.add_0_r. repeat split; auto; discriminate.
    + simpl. rewrite Hok. apply Z.eqb_neq in Hinv.
      eexists None, _, [_]. split; [reflexivity|].
      unfold count; simpl. repeat split; auto; try discriminate.
      destruct Hph as [[_ ->]|[Hi _]]; [|contradiction].
      right. split; reflexivity.
Qed.

Lemma run_calls_phase cs p h n :
  destroy_succeeds -> destroyed_once p n ->
  exists errs p' evs,
    run_calls cs p h = (errs, p', h ++ evs)
    /\ destroyed_once p' (n + count is_destroy evs)
    /\ (closed p = true -> closed p' = true).
Proof.
  intros Hok. revert p h n. induction cs as [|c cs IH]; intros p h n Hph.
  - exists [], p, []. rewrite app_nil_r. unfold count; simpl. rewrite Nat.add_0_r.
    repeat split; auto.
  - destruct (run_call_phase c p h n Hok Hph) as (e & p1 & evs1 & H1 & Hph1 & Hc1 & _).
    destruct (IH p1 (h ++ evs1) _ Hph1) as (errs & p2 & evs2 & H2 & Hph2 & Hc2).
    exists (e :: errs), p2, (evs1 ++ evs2).
    simpl. unfold bind at 1. rewrite H1. unfold bind at 1. rewrite H2.
    rewrite app_assoc. split; [reflexivity|].
    rewrite count_app, Nat.add_assoc. split; auto.
Qed.

(** *** Resizing a pair that is shut *)

Lemma setsize_shut p size h :
  is_shut p -> setsize p size h = (Some ErrClosed, h).
Proof.
  intros [Hc|Hi]; unfold setsize.
  - rewrite Hc. reflexivity.
  - rewrite Hi, Z.eqb_refl, orb_true_r. reflexivity.
Qed.

Lemma getsizeFull_shut p h :
  is_shut p -> getsizeFull p h = (None, Some ErrClosed, h).
Proof.
  intros [Hc|Hi]; unfold getsizeFull.
  - rewrite Hc. reflexivity.
  - rewrite Hi, Z.eqb_refl, orb_true_r. reflexivity.
Qed.

Lemma run_call_shut c p h :
  is_shut p ->
  exists e p' evs,
    run_call c p h = (e, p', h ++ evs)
    /\ is_shut p'
    /\ count is_resize evs = 0%nat
    /\ (forall sz, c = CallSetsize sz -> e = Some ErrClosed).
Proof.
  intros Hs. destruct c; simpl.
  - destruct (Close_cases p h) as [[Hc Heq]|[(Hc & e & p' & h' & Hcc & Heq)|(Hc & p' & h' & evs & Hcc & Heq & Hall)]].
    + exists None, p, []. rewrite app_nil_r. repeat split; auto; discriminate.
    + destruct Hs as [Hs|Hs]; [congruence|].
      rewrite closeConsoleNoLock_eq, Hs, Z.eqb_refl in Hcc. discriminate.
    + destruct Hs as [Hs|Hs]; [congruence|].
      rewrite closeConsoleNoLock_eq, Hs, Z.eqb_refl in Hcc. injection Hcc as <- <-.
      exists None, (set_closed p true), evs.
      destruct (only_file_close_count _ Hall) as [_ Hr].
      repeat split; auto; try discriminate. left. reflexivity.
  - unfold bind, ret. rewrite (setsize_shut p size h Hs).
    exists (Some ErrClosed), p, []. rewrite app_nil_r. repeat split; auto.
  - unfold bind, ret. rewrite (getsizeFull_shut p h Hs).
    exists (Some ErrClosed), p, []. rewrite app_nil_r. repeat split; auto; discriminate.
  - unfold monitor_teardown. rewrite closeConsoleNoLock_eq.
    destruct (console p =? InvalidHandle) eqn:Hinv.
    + exists None, p, []. rewrite app_nil_r. repeat split; auto; discriminate.
    + simpl. destruct Hs as [Hs|Hs]; [|rewrite Hs, Z.eqb_refl in Hinv; discriminate].
      destruct (winerrorFailed _); eexists _, _, [_]; (split; [reflexivity|]);
        repeat split; auto; try discriminate; left; exact Hs.
Qed.

Lemma run_calls_shut cs p h :
  is_shut p ->
  exists errs p' evs,
    run_calls cs p h = (errs, p', h ++ evs)
    /\ is_shut p'
    /\ count is_resize evs = 0%nat
    /\ (forall i sz, cs !! i = Some (CallSetsize sz) ->
        errs !! i = Some (Some ErrClosed)).
Proof.
  revert p h. induction cs as [|c cs IH]; intros p h Hs.
  - exists [], p, []. rewrite app_nil_r. repeat split; auto.
    intros i sz Hi. rewrite lookup_nil in Hi. discriminate.
  - destruct (run_call_shut c p h Hs) as (e & p1 & evs1 & H1 & Hs1 & Hr1 & He1).
    destruct (IH p1 (h ++ evs1) Hs1) as (errs & p2 & evs2 & H2 & Hs2 & Hr2 & He2).
    exists (e :: errs), p2, (evs1 ++ evs2).
    simpl. unfold bind at 1. rewrite H1. unfold bind at 1. rewrite H2.
    rewrite app_assoc. split; [reflexivity|]. split; [exact Hs2|].
    rewrite count_app, Hr1, Hr2. split; [reflexivity|].
    intros [|i] sz Hi; simpl in *.
    + injection Hi as ->. rewrite (He1 sz eq_refl). reflexivity.
    + eapply He2; eauto.
Qed.

(** *** No resize after a destroy *)

Lemma gone_after_app gone evs1 evs2 :
  gone_after gone (evs1 ++ evs2) = gone_after (gone_after gone evs1) evs2.
Proof. unfold gone_after. apply foldl_app. Qed.

Lemma resize_guarded_app gone evs1 evs2 :
  resize_guarded gone (evs1 ++ evs2) =
  resize_guarded gone evs1 && resize_guarded (gone_after gone evs1) evs2.
Proof.
  revert gone. induction evs1 as [|e evs1 IH]; intros gone; simpl; [reflexivity|].
  rewrite IH, andb_assoc. reflexivity.
Qed.

Lemma only_file_close_guarded gone evs :
  Forall only_file_close evs ->
  resize_guarded gone evs = true /\ gone_after gone evs = gone.
Proof.
  induction 1 as [|e evs He _ [IH1 IH2]]; [split; reflexivity|].
  unfold only_file_close in He. destruct e; try discriminate.
  simpl. split; [exact IH1|exact IH2].
Qed.

Lemma run_call_guarded c p h gone :
  fresh_handle p gone ->
  exists e p' evs,
    run_call c p h = (e, p', h ++ evs)
    /\ resize_guarded gone evs = true
    /\ fresh_handle p' (gone_after gone evs).
Proof.
  intros Hf. destruct c; simpl.
  - destruct (Close_cases p h) as [[Hc Heq]|[(Hc & e & p' & h' & Hcc & Heq)|(Hc & p' & h' & evs & Hcc & Heq & Hall)]].
    + exists None, p, []. rewrite app_nil_r. repeat split; auto.
    + rewrite closeConsoleNoLock_eq in Hcc.
      destruct (console p =? InvalidHandle); [discriminate|]. simpl in Hcc.
      destruct (winerrorFailed _) eqn:Hw; [|discriminate].
      injection Hcc as <- <- <-. eexists _, p, [_]. split; [exact Heq|].
      unfold gone_after. simpl. rewrite Hw. split; [reflexivity|exact Hf].
    + rewrite closeConsoleNoLock_eq in Hcc.
      destruct (console p =? InvalidHandle) eqn:Hinv.
      * injection Hcc as <- <-. exists None, (set_closed p true), evs.
        destruct (only_file_close_guarded gone _ Hall) as [Hg Hgo].
        rewrite Hgo. repeat split; auto.
      * simpl in Hcc. destruct (winerrorFailed _) eqn:Hw; [discriminate|].
        injection Hcc as <- <-. eexists None, _, (_ :: evs).
        split; [rewrite Heq, <- app_assoc; reflexivity|].
        destruct (only_file_close_guarded
                    (console p :: gone) _ Hall) as [Hg Hgo].
        simpl. unfold gone_after at 1. simpl. rewrite Hw.
        split; [exact Hg|]. intros Hne. simpl in Hne. contradiction.
  - unfold setsize, bind, ret, ResizePseudoConsole_Call.
    destruct (closed p || (console p =? InvalidHandle)) eqn:Hg.
    + exists (Some ErrClosed), p, []. rewrite app_nil_r. repeat split; auto.
    + apply orb_false_iff in Hg. destruct Hg as [_ Hinv]. apply Z.eqb_neq in Hinv.
      destruct (pl_ResizePseudoConsole _ _ _) as [r1 err].
      destruct (negb _); eexists _, p, [_]; (split; [reflexivity|]);
        simpl; rewrite (Hf Hinv); (split; [reflexivity|exact Hf]).
  - unfold getsizeFull, bind, ret, GetConsoleScreenBufferInfo.
    destruct (closed p || (console p =? InvalidHandle)).
    + exists (Some ErrClosed), p, []. rewrite app_nil_r. repeat split; auto.
    + destruct (pl_GetConsoleScreenBufferInfo _ _); eexists _, p, [_];
        (split; [reflexivity|]); simpl; (split; [reflexivity|exact Hf]).
  - unfold monitor_teardown. rewrite closeConsoleNoLock_eq.
    destruct (console p =? InvalidHandle) eqn:Hinv.
    + exists None, p, []. rewrite app_nil_r. repeat split; auto.
    + simpl. destruct (winerrorFailed _) eqn:Hw.
      * eexists _, _, [_]. split; [reflexivity|].
        unfold gone_after; simpl; rewrite Hw.
        split; [reflexivity|exact Hf].
      * eexists _, _, [_]. split; [reflexivity|].
        unfold gone_after; simpl; rewrite Hw.
        split; [reflexivity|]. intros Hne. simpl in Hne. contradiction.
Qed.

Lemma run_calls_guarded cs p h gone :
  fresh_handle p gone ->
  exists errs p' evs,
    run_calls cs p h = (errs, p', h ++ evs)
    /\ resize_guarded gone evs = true.
Proof.
  revert p h gone. induction cs as [|c cs IH]; intros p h gone Hf.
  - exists [], p, []. rewrite app_nil_r. split; reflexivity.
  - destruct (run_call_guarded c p h gone Hf) as (e & p1 & evs1 & H1 & Hg1 & Hf1).
    destruct (IH p1 (h ++ evs1) _ Hf1) as (errs & p2 & evs2 & H2 & Hg2).
    exists (e :: errs), p2, (evs1 ++ evs2).
    simpl. unfold bind at 1. rewrite H1. unfold bind at 1. rewrite H2.
    rewrite app_assoc. split; [reflexivity|].
    rewrite resize_guarded_app, Hg1, Hg2. reflexivity.
Qed.

(** *** Goroutines on one pair

    Above, the calls are made one after the other.  Here the statements of
    calls made by several goroutines are interleaved by a scheduler, and the
    calls that take [closeMutex] come out serialised. *)

Lemma critical_closeConsoleNoLock k :
  (forall e, critical (k e)) -> critical (closeConsoleNoLock_t k).
Proof.
  intros Hk. unfold closeConsoleNoLock_t. constructor.
  - intros p h. destruct (negb (console p =? InvalidHandle)); simpl; [|apply Hk].
    constructor.
    + intros p1 h1. unfold bind, ClosePseudoConsole_Call.
      destruct (pl_ClosePseudoConsole h1 (console p1)) as [r1 err].
      destruct (winerrorFailed r1); simpl; [apply Hk|].
      constructor; intros p2 h2; simpl; [apply Hk|].
      exists []. rewrite app_nil_r. reflexivity.
    + intros p1 h1. unfold bind, ClosePseudoConsole_Call.
      destruct (pl_ClosePseudoConsole h1 (console p1)) as [r1 err].
      destruct (winerrorFailed r1); simpl; eauto.
  - intros p h. destruct (negb (console p =? InvalidHandle)); simpl;
      exists []; rewrite app_nil_r; reflexivity.
Qed.

Lemma step_extends {A} (m : M A) (t : A -> thread) (p : conPty) h :
  emits any_event m ->
  exists evs, snd ((let* a := m in ret (t a, p)) h) = h ++ evs.
Proof.
  intros Hm. unfold bind, ret. destruct (Hm h) as (evs & Hev & _).
  destruct (m h) as [a h']. simpl in *. eauto.
Qed.

Lemma fst_bind_ret {A} (m : M A) (t : thread) (p : conPty) h :
  fst (fst ((let* _ := m in ret (t, p)) h)) = t.
Proof. unfold bind, ret. destruct (m h). reflexivity. Qed.

Lemma critical_bind {A} (m : conPty -> M A) (k : thread) :
  (forall p, emits any_event (m p)) ->
  critical k ->
  critical (Step (fun p => let* _ := m p in ret (k, p))).
Proof.
  intros Hm Hk. constructor; intros p h.
  - rewrite fst_bind_ret. exact Hk.
  - apply (step_extends (m p) (fun _ => k)), Hm.
Qed.

Lemma critical_close_pipes k : critical k -> critical (close_pipes_t k).
Proof.
  intros Hk. unfold close_pipes_t.
  apply (critical_bind (fun p => match pw p with
                                 | Some f => File_Close (Some f)
                                 | None => ret None
                                 end));
    [intros p; destruct (pw p); auto with emits|].
  apply (critical_bind (fun p => File_Close (consoler p)));
    [intros p; apply File_Close_any|].
  apply (critical_bind (fun p => File_Close (consolew p)));
    [intros p; apply File_Close_any|].
  apply (critical_bind (fun p => match pr p with
                                 | Some f => File_Close (Some f)
                                 | None => ret None
                                 end));
    [intros p; destruct (pr p); auto with emits|].
  exact Hk.
Qed.

Lemma nil_extends (h : history) : exists evs, h = h ++ evs.
Proof. exists []. rewrite app_nil_r. reflexivity. Qed.

(** Every call is [Lock], then statements that end with [Unlock]. *)
Lemma thread_of_wrapped c : exists k, thread_of c = Lock k /\ critical k.
Proof.
  destruct c; simpl; eexists; (split; [reflexivity|]).
  - constructor; [|intros p h; destruct (closed p); apply nil_extends].
    intros p h. destruct (closed p); simpl; [constructor|].
    apply critical_closeConsoleNoLock. intros [e|]; [constructor|].
    constructor; [|intros; apply nil_extends].
    intros p1 h1. simpl. apply critical_close_pipes. constructor.
  - constructor;
      [|intros p h; destruct (closed p || _); apply nil_extends].
    intros p h. destruct (closed p || _); simpl; [constructor|].
    constructor.
    + intros p1 h1. unfold bind, ret, ResizePseudoConsole_Call.
      destruct (pl_ResizePseudoConsole _ _ _). simpl. constructor.
    + intros p1 h1. unfold bind, ret, ResizePseudoConsole_Call.
      destruct (pl_ResizePseudoConsole _ _ _). simpl. eauto.
  - constructor;
      [|intros p h; destruct (closed p || _); apply nil_extends].
    intros p h. destruct (closed p || _); simpl; [constructor|].
    constructor.
    + intros p1 h1. unfold bind, ret, GetConsoleScreenBufferInfo. simpl.
      constructor.
    + intros p1 h1. unfold bind, ret, GetConsoleScreenBufferInfo. simpl. eauto.
  - apply critical_closeConsoleNoLock. intros e. constructor.
Qed.

Lemma finish_closeConsoleNoLock k p h :
  finish (closeConsoleNoLock_t k) p h =
  let '(e, p', h') := closeConsoleNoLock p h in finish (k e) p' h'.
Proof.
  rewrite closeConsoleNoLock_eq. unfold closeConsoleNoLock_t. simpl.
  destruct (console p =? InvalidHandle); simpl; [reflexivity|].
  unfold bind, ret, ClosePseudoConsole_Call.
  destruct (pl_ClosePseudoConsole h (console p)) as [r1 err]. simpl.
  destruct (winerrorFailed r1); reflexivity.
Qed.

Lemma finish_bind {A} (m : conPty -> M A) k p h :
  finish (Step (fun p => let* _ := m p in ret (k, p))) p h =
  finish k p (snd (m p h)).
Proof. simpl. unfold bind, ret. destruct (m p h). reflexivity. Qed.

Lemma finish_close_pipes k p h :
  finish (close_pipes_t k) p h = finish k p (snd (close_pipes p h)).
Proof.
  unfold close_pipes_t.
  rewrite (finish_bind (fun p => match pw p with
                                 | Some f => File_Close (Some f)
                                 | None => ret None
                                 end)).
  rewrite (finish_bind (fun p => File_Close (consoler p))).
  rewrite (finish_bind (fun p => File_Close (consolew p))).
  rewrite (finish_bind (fun p => match pr p with
                                 | Some f => File_Close (Some f)
                                 | None => ret None
                                 end)).
  f_equal. unfold close_pipes, bind, ret.
  repeat match goal with
  | |- context [let (_, _) := ?x in _] => destruct x; simpl
  end.
  reflexivity.
Qed.

(** A goroutine run alone does what the call does. *)
Lemma finish_thread_of c p h : finish (thread_of c) p h = run_call c p h.
Proof.
  destruct c; cbn [thread_of run_call].
  - rewrite Close_eq. unfold Close_t. cbn [finish]. unfold ret.
    destruct (closed p); [reflexivity|].
    rewrite finish_closeConsoleNoLock.
    destruct (closeConsoleNoLock p h) as [[[e|] p'] h']; [reflexivity|].
    cbn [finish]. unfold ret. rewrite finish_close_pipes. reflexivity.
  - unfold setsize_t, Setsize, setsize, bind, ret. cbn [finish].
    destruct (closed p || _); [reflexivity|].
    cbn [finish]. unfold bind, ret.
    destruct (ResizePseudoConsole_Call _ _ h) as [[r1 err] h'].
    destruct (negb _); reflexivity.
  - unfold getsizeFull_t, GetsizeFull, getsizeFull, bind, ret. cbn [finish].
    destruct (closed p || _); [reflexivity|].
    cbn [finish]. unfold bind, ret.
    destruct (GetConsoleScreenBufferInfo _ h) as [[win|e] h']; reflexivity.
  - unfold teardown_t, monitor_teardown. cbn [finish].
    rewrite finish_closeConsoleNoLock.
    destruct (closeConsoleNoLock p h) as [[e p'] h']. reflexivity.
Qed.

Lemma finish_extends t :
  critical t -> forall p h, exists evs, snd (finish t p h) = h ++ evs.
Proof.
  induction 1 as [res|f Hc IH Hext]; intros p h; simpl.
  - apply nil_extends.
  - destruct (Hext p h) as [evs1 Hev1]. specialize (IH p h).
    destruct (f p h) as [[t' p'] h']. simpl in *. subst h'.
    destruct (IH p' (h ++ evs1)) as [evs2 Hev2]. rewrite Hev2.
    rewrite <- app_assoc. eauto.
Qed.

Lemma run_calls_app cs1 cs2 p h :
  run_calls (cs1 ++ cs2) p h =
  let '(errs1, p1, h1) := run_calls cs1 p h in
  let '(errs2, p2, h2) := run_calls cs2 p1 h1 in
  (errs1 ++ errs2, p2, h2).
Proof.
  revert p h. induction cs1 as [|c cs1 IH]; intros p h; cbn [run_calls app].
  - unfold ret. destruct (run_calls cs2 p h) as [[errs2 p2] h2]. reflexivity.
  - unfold bind. destruct (run_call c p h) as [[e p1] h1].
    rewrite IH.
    destruct (run_calls cs1 p1 h1) as [[errs1 p2] h2].
    unfold ret. cbn iota beta.
    destruct (run_calls cs2 p2 h2) as [[errs2 p3] h3]. reflexivity.
Qed.

Lemma run_calls_snoc cs c p h errs p1 h1 :
  run_calls cs p h = (errs, p1, h1) ->
  run_calls (cs ++ [c]) p h =
  let '(e, p2, h2) := run_call c p1 h1 in (errs ++ [e], p2, h2).
Proof.
  intros Hr. rewrite run_calls_app, Hr. cbn [run_calls]. unfold bind, ret.
  destruct (run_call c p1 h1) as [[e p2] h2]. reflexivity.
Qed.

Lemma run_calls_length cs : forall p h,
  length (fst (fst (run_calls cs p h))) = length cs.
Proof.
  induction cs as [|c cs IH]; intros p h; cbn [run_calls]; [reflexivity|].
  unfold bind. destruct (run_call c p h) as [[e p1] h1].
  specialize (IH p1 h1). destruct (run_calls cs p1 h1) as [[errs p2] h2].
  simpl in *. rewrite IH. reflexivity.
Qed.

Lemma run_calls_extends order p h :
  exists evs, snd (run_calls order p h) = h ++ evs.
Proof.
  destruct (run_calls_guarded order p h []) as (errs & p' & evs & H1 & _).
  { intros _. reflexivity. }
  rewrite H1. eauto.
Qed.

(** A goroutine that is not inside a call waits for the mutex or has
    returned. *)
Lemma settled_cases cs idx errs j t :
  settled cs idx errs j t ->
  (exists cj k, (j ∉ idx) /\ cs !! j = Some cj /\ t = Lock k /\ critical k
                /\ thread_of cj = Lock k)
  \/ exists res, t = Done res.
Proof.
  intros [(Hj & cj & Hcj & ->)|(k & res & _ & _ & ->)]; [left|right; eauto].
  destruct (thread_of_wrapped cj) as (k & Hk1 & Hk). exists cj, k. auto.
Qed.

Lemma settled_snoc cs idx errs i res j t :
  length errs = length idx -> j <> i ->
  settled cs idx errs j t -> settled cs (idx ++ [i]) (errs ++ [res]) j t.
Proof.
  intros Hlen Hne [(Hj & cj & Hcj & ->)|(k & r & Hk & Hr & ->)].
  - left. split; [|eauto]. rewrite elem_of_app, list_elem_of_singleton. tauto.
  - right. exists k, r. split; [apply lookup_app_l_Some; exact Hk|].
    split; [apply lookup_app_l_Some; exact Hr|reflexivity].
Qed.

(** A goroutine that has returned, or that waits for the mutex, does not
    move. *)
Lemma step_waits c h i :
  (forall t, pool c !! i = Some t ->
     (exists res, t = Done res)
     \/ (exists k, t = Lock k) /\ mutex c <> None) ->
  step i c h = (c, h).
Proof.
  intros Hi. unfold step. destruct (pool c !! i) as [t|]; [|reflexivity].
  destruct (Hi t eq_refl) as [[res ->]|[[k ->] Hm]]; [reflexivity|].
  destruct (mutex c); [reflexivity|congruence].
Qed.

(** One step of any goroutine keeps the run serialised. *)
Lemma step_serialised cs p0 h0 idx c h i :
  serialised cs p0 h0 idx c h ->
  exists idx',
    serialised cs p0 h0 idx' (fst (step i c h)) (snd (step i c h)).
Proof.
  intros Hs. pose proof Hs as Hs0. unfold serialised in Hs.
  destruct Hs as (Hnd & order & errs & p1 & h1 & Hord & Hr & Hs).
  assert (Hlen : length errs = length idx).
  { pose proof (run_calls_length order p0 h0) as Hl. rewrite Hr in Hl.
    simpl in Hl. rewrite Hl. symmetry. eapply Forall2_length; eauto. }
  destruct (mutex c) as [j|] eqn:Hm.
  - destruct Hs as (t & ci & Ht & Hc & Hci & Hfresh & Hf & [evs ->] & Hi).
    destruct (decide (i = j)) as [->|Hne].
    + unfold step. rewrite Ht. pose proof (lookup_lt_Some _ _ _ Ht) as Hlt.
      inversion Hc as [res Hres|f Hcf Hext Hres]; subst t.
      * (* Unlock: the call of goroutine [j] is over *)
        exists (idx ++ [j]). unfold serialised. cbn [fst snd mutex pair pool].
        split.
        { apply NoDup_app. split; [exact Hnd|].
          split; [|apply NoDup_singleton].
          intros x Hx Hx'. apply list_elem_of_singleton in Hx'. congruence. }
        exists (order ++ [ci]), (errs ++ [res]), (pair c), (h1 ++ evs).
        split; [apply Forall2_app; [exact Hord|repeat constructor; exact Hci]|].
        split; [rewrite (run_calls_snoc _ ci _ _ _ _ _ Hr), <- Hf; reflexivity|].
        split; [reflexivity|]. split; [reflexivity|].
        intros j' t' Hj'. destruct (decide (j = j')) as [->|Hne].
        -- rewrite list_lookup_insert_eq in Hj' by exact Hlt.
           injection Hj' as <-. right. exists (length idx), res.
           split; [apply list_lookup_middle; reflexivity|].
           split; [apply list_lookup_middle; symmetry; exact Hlen|reflexivity].
        -- rewrite list_lookup_insert_ne in Hj' by exact Hne.
           apply settled_snoc; [exact Hlen|congruence|].
           apply Hi; [congruence|exact Hj'].
      * (* one statement of the call *)
        exists idx. specialize (Hcf (pair c) (h1 ++ evs)).
        destruct (Hext (pair c) (h1 ++ evs)) as [evs' Hev'].
        cbn [finish] in Hf.
        destruct (f (pair c) (h1 ++ evs)) as [[t' p'] h'].
        unfold serialised. cbn [fst snd mutex pair pool] in *. rewrite Hm.
        split; [exact Hnd|]. exists order, errs, p1, h1.
        split; [exact Hord|]. split; [exact Hr|].
        exists t', ci.
        split; [apply list_lookup_insert_eq; exact Hlt|].
        split; [exact Hcf|]. split; [exact Hci|]. split; [exact Hfresh|].
        split; [exact Hf|].
        split; [exists (evs ++ evs'); rewrite Hev', app_assoc; reflexivity|].
        intros j' t'' Hne Hj'.
        rewrite list_lookup_insert_ne in Hj' by congruence.
        apply (Hi j' t''); assumption.
    + (* another goroutine holds the mutex *)
      rewrite step_waits; [exists idx; exact Hs0|].
      intros ti Hti.
      destruct (settled_cases _ _ _ _ _ (Hi i ti Hne Hti))
        as [(c1 & k & _ & _ & -> & _)|[res ->]]; [right|left]; eauto.
      split; [eauto|congruence].
  - destruct Hs as (Hp & Hh & Hset).
    destruct (pool c !! i) as [ti|] eqn:Hti.
    2:{ rewrite step_waits; [exists idx; exact Hs0|]. intros t Ht. congruence. }
    destruct (settled_cases _ _ _ _ _ (Hset i ti Hti))
      as [(c1 & k & Hfresh & Hci & -> & Hk & Hc1)|[res ->]].
    2:{ rewrite step_waits; [exists idx; exact Hs0|].
        intros t Ht. left. exists res. congruence. }
    (* Lock: the call of goroutine [i] begins *)
    exists idx. unfold step, serialised. rewrite Hti, Hm.
    cbn [fst snd mutex pair pool]. split; [exact Hnd|].
    exists order, errs, p1, h1. split; [exact Hord|]. split; [exact Hr|].
    exists k, c1.
    pose proof (lookup_lt_Some _ _ _ Hti) as Hlt.
    split; [apply list_lookup_insert_eq; exact Hlt|].
    split; [exact Hk|]. split; [exact Hci|]. split; [exact Hfresh|].
    split; [rewrite <- finish_thread_of, Hc1, Hp, Hh; reflexivity|].
    split; [subst h; apply nil_extends|].
    intros j' t' Hne Hj'.
    rewrite list_lookup_insert_ne in Hj' by congruence. eauto.
Qed.

Lemma run_sched_serialised cs sched : forall p0 h0 idx c h,
  serialised cs p0 h0 idx c h ->
  exists idx',
    serialised cs p0 h0 idx' (fst (run_sched sched c h))
      (snd (run_sched sched c h)).
Proof.
  induction sched as [|i sched IH]; intros p0 h0 idx c h Hs.
  - exists idx. exact Hs.
  - cbn [run_sched]. unfold bind.
    destruct (step_serialised cs p0 h0 idx c h i Hs) as [idx1 H1].
    destruct (step i c h) as [c1 h1]. apply (IH _ _ idx1). exact H1.
Qed.

Lemma spawn_serialised cs p h : serialised cs p h [] (spawn cs p) h.
Proof.
  unfold serialised, spawn. cbn [mutex pair pool].
  split; [constructor|]. exists [], [], p, h.
  split; [constructor|]. split; [reflexivity|].
  split; [reflexivity|]. split; [reflexivity|].
  intros j t Hj. rewrite list_lookup_fmap in Hj.
  destruct (cs !! j) as [c|] eqn:Hc; [|discriminate].
  injection Hj as <-. left. split; [apply not_elem_of_nil|eauto].
Qed.

(** However the scheduler interleaves goroutines that make the calls [cs]
    on one pair, each call being Close, Setsize, GetsizeFull or the
    Monitor's teardown, the run is serialised: the mutex makes each call's
    statements run as one, in the order in which the goroutines took it. *)
Lemma goroutines_serialised cs sched p h :
  exists idx,
    serialised cs p h idx (fst (run_sched sched (spawn cs p) h))
      (snd (run_sched sched (spawn cs p) h)).
Proof. apply (run_sched_serialised cs sched p h []), spawn_serialised. Qed.

(** What a serialised run has written is the beginning of what calls made
    one after the other write. *)
Lemma serialised_prefix cs p0 h0 idx c h :
  serialised cs p0 h0 idx c h ->
  exists order evs0 evs,
    h = h0 ++ evs0 /\ snd (run_calls order p0 h0) = h ++ evs.
Proof.
  intros (_ & order & errs & p1 & h1 & _ & Hr & Hs).
  destruct (run_calls_extends order p0 h0) as [evs0 Hev0].
  rewrite Hr in Hev0. simpl in Hev0. subst h1.
  destruct (mutex c) as [i|].
  - destruct Hs as (t & ci & _ & Hc & _ & _ & Hf & [evs1 ->] & _).
    destruct (finish_extends t Hc (pair c) ((h0 ++ evs0) ++ evs1)) as [evs Hev].
    exists (order ++ [ci]), (evs0 ++ evs1), evs.
    split; [symmetry; apply app_assoc|].
    rewrite (run_calls_snoc _ ci _ _ _ _ _ Hr), <- Hf.
    destruct (finish t (pair c) ((h0 ++ evs0) ++ evs1)) as [[e p2] h2]. exact Hev.
  - destruct Hs as (_ & -> & _).
    exists order, evs0, []. rewrite Hr, app_nil_r. auto.
Qed.

(** A goroutine that has returned has returned what its call returns among
    calls made one after the other, and what these wrote has been written. *)
Lemma serialised_returned cs p0 h0 idx c h j res cj :
  serialised cs p0 h0 idx c h ->
  pool c !! j = Some (Done res) -> cs !! j = Some cj ->
  exists order errs p1 evs1 evs2 k,
    run_calls order p0 h0 = (errs, p1, h0 ++ evs1)
    /\ h = (h0 ++ evs1) ++ evs2
    /\ order !! k = Some cj /\ errs !! k = Some res.
Proof.
  intros (_ & order & errs & p1 & h1 & Hord & Hr & Hs) Hj Hcj.
  destruct (run_calls_extends order p0 h0) as [evs1 Hev1].
  rewrite Hr in Hev1. simpl in Hev1. subst h1.
  assert (Hset : settled cs idx errs j (Done res)
                 /\ exists evs2, h = (h0 ++ evs1) ++ evs2).
  { destruct (mutex c) as [i|].
    - destruct Hs as (t & ci & Ht & Hc & _ & _ & _ & Hext & Hi).
      split; [|exact Hext]. apply Hi; [|exact Hj].
      intros ->. rewrite Ht in Hj. injection Hj as ->. inversion Hc.
    - destruct Hs as (_ & -> & Hi). split; [eauto|apply nil_extends]. }
  destruct Hset as [[(_ & c' & _ & Hc')|(k & r & Hk & Hrk & Hd)] [evs2 ->]].
  - destruct (thread_of_wrapped c') as (k & Hk & _). congruence.
  - injection Hd as <-.
    destruct (Forall2_lookup_l _ _ _ _ _ Hord Hk) as (ck & Hok & Hck).
    exists order, errs, p1, evs1, evs2, k.
    repeat split; auto. congruence.
Qed.

(** Under any schedule of such goroutines no resize call names a handle
    that a destroy call before it has destroyed. *)
Lemma goroutines_resize_guarded cs sched p h :
  resize_guarded []
    (drop (length h) (snd (run_sched sched (spawn cs p) h))) = true.
Proof.
  destruct (goroutines_serialised cs sched p h) as [idx Hs].
  destruct (serialised_prefix _ _ _ _ _ _ Hs) as (order & evs0 & evs & Hh & Hr).
  rewrite Hh, drop_emitted.
  destruct (run_calls_guarded order p h []) as (errs & p' & evsR & H1 & Hg).
  { intros _. reflexivity. }
  rewrite H1, Hh in Hr. simpl in Hr. rewrite <- app_assoc in Hr.
  apply app_inv_head in Hr. subst evsR.
  rewrite resize_guarded_app in Hg. apply andb_true_iff in Hg. apply Hg.
Qed.

(** Under any schedule of such goroutines on a pair as [openPty] returns
    it, on a host on which destroy does not fail, at most one destroy call
    is issued. *)
Lemma goroutines_one_destroy cs sched p h :
  destroy_succeeds -> is_open p ->
  (count is_destroy
     (drop (length h) (snd (run_sched sched (spawn cs p) h))) <= 1)%nat.
Proof.
  intros Hok Hopen.
  destruct (goroutines_serialised cs sched p h) as [idx Hs].
  destruct (serialised_prefix _ _ _ _ _ _ Hs) as (order & evs0 & evs & Hh & Hr).
  rewrite Hh, drop_emitted.
  assert (Hph : destroyed_once p 0) by (left; split; [exact Hopen|reflexivity]).
  destruct (run_calls_phase order p h 0 Hok Hph)
    as (errs & p' & evsR & H1 & Hph' & _).
  rewrite H1, Hh in Hr. simpl in Hr. rewrite <- app_assoc in Hr.
  apply app_inv_head in Hr. subst evsR.
  rewrite count_app in Hph'.
  destruct Hph' as [[_ Hn]|[_ Hn]]; simpl in Hn; lia.
Qed.

(** A Close or a teardown on a host on which destroy succeeds returns
    success, and one destroy call has been issued when it returns. *)
Lemma run_call_closes c p h n :
  destroy_succeeds -> destroyed_once p n ->
  c = CallClose \/ c = CallTeardown ->
  exists p' evs,
    run_call c p h = (None, p', h ++ evs)
    /\ (n + count is_destroy evs = 1)%nat.
Proof.
  intros Hok Hph [->| ->].
  - destruct (run_call_phase CallClose p h n Hok Hph)
      as (e & p' & evs & H1 & Hph' & _ & Hcl & _).
    destruct (Hcl eq_refl) as [-> Hclosed]. exists p', evs.
    split; [exact H1|].
    destruct Hph' as [[[Hc _] _]|[_ Hn]]; [congruence|exact Hn].
  - cbn [run_call]. unfold monitor_teardown. rewrite closeConsoleNoLock_eq.
    destruct (console p =? InvalidHandle) eqn:Hinv.
    + apply Z.eqb_eq in Hinv. exists p, []. rewrite app_nil_r.
      split; [reflexivity|].
      destruct Hph as [[[_ Hne] _]|[_ ->]]; [contradiction|reflexivity].
    + apply Z.eqb_neq in Hinv. cbn zeta. rewrite Hok.
      eexists _, [_]. split; [reflexivity|].
      destruct Hph as [[_ ->]|[Hi _]]; [reflexivity|contradiction].
Qed.

Lemma run_calls_closers cs : forall p h n,
  destroy_succeeds -> destroyed_once p n ->
  exists errs p' evs,
    run_calls cs p h = (errs, p', h ++ evs)
    /\ destroyed_once p' (n + count is_destroy evs)
    /\ forall k c, cs !! k = Some c -> c = CallClose \/ c = CallTeardown ->
         errs !! k = Some None /\ (n + count is_destroy evs = 1)%nat.
Proof.
  induction cs as [|c cs IH]; intros p h n Hok Hph.
  - exists [], p, []. rewrite app_nil_r. unfold count; simpl.
    rewrite Nat.add_0_r. split; [reflexivity|]. split; [exact Hph|].
    intros k c Hk. rewrite lookup_nil in Hk. discriminate.
  - destruct (run_call_phase c p h n Hok Hph)
      as (e & p1 & evs1 & H1 & Hph1 & _).
    destruct (IH p1 (h ++ evs1) _ Hok Hph1)
      as (errs & p2 & evs2 & H2 & Hph2 & Hall).
    exists (e :: errs), p2, (evs1 ++ evs2).
    cbn [run_calls]. unfold bind at 1. rewrite H1. unfold bind at 1.
    rewrite H2. rewrite app_assoc. split; [reflexivity|].
    rewrite count_app, Nat.add_assoc. split; [exact Hph2|].
    intros [|k] c' Hk Hc'; simpl in Hk.
    + injection Hk as ->.
      destruct (run_call_closes c' p h n Hok Hph Hc') as (p1' & evs1' & H1' & Hn).
      rewrite H1 in H1'. injection H1' as -> _ Hev.
      apply app_inv_head in Hev. subst evs1'.
      split; [reflexivity|].
      destruct Hph2 as [[_ Hz]|[_ Hz]]; lia.
    + apply (Hall k c'); assumption.
Qed.

(** Under any schedule, on a pair as [openPty] returns it and a host on
    which destroy does not fail: a goroutine that has returned from Close
    or from the teardown has returned success, and exactly one destroy call
    has been issued. *)
Lemma goroutines_close_once cs sched p h j res cj :
  destroy_succeeds -> is_open p ->
  pool (fst (run_sched sched (spawn cs p) h)) !! j = Some (Done res) ->
  cs !! j = Some cj -> cj = CallClose \/ cj = CallTeardown ->
  res = None
  /\ count is_destroy
       (drop (length h) (snd (run_sched sched (spawn cs p) h))) = 1%nat.
Proof.
  intros Hok Hopen Hj Hcj Hc.
  pose proof (goroutines_one_destroy cs sched p h Hok Hopen) as Hle.
  destruct (goroutines_serialised cs sched p h) as [idx Hs].
  destruct (serialised_returned _ _ _ _ _ _ _ _ _ Hs Hj Hcj)
    as (order & errs & p1 & evs1 & evs2 & k & Hr & Hh & Hk & Hres).
  assert (Hph : destroyed_once p 0) by (left; split; [exact Hopen|reflexivity]).
  destruct (run_calls_closers order p h 0 Hok Hph)
    as (errs' & p' & evs' & Hr' & _ & Hall).
  rewrite Hr in Hr'. injection Hr' as <- _ Hev. apply app_inv_head in Hev.
  subst evs'. destruct (Hall k cj Hk Hc) as [Hnone Hone].
  split; [congruence|].
  rewrite Hh, <- app_assoc, drop_emitted in *. rewrite count_app in *.
  simpl in Hone. lia.
Qed.

(** C1, amended: on a host on which destroy does not fail, take a pair as
    [openPty] returns it.  In sequence: with any calls (Close, Setsize,
    GetsizeFull, the Monitor's teardown) in any order around two calls of
    Close, the first Close returns success; the later Close returns success
    and changes neither the pair nor the history; and exactly one destroy
    call has been issued in all.  Concurrently: however the scheduler
    interleaves goroutines that make such calls, at most one destroy call is
    issued, and once a goroutine has returned from Close or from the
    teardown it has returned success and exactly one has been issued. *)
Theorem close_twice_one_destroy (cs1 cs2 : list call) (pty : conPty) (h : history) :
  destroy_succeeds -> is_open pty ->
  (let '(_, p1, h1) := run_calls cs1 pty h in
   let '(e1, p2, h2) := Close p1 h1 in
   let '(_, p3, h3) := run_calls cs2 p2 h2 in
   let '(e2, p4, h4) := Close p3 h3 in
   e1 = None /\ e2 = None /\ p4 = p3 /\ h4 = h3
   /\ count is_destroy (drop (length h) h4) = 1%nat)
  /\ (forall cs sched j res cj,
        let st := run_sched sched (spawn cs pty) h in
        (count is_destroy (drop (length h) (snd st)) <= 1)%nat
        /\ (pool (fst st) !! j = Some (Done res) -> cs !! j = Some cj ->
            cj = CallClose \/ cj = CallTeardown ->
            res = None
            /\ count is_destroy (drop (length h) (snd st)) = 1%nat)).
Proof.
  intros Hok Hopen. split.
  2:{ intros cs sched j res cj st. split.
      - apply goroutines_one_destroy; assumption.
      - intros Hj Hcj Hc. eapply goroutines_close_once; eauto. }
  assert (Hph : destroyed_once pty 0) by (left; split; [exact Hopen|reflexivity]).
  destruct (run_calls_phase cs1 pty h 0 Hok Hph) as (errs1 & p1 & evs1 & H1 & Hph1 & _).
  rewrite H1.
  destruct (run_call_phase CallClose p1 (h ++ evs1) _ Hok Hph1)
    as (e1 & p2 & evs2 & H2 & Hph2 & _ & Hcl & _).
  simpl in H2. rewrite H2. destruct (Hcl eq_refl) as [-> Hclosed2].
  destruct (run_calls_phase cs2 p2 ((h ++ evs1) ++ evs2) _ Hok Hph2)
    as (errs2 & p3 & evs3 & H3 & Hph3 & Hc3).
  rewrite H3.
  destruct (run_call_phase CallClose p3 (((h ++ evs1) ++ evs2) ++ evs3) _ Hok Hph3)
    as (e2 & p4 & evs4 & H4 & Hph4 & _ & Hcl4 & Hnoop).
  simpl in H4. rewrite H4. destruct (Hcl4 eq_refl) as [-> _].
  destruct (Hnoop eq_refl (Hc3 Hclosed2)) as [-> ->].
  rewrite app_nil_r. repeat split.
  rewrite <- !app_assoc, drop_emitted.
  destruct Hph3 as [[[Hc _] _]|[_ Hn]].
  - rewrite (Hc3 Hclosed2) in Hc. discriminate.
  - rewrite !count_app. simpl in Hn. lia.
Qed.

(** The calls that take [closeMutex] (C6, what holds of them): on a pair
    that is shut (Close has completed: [closed] is set, or
    the handle is invalid) Setsize returns [ErrClosed] and adds nothing to
    the history, directly and through the master [File]; the same holds for
    every Setsize among any later calls, none of which issues a resize; a
    Close that returns success leaves the pair shut; the read-locked
    Setsize answers [ErrClosed] on a handle that is 0; and in the history of
    any calls on any pair, made one after the other or by goroutines that
    the scheduler interleaves, no resize call names a handle that a destroy
    call before it has destroyed. *)
Theorem setsize_after_close (pty : conPty) (rw : Rw.conPty) (size : Winsize)
    (cs : list call) (h : history) :
  is_shut pty -> Rw.handle rw = 0 ->
  setsize pty size h = (Some ErrClosed, h)
  /\ Setsize (FileCon (ptyf pty)) size pty h = (Returns (Some ErrClosed), h)
  /\ (let '(errs, pty', h') := run_calls cs pty h in
      count is_resize (drop (length h) h') = 0%nat
      /\ is_shut pty'
      /\ forall i sz, cs !! i = Some (CallSetsize sz) ->
           errs !! i = Some (Some ErrClosed))
  /\ Rw.Setsize (Rw.FilePty rw) size h = (Some ErrClosed, h)
  /\ (forall p0 h0, fst (fst (Close p0 h0)) = None ->
        is_shut (snd (fst (Close p0 h0))))
  /\ (forall p0 cs0 h0,
        resize_guarded [] (drop (length h0) (snd (run_calls cs0 p0 h0))) = true)
  /\ (forall p0 cs0 sched h0,
        resize_guarded []
          (drop (length h0) (snd (run_sched sched (spawn cs0 p0) h0))) = true).
Proof.
  intros Hs Hrw. repeat split.
  - apply setsize_shut. exact Hs.
  - unfold Setsize. simpl. unfold bind, ret. rewrite (setsize_shut _ _ _ Hs).
    reflexivity.
  - destruct (run_calls_shut cs pty h Hs) as (errs & p' & evs & H1 & Hs' & Hr & He).
    rewrite H1, drop_emitted. auto.
  - unfold Rw.Setsize. rewrite Hrw. reflexivity.
  - intros p0 h0 Hok. left. apply Close_success_closed. exact Hok.
  - intros p0 cs0 h0.
    destruct (run_calls_guarded cs0 p0 h0 []) as (errs & p' & evs & H1 & Hg).
    { intros _. reflexivity. }
    rewrite H1. simpl. rewrite drop_emitted. exact Hg.
  - intros p0 cs0 sched h0. apply goroutines_resize_guarded.
Qed.

End ConPtyCalls.

(** C1 as stated fails: on a host whose destroy call answers a failure, two
    calls of Close in sequence issue two destroy calls, and the second Close
    returns an error. *)
Lemma close_twice_two_destroys :
  let '(errs, _, h) :=
    ConPty.run_calls (P := Sample.host_destroy_fails)
      [ConPty.CallClose; ConPty.CallClose] Sample.pair [] in
  count is_destroy h = 2%nat
  /\ errs !! 1%nat <> Some None.
Proof. vm_compute. split; [reflexivity|discriminate]. Qed.

Lemma close_twice_one_destroy_witness :
  ConPty.destroy_succeeds (P := Sample.host)
  /\ ConPty.is_open Sample.pair
  /\ (let '(_, p1, h1) :=
        ConPty.run_calls (P := Sample.host) [ConPty.CallSetsize Sample.size_24x80]
          Sample.pair [] in
      let '(e1, p2, h2) := ConPty.Close (P := Sample.host) p1 h1 in
      let '(_, p3, h3) :=
        ConPty.run_calls (P := Sample.host) [ConPty.CallTeardown] p2 h2 in
      let '(e2, p4, h4) := ConPty.Close (P := Sample.host) p3 h3 in
      e1 = None /\ e2 = None /\ p4 = p3 /\ h4 = h3
      /\ count is_destroy (drop (length ([] : history)) h4) = 1%nat)
  /\ (let st :=
        ConPty.run_sched [1; 0; 1; 1; 0; 1; 1; 0; 0; 0; 0; 0; 0; 0; 0; 0]%nat
          (ConPty.spawn (P := Sample.host)
             [ConPty.CallClose; ConPty.CallTeardown] Sample.pair) [] in
      ConPty.pool (fst st) !! 0%nat = Some (ConPty.Done None)
      /\ count is_destroy (drop (length ([] : history)) (snd st)) = 1%nat).
Proof.
  assert (Hok : ConPty.destroy_succeeds (P := Sample.host))
    by (intros h hpc; reflexivity).
  assert (Hopen : ConPty.is_open Sample.pair)
    by (split; [reflexivity|discriminate]).
  split; [exact Hok|]. split; [exact Hopen|].
  destruct (close_twice_one_destroy (P := Sample.host)
              [ConPty.CallSetsize Sample.size_24x80] [ConPty.CallTeardown]
              Sample.pair [] Hok Hopen) as [Hseq Hconc].
  split; [exact Hseq|].
  intros st. split; [vm_compute; reflexivity|].
  apply (Hconc [ConPty.CallClose; ConPty.CallTeardown]
           [1; 0; 1; 1; 0; 1; 1; 0; 0; 0; 0; 0; 0; 0; 0; 0]%nat
           0%nat None ConPty.CallClose).
  - vm_compute. reflexivity.
  - reflexivity.
  - left. reflexivity.
Defined.

Lemma setsize_after_close_witness :
  let st := ConPty.Close (P := Sample.host) Sample.pair [] in
  let pty := snd (fst st) in
  let h := snd st in
  let rw := {| Rw.handle := 0 |} in
  fst (fst st) = None
  /\ ConPty.is_shut pty
  /\ Rw.handle rw = 0
  /\ ConPty.setsize (P := Sample.host) pty Sample.size_24x80 h
     = (Some ErrClosed, h)
  /\ Rw.Setsize (P := Sample.host) (Rw.FilePty rw) Sample.size_24x80 h
     = (Some ErrClosed, h).
Proof.
  intros st pty h rw.
  assert (Hs : ConPty.is_shut pty) by (left; reflexivity).
  assert (Hrw : Rw.handle rw = 0) by reflexivity.
  pose proof (setsize_after_close (P := Sample.host) pty rw Sample.size_24x80
                [] h Hs Hrw) as (H1 & _ & _ & H4 & _).
  split; [reflexivity|]. split; [exact Hs|]. split; [exact Hrw|].
  split; [exact H1|exact H4].
Defined.

(** [conFile.Close] takes no lock.  On the sample host a Setsize that has
    passed its test of the handle resizes handle 4096 after the master's
    Close has destroyed it. *)
Lemma conFile_Close_races_setsize :
  let c := {| ConPty.pair := Sample.pair; ConPty.mutex := None;
              ConPty.pool := [@ConPty.setsize_t Sample.host Sample.size_24x80;
                              @ConPty.conFile_Close_t Sample.host
                                (ConPty.ptyf Sample.pair)] |} in
  let h := snd (ConPty.run_sched [0; 0; 1; 1; 1; 1; 0; 0; 1]%nat c []) in
  ConPty.resize_guarded [] h = false.
Proof. vm_compute. reflexivity. Qed.

(** On the sample host, on which destroy does not fail, the Monitor's teardown
    and the master's Close both destroy handle 4096. *)
Lemma conFile_Close_races_teardown :
  let c := {| ConPty.pair := Sample.pair; ConPty.mutex := None;
              ConPty.pool := [@ConPty.teardown_t Sample.host;
                              @ConPty.conFile_Close_t Sample.host
                                (ConPty.ptyf Sample.pair)] |} in
  let h := snd (ConPty.run_sched [0; 0; 1; 1; 1; 1; 0; 0; 1; 0]%nat c []) in
  count is_destroy h = 2%nat.
Proof. vm_compute. reflexivity. Qed.

(** C6 at its failing input: two goroutines on the sample pair, one in
    Setsize for 24 rows and 80 columns, the other in Close of the master
    file.  Setsize takes the mutex and finds the pair open; the Close of the
    file, which takes no mutex, closes [pr] and [pw] and destroys console
    4096, and the answer 1 is no failure; Setsize then resizes console 4096.
    Both calls return nil. *)
Lemma resize_follows_conFile_Close :
  let c := {| ConPty.pair := Sample.pair; ConPty.mutex := None;
              ConPty.pool := [@ConPty.setsize_t Sample.host Sample.size_24x80;
                              @ConPty.conFile_Close_t Sample.host
                                (ConPty.ptyf Sample.pair)] |} in
  let st := ConPty.run_sched [0; 0; 1; 1; 1; 1; 0; 0; 1]%nat c [] in
  snd st = [EvFileClose 0%nat None; EvFileClose 3%nat None;
            EvClosePseudoConsole 4096 1 None;
            EvResizePseudoConsole 4096 (80 + 65536 * 24) 0 None]
  /\ ConPty.winerrorFailed 1 = false
  /\ ConPty.pool (fst st) = [ConPty.Done None; ConPty.Done None]
  /\ ConPty.console (ConPty.pair (fst st)) = InvalidHandle
  /\ ConPty.mutex (fst st) = None.
Proof. vm_compute. repeat split. Qed.

(** ** The allocator, the size calls on a File, the watcher *)

Section Allocator.

Context {P : platform}.
Import ConPty.

(** One call of [openPty]: the probe, then events that are no probe. *)
Lemma openPty_probe h :
  exists evs,
    snd (openPty h)
    = h ++ EvRtlGetVersion (fst (pl_RtlGetVersion h)) (snd (pl_RtlGetVersion h))
        :: evs
    /\ count is_probe evs = 0%nat.
Proof.
  unfold openPty. unfold bind at 1. unfold RtlGetVersion at 1.
  set (h1 := h ++ [_]).
  match goal with
  | |- exists evs, snd (?m h1) = _ /\ _ =>
      assert (Hm : emits not_probe m)
  end.
  { unfold close_both. emits_with ltac:(reflexivity). }
  destruct (Hm h1) as (evs & Hev & Hall). exists evs.
  rewrite Hev. subst h1. rewrite <- app_assoc. split; [reflexivity|].
  apply not_probe_count. exact Hall.
Qed.

(** C7, amended: every call of the allocator executes the version probe;
    nothing is cached, and [n] calls execute [n] probes. *)
Theorem openPty_probes_every_call (n : nat) (h : history) :
  count is_probe (emitted (openPty_times n) h) = n.
Proof.
  unfold emitted.
  assert (H : exists evs, snd (openPty_times n h) = h ++ evs
                          /\ count is_probe evs = n).
  { revert h. induction n as [|n IH]; intros h.
    - exists []. rewrite app_nil_r. split; reflexivity.
    - simpl. unfold bind at 1.
      destruct (openPty_probe h) as (evs1 & Hev1 & Hc1).
      destruct (openPty h) as [res h1]. simpl in Hev1. subst h1.
      unfold bind at 1.
      destruct (IH (h ++ EvRtlGetVersion (fst (pl_RtlGetVersion h))
                            (snd (pl_RtlGetVersion h)) :: evs1))
        as (evs2 & Hev2 & Hc2).
      destruct (openPty_times n _) as [rest h2]. simpl in *. subst h2.
      eexists. split; [rewrite <- app_assoc; reflexivity|].
      rewrite count_app. unfold count at 1. simpl.
      fold (count is_probe evs1). rewrite Hc1, Hc2. reflexivity. }
  destruct H as (evs & Hev & Hc). rewrite Hev, drop_emitted. exact Hc.
Qed.

(** C9: a [File] whose dynamic type is not [*conFile] makes Setsize return
    [ErrNotPty] and GetsizeFull return [ErrUnsupported], two different
    errors; neither calls the host. *)
Theorem size_ops_reject_non_pty (f : File) (size : Winsize) (pty : conPty)
    (h : history) :
  as_conFile f = None ->
  Setsize f size pty h = (Returns (Some ErrNotPty), h)
  /\ GetsizeFull f pty h = (Returns (None, Some ErrUnsupported), h)
  /\ ErrNotPty <> ErrUnsupported.
Proof.
  intros Hf. destruct f as [cf|tag]; [discriminate|].
  repeat split. discriminate.
Qed.

(** The watcher, case by case (C8, what holds of it): a case can be taken
    only when its channel is ready; when the case taken is the completion
    of the process it adds nothing to the history; when it is the signal it
    adds the one Kill of the process and nothing else, so no event of it
    closes a file, destroys or resizes a console; and when the signal has
    not fired the case taken is the completion and the history is
    unchanged. *)
Theorem watcher_only_kills (p : winProc) (ctx_done : bool) (c : select_case)
    (h : history) :
  case_ready p ctx_done c = true ->
  let h' := snd (killOnContext p c h) in
  let evs := drop (length h) h' in
  evs = match c with
        | CaseCmdDone => []
        | CaseCtxDone => [EvProcKill (proc p) (pl_ProcKill h (proc p))]
        end
  /\ (c = CaseCtxDone -> ctx_done = true)
  /\ forallb leaves_pair evs = true
  /\ (ctx_done = false -> c = CaseCmdDone /\ cmdDone p = true /\ h' = h).
Proof.
  intros Hready. destruct c; simpl in *.
  - rewrite drop_all. split; [reflexivity|]. split; [discriminate|].
    split; [reflexivity|]. intros _. repeat split. exact Hready.
  - subst ctx_done. unfold bind, Kill, Proc_Kill, ret. simpl.
    rewrite drop_emitted. split; [reflexivity|]. split; [reflexivity|].
    split; [reflexivity|]. discriminate.
Qed.

End Allocator.

(** C7 as stated fails: the second call of the allocator executes the probe
    again. *)
Lemma openPty_second_call_probes :
  let h1 := snd (ConPty.openPty (P := Sample.host) []) in
  count is_probe h1 = 1%nat
  /\ count is_probe (emitted (ConPty.openPty (P := Sample.host)) h1) = 1%nat
  /\ count is_probe (emitted (ConPty.openPty_times (P := Sample.host) 2) [])
     = 2%nat.
Proof. vm_compute. repeat split. Qed.

Lemma size_ops_reject_non_pty_witness :
  ConPty.as_conFile (ConPty.FileOther 0) = None
  /\ ConPty.Setsize (P := Sample.host) (ConPty.FileOther 0) Sample.size_24x80
       Sample.pair [] = (ConPty.Returns (Some ErrNotPty), [])
  /\ ConPty.GetsizeFull (P := Sample.host) (ConPty.FileOther 0) Sample.pair []
     = (ConPty.Returns (None, Some ErrUnsupported), [])
  /\ ErrNotPty <> ErrUnsupported.
Proof.
  split; [reflexivity|].
  exact (size_ops_reject_non_pty (P := Sample.host) (ConPty.FileOther 0)
           Sample.size_24x80 Sample.pair [] eq_refl).
Defined.

Lemma watcher_only_kills_witness :
  ConPty.case_ready Sample.exited false ConPty.CaseCmdDone = true
  /\ ConPty.cmdDone Sample.exited = true
  /\ snd (ConPty.killOnContext (P := Sample.host) Sample.exited
            ConPty.CaseCmdDone []) = [].
Proof.
  assert (Hr : ConPty.case_ready Sample.exited false ConPty.CaseCmdDone = true)
    by reflexivity.
  split; [exact Hr|].
  destruct (watcher_only_kills (P := Sample.host) Sample.exited false
              ConPty.CaseCmdDone [] Hr) as (_ & _ & _ & Hnone).
  destruct (Hnone eq_refl) as (_ & Hdone & Hsame).
  split; [exact Hdone|exact Hsame].
Defined.

(** C8 at its failing input: the process has exited and its monitor has
    run, so the completion channel is closed, and the signal has fired
    before the watcher reaches its [select]; both cases are ready.  Taking
    the completion case does nothing; taking the signal case, which Go may
    choose, kills process 77 after its exit. *)
Lemma watcher_kills_after_exit :
  let p := {| ConPty.cmdDone := false; ConPty.cmdErr := None;
              ConPty.proc := 77 |} in
  let '(p', _, h') :=
    ConPty.waitInternal (P := Sample.host) p Sample.pair [] in
  h' = [EvProcWait 77 (inl {| ExitCode := 0 |});
        EvClosePseudoConsole 4096 1 None]
  /\ ConPty.Wait p' = Some None
  /\ ConPty.case_ready p' true ConPty.CaseCmdDone = true
  /\ ConPty.case_ready p' true ConPty.CaseCtxDone = true
  /\ ConPty.killOnContext (P := Sample.host) p' ConPty.CaseCmdDone h'
     = (tt, h')
  /\ ConPty.killOnContext (P := Sample.host) p' ConPty.CaseCtxDone h'
     = (tt, h' ++ [EvProcKill 77 None]).
Proof. vm_compute. repeat split. Qed.

(** ** The closer-based pseudo-console: the monitor *)

Section LegacyFacts.

Context {P : platform}.
Import Legacy.

Lemma winPtyConsoleCloser_emits Q p :
  (forall proc res, Q (EvFind proc res)) ->
  (forall hpc r1 err, Q (EvClosePseudoConsole hpc r1 err)) ->
  emits Q (winPtyConsoleCloser p).
Proof.
  intros HF HC. unfold winPtyConsoleCloser.
  destruct (negb _); [|apply emits_ret].
  apply emits_bind.
  - unfold Find. apply (emits_one Q (fun h => pl_Find h "ClosePseudoConsole")
                          (fun h => EvFind "ClosePseudoConsole" (pl_Find h "ClosePseudoConsole"))).
    intros h. apply HF.
  - intros [e|]; [apply emits_ret|].
    apply emits_bind; [|intros [r1 err]; apply emits_ret].
    intros h. unfold ClosePseudoConsole_Call.
    destruct (pl_ClosePseudoConsole h (handle p)) as [r1 err].
    exists [EvClosePseudoConsole (handle p) r1 err]. split; [reflexivity|].
    repeat constructor. apply HC.
Qed.

(** C2, amended: a process as Start creates it blocks every caller of Wait
    until the monitor has run; the monitor issues exactly one OS wait; after
    it every call of Wait returns the one stored outcome, which is the error
    of the OS wait, an exit error with the state on an abnormal exit, and on
    a clean exit what the console teardown of the monitor returned (nil when
    that succeeded). *)
Theorem wait_replays_outcome (p : windowsProcess) (pty : conPty) (h : history) :
  fresh_process p ->
  let res := pl_ProcWait h (proc p) in
  let teardown :=
    fst (fst (winPtyConsoleCloser pty (h ++ [EvProcWait (proc p) res]))) in
  let '(p', _, h') := waitProcess p pty h in
  Wait p = None
  /\ Wait p' = Some (outcome res teardown)
  /\ cmdErr p' = outcome res teardown
  /\ count is_proc_wait (drop (length h) h') = 1%nat.
Proof.
  intros [Hdone Herr] res teardown.
  unfold waitProcess, bind, Proc_Wait. fold res.
  destruct (winPtyConsoleCloser_emits (fun e => is_proc_wait e = false) pty
              (fun _ _ => eq_refl) (fun _ _ _ => eq_refl)
              (h ++ [EvProcWait (proc p) res])) as (evs & Hev & Hall).
  subst teardown.
  destruct (winPtyConsoleCloser pty (h ++ [EvProcWait (proc p) res]))
    as [[err pty'] h1] eqn:Hcl.
  simpl in Hev. subst h1. unfold ret. simpl.
  assert (Hcount : count is_proc_wait evs = 0%nat).
  { clear -Hall. induction Hall as [|e evs He _ IH]; [reflexivity|].
    unfold count in *. simpl. rewrite He. exact IH. }
  split; [unfold Wait; rewrite Hdone; reflexivity|].
  assert (Hout : cmdErr (record_teardown (record_exit p res) err)
                 = outcome res err).
  { unfold outcome, record_teardown, record_exit.
    destruct res as [st|e0]; [destruct (Success st)|];
      destruct err; simpl; rewrite ?Herr; reflexivity. }
  split; [unfold Wait; simpl; f_equal; exact Hout|].
  split; [simpl; exact Hout|].
  rewrite <- app_assoc, drop_emitted, count_app, Hcount. reflexivity.
Qed.

End LegacyFacts.

(** C2 as stated fails: the process exits cleanly, the console teardown of
    the monitor returns an error, and Wait returns that error, not nil. *)
Lemma wait_clean_exit_not_nil :
  pl_ProcWait (platform := Sample.host_destroy_fails) [] 77
    = inl {| ExitCode := 0 |}
  /\ Success {| ExitCode := 0 |} = true
  /\ Legacy.Wait
       (fst (fst (Legacy.waitProcess (P := Sample.host_destroy_fails)
                    Sample.legacy_process Sample.legacy_pty [])))
     = Some (Some (Errno 6)).
Proof. vm_compute. repeat split. Qed.

Lemma wait_replays_outcome_witness :
  Legacy.fresh_process Sample.legacy_process
  /\ let '(p', _, h') :=
       Legacy.waitProcess (P := Sample.host) Sample.legacy_process
         Sample.legacy_pty [] in
     Legacy.Wait Sample.legacy_process = None
     /\ Legacy.Wait p' = Some None
     /\ Legacy.cmdErr p' = None
     /\ count is_proc_wait (drop (length ([] : history)) h') = 1%nat.
Proof.
  assert (Hf : Legacy.fresh_process Sample.legacy_process)
    by (split; reflexivity).
  split; [exact Hf|].
  exact (wait_replays_outcome (P := Sample.host) Sample.legacy_process
           Sample.legacy_pty [] Hf).
Defined.

(** ** Start: what is closed when it fails *)

Section LegacyStart.

Context {P : platform}.
Variable Pack : Z -> Z -> Z.
Variable makeCmdLine : Legacy.Cmd -> string.
Import Legacy.

Lemma procCreatePseudoConsole_any hi ho fl ch :
  emits any_event (procCreatePseudoConsole Pack hi ho fl ch).
Proof. unfold procCreatePseudoConsole. emits_any. Qed.

Lemma winPtyConsoleCloser_any p : emits any_event (winPtyConsoleCloser p).
Proof. unfold winPtyConsoleCloser. emits_any. Qed.

Lemma Close_any p : emits any_event (Close p).
Proof.
  unfold Close, winPtyCloser, winTtyCloser.
  destruct (closer p); emits_any. apply winPtyConsoleCloser_any.
Qed.

Lemma windowExecCmd_Start_any c pty :
  emits any_event (windowExecCmd_Start makeCmdLine c pty).
Proof.
  unfold windowExecCmd_Start, updateProcThreadAttribute. emits_any.
Qed.

(** When [open] succeeds, both files of the tty are closed. *)
Lemma open_post h :
  post (open Pack) h (fun res h1 =>
    (exists evs, h1 = h ++ evs)
    /\ match res with
       | inl (pty, tty) =>
           file_closed h1 (r tty) = true /\ file_closed h1 (w tty) = true
           /\ closer pty = winPtyCloser_fn
       | inr _ => True
       end).
Proof.
  unfold open.
  apply post_bind, post_os_Pipe. intros [[pr_ cw]|e] evs1;
    [|apply post_ret; split; [eauto|exact I]].
  apply post_bind, post_os_Pipe. intros [[cr pw_]|e] evs2.
  2:{ repeat (apply post_bind, post_File_Close; intros ? ? _).
      apply post_ret. split; [|exact I]. rewrite <- !app_assoc. eauto. }
  apply post_bind. eapply post_emits; [apply procCreatePseudoConsole_any|].
  intros [[e|] hpc] evs3 _.
  { repeat (apply post_bind, post_File_Close; intros ? ? _).
    apply post_ret. split; [|exact I]. rewrite <- !app_assoc. eauto. }
  apply post_bind, post_File_Close. intros [e|] evs4 Hcw.
  { apply post_ret. split; [|exact I]. rewrite <- !app_assoc. eauto. }
  apply post_bind, post_File_Close. intros [e|] evs5 Hcr.
  { apply post_ret. split; [|exact I]. rewrite <- !app_assoc. eauto. }
  apply post_ret. split; [rewrite <- !app_assoc; eauto|]. simpl.
  split; [exact Hcr|]. split; [|reflexivity].
  apply file_closed_mono. exact Hcw.
Qed.

Lemma winPtyConsoleCloser_post p h :
  post (winPtyConsoleCloser p) h (fun res h' =>
    (exists evs, h' = h ++ evs)
    /\ r (snd res) = r p /\ w (snd res) = w p /\ closer (snd res) = closer p
    /\ (handle (snd res) = handle p
        \/ (handle (snd res) = InvalidHandle
            /\ console_closed h' (handle p) = true))
    /\ (destroy_found -> handle p <> InvalidHandle ->
        console_closed h' (handle p) = true)).
Proof.
  unfold post, winPtyConsoleCloser, bind, ret, Find, ClosePseudoConsole_Call.
  destruct (handle p =? InvalidHandle) eqn:Hinv; simpl.
  - apply Z.eqb_eq in Hinv. split; [exists []; rewrite app_nil_r; reflexivity|].
    repeat split; auto; try (intros; contradiction).
  - destruct (pl_Find h "ClosePseudoConsole") as [e|] eqn:HF; simpl.
    + split; [eauto|]. repeat split; auto;
        try (intros Hfound; rewrite Hfound in HF; discriminate).
    + destruct (pl_ClosePseudoConsole _ (handle p)) as [r1 err]; simpl.
      assert (Hcc : console_closed
                ((h ++ [EvFind "ClosePseudoConsole" None]) ++
                 [EvClosePseudoConsole (handle p) r1 err]) (handle p) = true).
      { rewrite console_closed_app. simpl. rewrite Z.eqb_refl, orb_true_r.
        reflexivity. }
      split; [rewrite <- app_assoc; eauto|]. repeat split; auto.
Qed.

Lemma Close_pty_post p h :
  closer p = winPtyCloser_fn ->
  post (Close p) h (fun res h' =>
    (exists evs, h' = h ++ evs)
    /\ file_closed h' (r p) = true /\ file_closed h' (w p) = true
    /\ r (snd res) = r p /\ w (snd res) = w p /\ closer (snd res) = closer p
    /\ (handle (snd res) = handle p
        \/ (handle (snd res) = InvalidHandle
            /\ console_closed h' (handle p) = true))
    /\ (destroy_found -> handle p <> InvalidHandle ->
        console_closed h' (handle p) = true)).
Proof.
  intros Hcl. unfold Close. rewrite Hcl. unfold winPtyCloser.
  apply post_bind, post_File_Close. intros e1 evs1 Hr.
  apply post_bind, post_File_Close. intros e2 evs2 Hw.
  pose proof (winPtyConsoleCloser_post p ((h ++ evs1) ++ evs2)) as Hp.
  unfold post in *.
  destruct (winPtyConsoleCloser p ((h ++ evs1) ++ evs2)) as [[e p'] h'].
  simpl in *. destruct Hp as ([evs3 ->] & Hr' & Hw' & Hc' & Hh & Hfound).
  split; [rewrite <- !app_assoc; eauto|].
  split; [do 2 apply file_closed_mono; exact Hr|].
  split; [apply file_closed_mono; exact Hw|].
  repeat split; auto; congruence.
Qed.

Lemma run_option_kept o p0 :
  closer p0 = winPtyCloser_fn ->
  forall p h, kept p0 p h ->
  post (run_option o p) h (fun res h' =>
    (exists evs, h' = h ++ evs) /\ kept p0 (snd res) h').
Proof.
  intros Hcl. induction o as [err|k IH|k IH|k IH|sz k IH|fn args k IH];
    intros p h Hk; simpl.
  - apply post_ret. split; [exists []; rewrite app_nil_r; reflexivity|exact Hk].
  - apply post_bind.
    destruct Hk as (Hr & Hw & Hc & Hh).
    pose proof (Close_pty_post p h (eq_trans Hc Hcl)) as Hp. unfold post in *.
    destruct (Close p h) as [[e p'] h']. simpl in *.
    destruct Hp as ([evs ->] & _ & _ & Hr' & Hw' & Hc' & Hh' & _).
    assert (Hk' : kept p0 p' (h ++ evs)).
    { repeat split; try congruence.
      destruct Hh as [Hh|[Hi Hcc]], Hh' as [Hh'|[Hi' Hcc']].
      - left. congruence.
      - right. split; [exact Hi'|]. rewrite <- Hh. exact Hcc'.
      - right. split; [congruence|]. apply console_closed_mono. exact Hcc.
      - right. split; [exact Hi'|]. apply console_closed_mono. exact Hcc. }
    specialize (IH e p' (h ++ evs) Hk').
    destruct (run_option (k e) p' (h ++ evs)) as [res h2]. simpl in *.
    destruct IH as ([evs2 ->] & Hk2). split; [|exact Hk2].
    rewrite <- app_assoc. eauto.
  - apply IH. exact Hk.
  - apply IH. exact Hk.
  - apply post_bind. eapply post_emits.
    { unfold Rw.Setsize. emits_any. }
    intros e evs _.
    assert (Hk' : kept p0 p (h ++ evs)).
    { destruct Hk as (Hr & Hw & Hc & Hh). repeat split; auto.
      destruct Hh as [Hh|[Hi Hcc]]; [left; exact Hh|right].
      split; [exact Hi|]. apply console_closed_mono. exact Hcc. }
    specialize (IH e p (h ++ evs) Hk'). unfold post in *.
    destruct (run_option (k e) p (h ++ evs)) as [res h2]. simpl in *.
    destruct IH as ([evs2 ->] & Hk2). split; [|exact Hk2].
    rewrite <- app_assoc. eauto.
  - apply post_bind. eapply post_emits; [apply Lib_emits|].
    intros e evs _.
    assert (Hk' : kept p0 p (h ++ evs)).
    { destruct Hk as (Hr & Hw & Hc & Hh). repeat split; auto.
      destruct Hh as [Hh|[Hi Hcc]]; [left; exact Hh|right].
      split; [exact Hi|]. apply console_closed_mono. exact Hcc. }
    specialize (IH e p (h ++ evs) Hk'). unfold post in *.
    destruct (run_option (k e) p (h ++ evs)) as [res h2]. simpl in *.
    destruct IH as ([evs2 ->] & Hk2). split; [|exact Hk2].
    rewrite <- app_assoc. eauto.
Qed.

Lemma run_options_kept opts p0 :
  closer p0 = winPtyCloser_fn ->
  forall p h, kept p0 p h ->
  post (run_options opts p) h (fun res h' =>
    (exists evs, h' = h ++ evs) /\ kept p0 (snd res) h').
Proof.
  intros Hcl. induction opts as [|o opts IH]; intros p h Hk; simpl.
  - apply post_ret. split; [exists []; rewrite app_nil_r; reflexivity|exact Hk].
  - apply post_bind.
    pose proof (run_option_kept o p0 Hcl p h Hk) as Hp. unfold post in *.
    destruct (run_option o p h) as [[e p'] h']. simpl in *.
    destruct Hp as ([evs ->] & Hk'). destruct e as [e|].
    + simpl. split; [eauto|exact Hk'].
    + specialize (IH p' (h ++ evs) Hk').
      destruct (run_options opts p' (h ++ evs)) as [res h2]. simpl in *.
      destruct IH as ([evs2 ->] & Hk2). split; [|exact Hk2].
      rewrite <- app_assoc. eauto.
Qed.

(** [start] as a case analysis over its three stages. *)
Lemma start_eq c opts h :
  start Pack makeCmdLine c opts h =
  match open Pack h with
  | (inr e, h1) => (None, Some e, h1)
  | (inl (pty, _), h1) =>
      match run_options opts pty h1 with
      | (Some e, pty1, h2) => (Some pty1, Some e, h2)
      | (None, pty1, h2) =>
          match windowExecCmd_Start makeCmdLine (default_attr c) (Some pty1) h2 with
          | (Some e, _, h3) => (None, Some e, snd (Close pty1 h3))
          | (None, _, h3) => (Some pty1, None, h3)
          end
      end
  end.
Proof.
  unfold start, bind, ret.
  destruct (open Pack h) as [[[pty tty]|e] h1]; [|reflexivity].
  destruct (run_options opts pty h1) as [[[e|] pty1] h2]; [reflexivity|].
  destruct (windowExecCmd_Start _ _ _ h2) as [[[e|] c'] h3]; [|reflexivity].
  destruct (Close pty1 h3) as [[e' p'] h4]. reflexivity.
Qed.

(** The closer-based [start], branch by branch: an error of [open] is
    returned; an error of an option is returned with the pty, and nothing is
    closed on the way; when the command cannot be started the error is
    returned without a pty, and by then both pipes of the pty are closed, as
    are the two console ends closed by [open], and the console has been
    destroyed. *)
Lemma legacy_start_paths c opts h :
  destroy_found ->
  match open Pack h with
  | (inr e, h1) => start Pack makeCmdLine c opts h = (None, Some e, h1)
  | (inl (pty, tty), h1) =>
      match run_options opts pty h1 with
      | (Some e, pty1, h2) =>
          start Pack makeCmdLine c opts h = (Some pty1, Some e, h2)
      | (None, pty1, h2) =>
          match windowExecCmd_Start makeCmdLine (default_attr c) (Some pty1) h2 with
          | (None, _, h3) =>
              start Pack makeCmdLine c opts h = (Some pty1, None, h3)
          | (Some e, _, h3) =>
              exists h4,
                start Pack makeCmdLine c opts h = (None, Some e, h4)
                /\ file_closed h4 (r pty) = true
                /\ file_closed h4 (w pty) = true
                /\ file_closed h4 (r tty) = true
                /\ file_closed h4 (w tty) = true
                /\ (handle pty <> InvalidHandle ->
                    console_closed h4 (handle pty) = true)
          end
      end
  end.
Proof.
  intros Hfound. rewrite start_eq.
  pose proof (open_post h) as Hopen. unfold post in Hopen.
  destruct (open Pack h) as [[[pty tty]|e] h1]; [|reflexivity].
  simpl in Hopen. destruct Hopen as ([evs1 ->] & Htr & Htw & Hcl).
  assert (Hk0 : kept pty pty (h ++ evs1)) by (repeat split; auto).
  pose proof (run_options_kept opts pty Hcl pty (h ++ evs1) Hk0) as Hopt.
  unfold post in Hopt.
  destruct (run_options opts pty (h ++ evs1)) as [[[e|] pty1] h2]; [reflexivity|].
  simpl in Hopt. destruct Hopt as ([evs2 ->] & Hr1 & Hw1 & Hc1 & Hh1).
  destruct (windowExecCmd_Start_any (default_attr c) (Some pty1)
              ((h ++ evs1) ++ evs2)) as (evs3 & Hev3 & _).
  destruct (windowExecCmd_Start makeCmdLine (default_attr c) (Some pty1)
              ((h ++ evs1) ++ evs2)) as [[[e|] c'] h3]; [|reflexivity].
  simpl in Hev3. subst h3.
  pose proof (Close_pty_post pty1 (((h ++ evs1) ++ evs2) ++ evs3)
                (eq_trans Hc1 Hcl)) as Hcp.
  unfold post in Hcp.
  destruct (Close pty1 (((h ++ evs1) ++ evs2) ++ evs3)) as [[e' p'] h4].
  simpl in *. destruct Hcp as ([evs4 ->] & Hfr & Hfw & _ & _ & _ & _ & Hcon).
  eexists. split; [reflexivity|].
  rewrite <- Hr1, <- Hw1.
  split; [exact Hfr|]. split; [exact Hfw|].
  split; [do 3 apply file_closed_mono; exact Htr|].
  split; [do 3 apply file_closed_mono; exact Htw|].
  intros Hne. destruct Hh1 as [Hh1|[Hi Hcc]].
  - rewrite <- Hh1. apply Hcon; [exact Hfound|]. rewrite Hh1. exact Hne.
  - do 2 apply console_closed_mono. exact Hcc.
Qed.

End LegacyStart.

Section UnixStart.

Context {P : platform}.
Variable Name : fd -> string.
Import Unix.

Lemma run_option_any o pty : emits any_event (run_option Name o pty).
Proof.
  induction o as [err|k IH|k IH|k IH|sz k IH|fn args k IH]; simpl;
    emits_any; auto.
Qed.

Lemma run_options_any opts pty : emits any_event (run_options Name opts pty).
Proof.
  induction opts as [|o opts IH]; simpl; emits_any; auto.
  apply run_option_any.
Qed.

(** The Unix [start], branch by branch: an error of an option is returned
    with the pty and nothing is closed on the way; when the command cannot
    be started the error is returned without a pty and both the pty and the
    tty are closed; on success the tty is closed. *)
Lemma unix_start_paths c opts h :
  match open h with
  | (inr e, h1) => start Name c opts h = (None, Some e, h1)
  | (inl (pty, tty), h1) =>
      match run_options Name opts pty h1 with
      | (Some e, h2) => start Name c opts h = (Some pty, Some e, h2)
      | (None, h2) =>
          match Exec_Start h2 with
          | (Some e, h3) =>
              exists h4,
                start Name c opts h = (None, Some e, h4)
                /\ file_closed h4 pty = true /\ file_closed h4 tty = true
          | (None, h3) =>
              exists h4,
                start Name c opts h = (Some pty, None, h4)
                /\ file_closed h4 tty = true
          end
      end
  end.
Proof.
  unfold start, bind, ret.
  destruct (open h) as [[[pty tty]|e] h1]; [|reflexivity].
  destruct (run_options Name opts pty h1) as [[e|] h2]; [reflexivity|].
  destruct (Exec_Start h2) as [[e|] h3].
  - destruct (File_Close_result pty h3) as (evs1 & Hev1 & Hc1).
    destruct (File_Close (Some pty) h3) as [e1 h4]. simpl in Hev1. subst h4.
    destruct (File_Close_result tty (h3 ++ evs1)) as (evs2 & Hev2 & Hc2).
    destruct (File_Close (Some tty) (h3 ++ evs1)) as [e2 h5]. simpl in Hev2.
    subst h5. eexists. split; [reflexivity|].
    split; [apply file_closed_mono; exact Hc1|exact Hc2].
  - destruct (File_Close_result tty h3) as (evs2 & Hev2 & Hc2).
    destruct (File_Close (Some tty) h3) as [e2 h5]. simpl in Hev2.
    subst h5. eexists. split; [reflexivity|exact Hc2].
Qed.

End UnixStart.

(** Where [start] closes what it allocated (C3, what holds): when the step
    that starts the command fails after the
    allocation and the options succeeded, [start] (Windows, closer-based, and
    Unix) returns that error without a pty, and every file of the pty and the
    tty is closed and the console destroyed before it returns (the entry
    point of ClosePseudoConsole being found); when an option fails, [start]
    returns the error with the pty and closes nothing. *)
Theorem start_failure_paths {P : platform} (Pack : Z -> Z -> Z)
    (makeCmdLine : Legacy.Cmd -> string) (Name : fd -> string)
    (c : Legacy.Cmd) (uc : Unix.Cmd) (opts : list StartOption) (h : history) :
  Legacy.destroy_found ->
  match Legacy.open Pack h with
  | (inr e, h1) => Legacy.start Pack makeCmdLine c opts h = (None, Some e, h1)
  | (inl (pty, tty), h1) =>
      match Legacy.run_options opts pty h1 with
      | (Some e, pty1, h2) =>
          Legacy.start Pack makeCmdLine c opts h = (Some pty1, Some e, h2)
      | (None, pty1, h2) =>
          match Legacy.windowExecCmd_Start makeCmdLine (Legacy.default_attr c)
                  (Some pty1) h2 with
          | (None, _, h3) =>
              Legacy.start Pack makeCmdLine c opts h = (Some pty1, None, h3)
          | (Some e, _, h3) =>
              exists h4,
                Legacy.start Pack makeCmdLine c opts h = (None, Some e, h4)
                /\ file_closed h4 (Legacy.r pty) = true
                /\ file_closed h4 (Legacy.w pty) = true
                /\ file_closed h4 (Legacy.r tty) = true
                /\ file_closed h4 (Legacy.w tty) = true
                /\ (Legacy.handle pty <> InvalidHandle ->
                    console_closed h4 (Legacy.handle pty) = true)
          end
      end
  end
  /\ match Unix.open h with
     | (inr e, h1) => Unix.start Name uc opts h = (None, Some e, h1)
     | (inl (pty, tty), h1) =>
         match Unix.run_options Name opts pty h1 with
         | (Some e, h2) => Unix.start Name uc opts h = (Some pty, Some e, h2)
         | (None, h2) =>
             match Exec_Start h2 with
             | (Some e, h3) =>
                 exists h4,
                   Unix.start Name uc opts h = (None, Some e, h4)
                   /\ file_closed h4 pty = true /\ file_closed h4 tty = true
             | (None, h3) =>
                 exists h4,
                   Unix.start Name uc opts h = (Some pty, None, h4)
                   /\ file_closed h4 tty = true
             end
         end
     end.
Proof.
  intros Hfound. split.
  - apply legacy_start_paths. exact Hfound.
  - apply unix_start_paths.
Qed.

(** The initial size cannot be applied (the resize call answers a
    failure): [start] returns the error together with the pty, and neither
    pipe of the pty is closed nor the console destroyed. *)
Lemma start_option_failure_leaves_pty_open :
  let '(pty, err, h) :=
    Legacy.start (P := Sample.host_resize_fails) Sample.pack Sample.cmdline
      Sample.legacy_cmd [WithSize Sample.size_24x80] [] in
  pty = Some Sample.legacy_pty
  /\ err = Some (Errno 0x80070057)
  /\ file_closed h 0%nat = false
  /\ file_closed h 3%nat = false
  /\ console_closed h 4096 = false.
Proof. vm_compute. repeat split. Qed.

Lemma start_failure_paths_witness :
  Legacy.destroy_found (P := Sample.host_spawn_fails)
  /\ (exists h4,
        Legacy.start (P := Sample.host_spawn_fails) Sample.pack Sample.cmdline
          Sample.legacy_cmd [WithSize Sample.size_24x80] []
        = (None, Some (Errno 2), h4)
        /\ file_closed h4 0%nat = true
        /\ file_closed h4 3%nat = true
        /\ file_closed h4 2%nat = true
        /\ file_closed h4 1%nat = true
        /\ (4096 <> InvalidHandle -> console_closed h4 4096 = true))
  /\ (exists h4,
        Unix.start (P := Sample.host_spawn_fails) Sample.name Sample.unix_cmd
          [WithSize Sample.size_24x80] []
        = (None, Some (Errno 2), h4)
        /\ file_closed h4 0%nat = true /\ file_closed h4 1%nat = true).
Proof.
  assert (Hf : Legacy.destroy_found (P := Sample.host_spawn_fails))
    by (intros h; reflexivity).
  split; [exact Hf|].
  exact (start_failure_paths (P := Sample.host_spawn_fails) Sample.pack
           Sample.cmdline Sample.name Sample.legacy_cmd Sample.unix_cmd
           [WithSize Sample.size_24x80] [] Hf).
Defined.

(** C3 at its failing inputs.  [StartWithAttrs] on a host on which the
    executable is not found: the four files and console 4096 are created,
    the creation of the process fails with error 2, and [StartWithAttrs]
    returns no file and that error with no file closed and the console not
    destroyed.  [start] of run_windows.go with an option that returns an
    error: it returns the error with the pty, both pipes of the pty open and
    the console alive.  The Unix [start] with the same option: it returns
    the error with the pty, and the tty, which it does not return, is not
    closed. *)
Lemma start_failure_leaves_files_open :
  (let '(f, err, pty, h) :=
     ConPty.StartWithAttrs (P := Sample.host_spawn_fails) Sample.cmd None [] in
   f = None /\ err = Some (Errno 2) /\ pty = Some Sample.pair
   /\ Trace.opened h = [0; 1; 2; 3]%nat
   /\ count is_file_close h = 0%nat
   /\ console_closed h 4096 = false)
  /\ (let '(pty, err, h) :=
        Legacy.start (P := Sample.host) Sample.pack Sample.cmdline
          Sample.legacy_cmd [OptReturn (Some (ErrNew "refused"))] [] in
      pty = Some Sample.legacy_pty /\ err = Some (ErrNew "refused")
      /\ file_closed h 0%nat = false /\ file_closed h 3%nat = false
      /\ console_closed h 4096 = false)
  /\ (let '(pty, err, h) :=
        Unix.start (P := Sample.host) Sample.name Sample.unix_cmd
          [OptReturn (Some (ErrNew "refused"))] [] in
      pty = Some 0%nat /\ err = Some (ErrNew "refused")
      /\ h = [EvOpenPty (inl (0%nat, 1%nat))]
      /\ file_closed h 1%nat = false).
Proof. vm_compute. repeat split. Qed.

(** C4 at its failing input: both pipes and the console are created, then
    closing the console's write end fails; the closer-based [open] returns
    the error and leaves the three other files open and the console
    alive. *)
Lemma open_leaks_when_close_fails :
  let '(res, h) :=
    Legacy.open (P := Sample.host_close_fails) Sample.pack [] in
  res = inr (ErrWrap "failed to close pseudo console handle" (Some (Errno 6)))
  /\ file_closed h 0%nat = false
  /\ file_closed h 2%nat = false
  /\ file_closed h 3%nat = false
  /\ console_closed h 4096 = false.
Proof. vm_compute. repeat split. Qed.

(** ** The environment block *)

Section BlockFacts.

Import Block.

Lemma length_bytes s : length (bytes s) = String.length s.
Proof. induction s as [|c s IH]; simpl; [reflexivity|]. rewrite IH. reflexivity. Qed.

Lemma bytes_inj s t : bytes s = bytes t -> s = t.
Proof.
  revert t. induction s as [|c s IH]; intros [|d t] H; simpl in H;
    try discriminate; [reflexivity|].
  injection H as -> H. f_equal. apply IH. exact H.
Qed.

Lemma copy_window pre src old rest :
  length old = length src ->
  copy (pre ++ old ++ rest) (length pre) (length pre + length src) src
  = Some (pre ++ src ++ rest).
Proof.
  intros Hlen. unfold copy.
  rewrite !length_app.
  replace ((length pre <=? length pre + length src)%nat) with true
    by (symmetry; apply Nat.leb_le; lia).
  replace ((length pre + length src <=? length pre + (length old + length rest))%nat)
    with true by (symmetry; apply Nat.leb_le; lia).
  simpl. replace (length pre + length src - length pre)%nat with (length src) by lia.
  rewrite Nat.min_id, take_app_length, firstn_all, drop_app_add.
  rewrite drop_app_length' by (symmetry; exact Hlen). reflexivity.
Qed.

Lemma layout_snoc pre s : layout (pre ++ [s]) = layout pre ++ bytes s ++ [NUL].
Proof. unfold layout. rewrite map_app, concat_app. simpl. rewrite app_nil_r. reflexivity. Qed.

Lemma length_layout_cons s rest :
  length (layout (s :: rest)) = (String.length s + 1 + length (layout rest))%nat.
Proof. unfold layout. simpl. rewrite !length_app, length_bytes. simpl. lia. Qed.

(** One iteration writes the entry and its byte 0 over the zeros that
    follow what is written. *)
Lemma block_body_step pre s k :
  (String.length s + 1 <= k)%nat ->
  block_body (Some (layout pre ++ replicate k NUL, length (layout pre))) s
  = Some (layout (pre ++ [s]) ++ replicate (k - (String.length s + 1)) NUL,
          length (layout (pre ++ [s]))).
Proof.
  intros Hk. unfold block_body.
  replace k with (String.length s + (1 + (k - (String.length s + 1))))%nat at 1 by lia.
  rewrite !replicate_add. rewrite <- (length_bytes s).
  rewrite (copy_window (layout pre) (bytes s) (replicate (length (bytes s)) NUL))
    by apply length_replicate.
  replace (length (layout pre) + length (bytes s))%nat
    with (length (layout pre ++ bytes s))%nat by (rewrite length_app; reflexivity).
  rewrite (app_assoc (layout pre) (bytes s)).
  pose proof (copy_window (layout pre ++ bytes s) [NUL] (replicate 1 NUL)
                (replicate (k - (length (bytes s) + 1)) NUL) eq_refl) as Hc.
  simpl length in Hc. rewrite Hc.
  rewrite layout_snoc, <- !app_assoc. f_equal. f_equal.
  rewrite !length_app. simpl. lia.
Qed.

Lemma block_length_eq envv : block_length envv = (length (layout envv) + 1)%nat.
Proof.
  unfold block_length. f_equal.
  assert (H : forall n, foldl (fun length s => (length + (String.length s + 1))%nat) n envv
                        = (n + length (layout envv))%nat).
  { induction envv as [|s rest IH]; intros n; simpl; [lia|].
    rewrite IH, length_layout_cons. lia. }
  apply (H 0%nat).
Qed.

Lemma block_loop rest : forall pre k,
  (length (layout rest) <= k)%nat ->
  foldl block_body (Some (layout pre ++ replicate k NUL, length (layout pre))) rest
  = Some (layout (pre ++ rest) ++ replicate (k - length (layout rest)) NUL,
          length (layout (pre ++ rest))).
Proof.
  induction rest as [|s rest IH]; intros pre k Hk; cbn [foldl].
  - rewrite app_nil_r. unfold layout at 3. simpl. rewrite Nat.sub_0_r. reflexivity.
  - rewrite length_layout_cons in Hk.
    rewrite block_body_step by lia. rewrite IH by (clear IH; lia).
    rewrite <- app_assoc. simpl. rewrite length_layout_cons.
    do 4 f_equal. lia.
Qed.

Lemma block_bytes_layout envv : block_bytes envv = Some (layout envv ++ [NUL]).
Proof.
  unfold block_bytes. rewrite block_length_eq.
  pose proof (block_loop envv [] (length (layout envv) + 1) ltac:(lia)) as H.
  simpl in H. rewrite H.
  replace (length (layout envv) + 1 - length (layout envv))%nat with 1%nat by lia.
  pose proof (copy_window (layout envv) [NUL] (replicate 1 NUL) [] eq_refl) as Hc.
  simpl length in Hc. rewrite app_nil_r in Hc. rewrite Hc. reflexivity.
Qed.

(** X1: [createEnvBlock] never indexes its buffer out of range; for a list that
    is not empty the buffer holds the entries in order, each followed by a
    byte 0, and one more byte 0 at the end, [len(s) + 1] bytes for each entry
    and one more in all; for the empty list the block is two bytes 0, which
    is also the block of the list that holds the empty string alone. *)
Theorem createEnvBlock_layout (encode : list ascii -> list Z) (envv : list string) :
  createEnvBlock encode envv
  = Some (encode (match envv with
                  | [] => [NUL; NUL]
                  | _ => layout envv ++ [NUL]
                  end))
  /\ length (layout envv ++ [NUL])
     = (foldr (fun s n => String.length s + 1 + n) 0 envv + 1)%nat
  /\ createEnvBlock encode [""] = createEnvBlock encode [].
Proof.
  split; [|split].
  - unfold createEnvBlock. destruct envv as [|s rest]; [reflexivity|].
    rewrite block_bytes_layout. reflexivity.
  - rewrite length_app. simpl. f_equal.
    induction envv as [|s rest IH]; [reflexivity|].
    rewrite length_layout_cons, IH. simpl. lia.
  - unfold createEnvBlock. cbn [length Nat.eqb]. rewrite block_bytes_layout.
    reflexivity.
Qed.

Lemma split_at_nul a1 r1 a2 r2 :
  NUL ∉ a1 -> NUL ∉ a2 ->
  a1 ++ NUL :: r1 = a2 ++ NUL :: r2 -> a1 = a2 /\ r1 = r2.
Proof.
  revert a2. induction a1 as [|x a1 IH]; intros [|y a2] H1 H2 H; simpl in H.
  - injection H as ->. auto.
  - injection H as <- _. exfalso. apply H2. left.
  - injection H as -> _. exfalso. apply H1. left.
  - injection H as -> H.
    destruct (IH a2) as [-> ->]; auto.
    + intros Hin. apply H1. right. exact Hin.
    + intros Hin. apply H2. right. exact Hin.
Qed.

Lemma layout_inj e1 : forall e2,
  Forall nul_free e1 -> Forall nul_free e2 -> layout e1 = layout e2 -> e1 = e2.
Proof.
  induction e1 as [|s1 r1 IH]; intros [|s2 r2] H1 H2 H.
  - reflexivity.
  - unfold layout in H. simpl in H. destruct (bytes s2); discriminate.
  - unfold layout in H. simpl in H. destruct (bytes s1); discriminate.
  - inversion H1 as [|? ? Hs1 Hr1]; inversion H2 as [|? ? Hs2 Hr2]; subst.
    unfold layout in H. simpl in H. rewrite <- !app_assoc in H. simpl in H.
    destruct (split_at_nul _ _ _ _ Hs1 Hs2 H) as [Hb Hr].
    f_equal; [apply bytes_inj; exact Hb|].
    apply IH; assumption.
Qed.

Lemma NUL_ascii : is_ascii NUL.
Proof. unfold is_ascii, NUL. change (nat_of_ascii zero) with 0%nat. lia. Qed.

Lemma layout_ascii envv : Forall plain envv -> Forall is_ascii (layout envv).
Proof.
  induction 1 as [|s rest [_ Hs] _ IH]; [constructor|].
  unfold layout. cbn [map concat]. fold (layout rest).
  rewrite <- app_assoc. apply Forall_app. split; [exact Hs|].
  constructor; [apply NUL_ascii|exact IH].
Qed.

(** Two bytes 0 are the layout of one list only, the list that holds the
    empty string. *)
Lemma layout_short s rest :
  [NUL; NUL] = layout (s :: rest) ++ [NUL] -> s = EmptyString /\ rest = [].
Proof.
  unfold layout. cbn [map concat]. fold (layout rest).
  rewrite <- !app_assoc. intros H.
  assert (Hlen : length [NUL; NUL]
                 = length (bytes s ++ [NUL] ++ layout rest ++ [NUL]))
    by (rewrite <- H; reflexivity).
  rewrite !length_app, length_bytes in Hlen. cbn [length] in Hlen.
  destruct s as [|c s]; [|cbn [String.length] in Hlen; lia].
  split; [reflexivity|].
  destruct rest as [|t rest]; [reflexivity|].
  rewrite length_layout_cons in Hlen. cbn [String.length] in Hlen. lia.
Qed.

(** X2: for lists of entries without a byte 0 and with bytes below 128
    only, on which the encoder loses nothing, [createEnvBlock] gives the
    same block for two lists exactly when they are the same list or one is
    empty and the other holds the empty string alone: apart from that one
    pair the block determines the entries and their order. *)
Theorem createEnvBlock_collisions (encode : list ascii -> list Z)
    (e1 e2 : list string) :
  faithful encode -> Forall plain e1 -> Forall plain e2 ->
  createEnvBlock encode e1 = createEnvBlock encode e2
  <-> (e1 = e2 \/ (e1 = [] /\ e2 = [""]) \/ (e1 = [""] /\ e2 = [])).
Proof.
  intros Henc H1 H2. split.
  - unfold createEnvBlock.
    pose proof (layout_ascii _ H1) as A1. pose proof (layout_ascii _ H2) as A2.
    assert (Hnn : Forall is_ascii [NUL; NUL])
      by (constructor; [apply NUL_ascii|];
          constructor; [apply NUL_ascii|constructor]).
    assert (Ht : forall e, Forall is_ascii (layout e) ->
                           Forall is_ascii (layout e ++ [NUL])).
    { intros e He. apply Forall_app. split; [exact He|].
      constructor; [apply NUL_ascii|constructor]. }
    destruct e1 as [|s1 r1], e2 as [|s2 r2]; cbn [length Nat.eqb];
      rewrite ?block_bytes_layout; intros H.
    + left. reflexivity.
    + right. left. split; [reflexivity|].
      injection H as H. apply Henc in H; [|exact Hnn|apply Ht; exact A2].
      destruct (layout_short _ _ H) as [-> ->]. reflexivity.
    + right. right. split; [|reflexivity].
      injection H as H. symmetry in H.
      apply Henc in H; [|exact Hnn|apply Ht; exact A1].
      destruct (layout_short _ _ H) as [-> ->]. reflexivity.
    + left. injection H as H.
      apply Henc in H; [|apply Ht; exact A1|apply Ht; exact A2].
      apply app_inj_tail in H. destruct H as [H _].
      apply layout_inj; [| |exact H].
      * eapply Forall_impl; [exact H1|]. intros ? [? _]. assumption.
      * eapply Forall_impl; [exact H2|]. intros ? [? _]. assumption.
  - intros [->|[[-> ->]|[-> ->]]]; [reflexivity| |].
    + unfold createEnvBlock. cbn [length Nat.eqb].
      rewrite block_bytes_layout. reflexivity.
    + unfold createEnvBlock. cbn [length Nat.eqb].
      rewrite block_bytes_layout. reflexivity.
Qed.

End BlockFacts.

Lemma encode_faithful : Block.faithful Hosts.encode.
Proof.
  intros b1. induction b1 as [|c b1 IH]; intros [|d b2] A1 A2 H;
    try discriminate; [reflexivity|].
  unfold Hosts.encode in H. cbn [map] in H. injection H as Hc Hr.
  apply Nat2Z.inj in Hc.
  apply (f_equal ascii_of_nat) in Hc. rewrite !ascii_nat_embedding in Hc.
  inversion A1; inversion A2; subst.
  f_equal. apply IH; assumption.
Qed.

Lemma plain_bytes s :
  forallb (fun c => (0 <? nat_of_ascii c)%nat && (nat_of_ascii c <? 128)%nat)
    (Block.bytes s) = true ->
  Block.plain s.
Proof.
  intros H. rewrite forallb_forall in H. split.
  - intros Hin. apply list_elem_of_In in Hin. apply H in Hin. discriminate.
  - apply Forall_forall. intros c Hc. apply list_elem_of_In in Hc.
    apply H in Hc. apply andb_true_iff in Hc as [_ Hc].
    apply Nat.ltb_lt in Hc. exact Hc.
Qed.

Lemma createEnvBlock_collisions_witness :
  Block.createEnvBlock Hosts.encode ["A=1"; "B=2"]
  <> Block.createEnvBlock Hosts.encode ["A=1B=2"].
Proof.
  intros H.
  apply (createEnvBlock_collisions Hosts.encode ["A=1"; "B=2"] ["A=1B=2"]
           encode_faithful) in H.
  - destruct H as [H|[[H _]|[H _]]]; discriminate H.
  - repeat constructor; apply plain_bytes; reflexivity.
  - repeat constructor; apply plain_bytes; reflexivity.
Defined.

(** ** Environment merging, further *)

Section EnvMore.

Variable ToLower : string -> string.
Variable ci : bool.

Lemma with_key_in k l x :
  x ∈ Env.with_key ToLower ci k l -> x ∈ l /\ Env.env_key ToLower ci x = Some k.
Proof. unfold Env.with_key. intros H. apply list_elem_of_filter in H. tauto. Qed.

(** On a list in which no two entries share a key the loop of
    [dedupEnvCase] only appends. *)
Lemma dedup_unique_appends rest : forall pre st,
  Env.dedup_inv ToLower ci pre st ->
  (forall k, (length (Env.with_key ToLower ci k (fst st ++ rest)) <= 1)%nat) ->
  fst (foldl (Env.dedup_body ToLower ci) st rest) = fst st ++ rest.
Proof.
  induction rest as [|kv rest IH]; intros pre [out saw] Hinv Huniq; cbn [foldl].
  - simpl. rewrite app_nil_r. reflexivity.
  - pose proof (dedup_inv_step ToLower ci pre (out, saw) kv Hinv) as Hinv'.
    assert (Hstep : Env.dedup_body ToLower ci (out, saw) kv
                    = (out ++ [kv],
                       snd (Env.dedup_body ToLower ci (out, saw) kv))).
    { rewrite dedup_body_key.
      destruct (Env.env_key ToLower ci kv) as [k|] eqn:Hk; [|reflexivity].
      destruct (saw !! k) as [i|] eqn:Hi; [|reflexivity].
      exfalso. destruct Hinv as (Hsaw & _).
      destruct (Hsaw k i Hi) as (old & Hold & Hkold). simpl in Hold.
      specialize (Huniq k). simpl in Huniq.
      unfold Env.with_key in Huniq. rewrite filter_app, length_app in Huniq.
      rewrite filter_cons in Huniq.
      destruct (decide (Env.env_key ToLower ci kv = Some k)); [|contradiction].
      assert (Hin : old ∈ filter (fun x => Env.env_key ToLower ci x = Some k) out).
      { apply list_elem_of_filter. split; [exact Hkold|].
        apply list_elem_of_lookup. eauto. }
      destruct (filter _ out); [inversion Hin|]. simpl in Huniq. lia. }
    rewrite Hstep in *. rewrite (IH (pre ++ [kv]) _ Hinv').
    + simpl. rewrite <- app_assoc. reflexivity.
    + intros k. simpl. rewrite <- app_assoc. apply Huniq.
Qed.

(** X3: [dedupEnvCase], with or without case: every entry of the result is an
    entry of the input; no two entries of the result share a key; the
    entries without [=] are all kept, in their order; and applying it to
    its own result changes nothing. *)
Theorem dedupEnvCase_idempotent (env : list string) :
  let out := Env.dedupEnvCase ToLower ci env in
  (forall x, x ∈ out -> x ∈ env)
  /\ (forall k, (length (Env.with_key ToLower ci k out) <= 1)%nat)
  /\ Env.without_key ToLower ci out = Env.without_key ToLower ci env
  /\ Env.dedupEnvCase ToLower ci out = out.
Proof.
  intros out.
  assert (Huniq : forall k, (length (Env.with_key ToLower ci k out) <= 1)%nat).
  { intros k. unfold out. rewrite dedupEnvCase_last_wins.
    apply option_list_last_length. }
  split; [|split; [exact Huniq|split]].
  - intros x Hx. destruct (Env.env_key ToLower ci x) as [k|] eqn:Hk.
    + assert (Hin : x ∈ Env.with_key ToLower ci k out).
      { apply list_elem_of_filter. split; assumption. }
      unfold out in Hin. rewrite dedupEnvCase_last_wins in Hin.
      destruct (last (Env.with_key ToLower ci k env)) as [y|] eqn:Hl;
        simpl in Hin; [|inversion Hin].
      apply list_elem_of_singleton in Hin. subst y.
      apply last_Some_elem_of in Hl. apply with_key_in in Hl. tauto.
    + assert (Hin : x ∈ Env.without_key ToLower ci out).
      { apply list_elem_of_filter. split; assumption. }
      unfold out in Hin. rewrite dedupEnvCase_keeps_plain in Hin.
      apply list_elem_of_filter in Hin. tauto.
  - apply dedupEnvCase_keeps_plain.
  - unfold Env.dedupEnvCase at 1.
    rewrite (dedup_unique_appends out [] ([], ∅) (dedup_inv_nil ToLower ci)).
    + reflexivity.
    + intros k. simpl. apply Huniq.
Qed.

End EnvMore.

Section CriticalEnv.

Variable EqualFold : string -> string -> bool.
Variable Getenv : string -> string.

Lemma synthesized_folds v :
  Env.key_folds_to EqualFold "SYSTEMROOT" ("SYSTEMROOT=" +:+ v)
  = EqualFold "SYSTEMROOT" "SYSTEMROOT".
Proof. destruct v; reflexivity. Qed.

(** X4: [addCriticalEnv] keeps the list and appends at most the SYSTEMROOT
    entry; when [EqualFold] finds SYSTEMROOT equal to itself, the result
    holds an entry whose key folds to SYSTEMROOT, and applying
    [addCriticalEnv] to its own result changes nothing. *)
Theorem addCriticalEnv_idempotent (env : list string) :
  EqualFold "SYSTEMROOT" "SYSTEMROOT" = true ->
  let out := Env.addCriticalEnv EqualFold Getenv env in
  (out = env \/ out = env ++ ["SYSTEMROOT=" +:+ Getenv "SYSTEMROOT"])
  /\ existsb (Env.key_folds_to EqualFold "SYSTEMROOT") out = true
  /\ Env.addCriticalEnv EqualFold Getenv out = out.
Proof.
  intros Hrefl out.
  assert (Hex : existsb (Env.key_folds_to EqualFold "SYSTEMROOT") out = true).
  { unfold out, Env.addCriticalEnv. rewrite has_systemroot_spec.
    destruct (existsb _ env) eqn:He; [exact He|].
    rewrite existsb_app, He. simpl. rewrite synthesized_folds, Hrefl.
    reflexivity. }
  split; [|split; [exact Hex|]].
  - unfold out, Env.addCriticalEnv. destruct (Env.has_systemroot _ env); auto.
  - unfold Env.addCriticalEnv at 1. rewrite has_systemroot_spec, Hex.
    reflexivity.
Qed.

End CriticalEnv.

Lemma addCriticalEnv_idempotent_witness :
  Env.EqualFold_ascii "SYSTEMROOT" "SYSTEMROOT" = true
  /\ Env.addCriticalEnv Env.EqualFold_ascii (fun _ => "C:/Windows")
       (Env.addCriticalEnv Env.EqualFold_ascii (fun _ => "C:/Windows") ["A=1"])
     = ["A=1"; "SYSTEMROOT=C:/Windows"].
Proof.
  split; [reflexivity|].
  destruct (addCriticalEnv_idempotent Env.EqualFold_ascii
              (fun _ => "C:/Windows") ["A=1"] eq_refl) as (_ & _ & H).
  exact H.
Defined.

(** ** The closer-based pseudo-console: Close *)

Section LegacyClose.

Context {P : platform}.
Import Legacy.

Lemma File_Close_again f h :
  file_closed h f = true -> File_Close (Some f) h = (Some ErrFileClosed, h).
Proof. intros H. unfold File_Close. rewrite H. reflexivity. Qed.

Lemma File_Close_step f h :
  exists e evs,
    File_Close (Some f) h = (e, h ++ evs)
    /\ Forall only_file_close evs
    /\ file_closed (h ++ evs) f = true.
Proof.
  unfold File_Close. destruct (file_closed h f) eqn:Hc.
  - exists (Some ErrFileClosed), []. rewrite app_nil_r. auto.
  - eexists _, [_]. split; [reflexivity|]. split; [repeat constructor|].
    rewrite file_closed_app. simpl. rewrite Nat.eqb_refl, orb_true_r.
    reflexivity.
Qed.

(** X5: Close of the pty of the closer-based generation, the entry point of
    ClosePseudoConsole being found: the first Close closes both files,
    issues one destroy call when the handle is valid and none otherwise,
    returns the last error of that call whatever the call answered, and
    leaves the handle invalid; a second Close returns nil and calls
    nothing. *)
Theorem legacy_close_idempotent (p : conPty) (h : history) :
  destroy_found -> closer p = winPtyCloser_fn ->
  let '(e1, p1, h1) := Close p h in
  let '(e2, p2, h2) := Close p1 h1 in
  let evs := drop (length h) h1 in
  handle p1 = InvalidHandle
  /\ file_closed h1 (r p) = true /\ file_closed h1 (w p) = true
  /\ count is_destroy evs = (if handle p =? InvalidHandle then 0%nat else 1%nat)
  /\ (handle p <> InvalidHandle ->
      exists r1, last evs = Some (EvClosePseudoConsole (handle p) r1 e1))
  /\ (handle p = InvalidHandle -> e1 = None)
  /\ e2 = None /\ p2 = p1 /\ h2 = h1.
Proof.
  intros Hfound Hcl. unfold Close. rewrite Hcl. unfold winPtyCloser.
  unfold bind at 1.
  destruct (File_Close_step (r p) h) as (ea & evsa & Ha & Hqa & Hca).
  rewrite Ha. unfold bind at 1.
  destruct (File_Close_step (w p) (h ++ evsa)) as (eb & evsb & Hb & Hqb & Hcb).
  rewrite Hb.
  destruct (only_file_close_count _ Hqa) as [Hda _].
  destruct (only_file_close_count _ Hqb) as [Hdb _].
  unfold winPtyConsoleCloser at 1.
  destruct (handle p =? InvalidHandle) eqn:Hinv; cbn [negb].
  - apply Z.eqb_eq in Hinv. unfold ret at 1.
    change (closer p) with (closer p). rewrite Hcl.
    unfold bind at 1. rewrite File_Close_again by (apply file_closed_mono; exact Hca).
    unfold bind at 1. rewrite File_Close_again by exact Hcb.
    unfold winPtyConsoleCloser. rewrite Hinv, Z.eqb_refl. cbn [negb]. unfold ret.
    rewrite <- app_assoc, drop_emitted, count_app, Hda, Hdb.
    rewrite app_assoc.
    repeat split; auto; try (apply file_closed_mono; exact Hca).
    intros Hne. contradiction.
  - apply Z.eqb_neq in Hinv.
    unfold bind at 1, Find at 1. rewrite Hfound.
    unfold bind at 1, ClosePseudoConsole_Call at 1.
    destruct (pl_ClosePseudoConsole _ (handle p)) as [r1 err]. unfold ret at 1.
    cbn [closer set_handle r w handle]. rewrite Hcl.
    set (h1 := ((h ++ evsa) ++ evsb) ++ [EvFind "ClosePseudoConsole" None]).
    assert (Hra : file_closed
                    (h1 ++ [EvClosePseudoConsole (handle p) r1 err]) (r p) = true).
    { unfold h1. do 3 apply file_closed_mono. exact Hca. }
    assert (Hwb : file_closed
                    (h1 ++ [EvClosePseudoConsole (handle p) r1 err]) (w p) = true).
    { unfold h1. do 2 apply file_closed_mono. exact Hcb. }
    unfold bind at 1. rewrite File_Close_again by exact Hra.
    unfold bind at 1. rewrite File_Close_again by exact Hwb.
    unfold winPtyConsoleCloser. cbn [handle]. rewrite Z.eqb_refl. cbn [negb].
    unfold ret.
    split; [reflexivity|]. split; [exact Hra|]. split; [exact Hwb|].
    unfold h1. rewrite <- !app_assoc, drop_emitted, !count_app, Hda, Hdb.
    split; [reflexivity|]. split.
    + intros _. exists r1. rewrite !app_assoc. apply last_snoc.
    + split; [intros Hi; contradiction|]. auto.
Qed.

End LegacyClose.

Lemma legacy_close_idempotent_witness :
  Legacy.destroy_found (P := Sample.host)
  /\ Legacy.closer Sample.legacy_pty = Legacy.winPtyCloser_fn
  /\ (let '(e1, p1, h1) := Legacy.Close (P := Sample.host) Sample.legacy_pty [] in
      Legacy.Close (P := Sample.host) p1 h1 = (None, p1, h1)
      /\ count is_destroy h1 = 1%nat).
Proof.
  assert (Hf : Legacy.destroy_found (P := Sample.host)) by (intros h; reflexivity).
  split; [exact Hf|]. split; [reflexivity|].
  pose proof (legacy_close_idempotent (P := Sample.host) Sample.legacy_pty []
                Hf eq_refl) as H.
  destruct (Legacy.Close (P := Sample.host) Sample.legacy_pty []) as [[e1 p1] h1].
  destruct (Legacy.Close (P := Sample.host) p1 h1) as [[e2 p2] h2].
  destruct H as (_ & _ & _ & Hc & _ & _ & -> & -> & ->).
  split; [reflexivity|exact Hc].
Defined.

(** ** The closer-based pseudo-console: what [open] returns *)

Section LegacyOpen.

Context {P : platform}.
Variable Pack : Z -> Z -> Z.
Import Legacy.

Lemma procCreatePseudoConsole_extends hi ho fl ch :
  emits any_event (procCreatePseudoConsole Pack hi ho fl ch).
Proof. unfold procCreatePseudoConsole. emits_any. Qed.

Lemma open_success h :
  post (open Pack) h (fun res h1 =>
    match res with
    | inl (pty, tty) =>
        file_closed h1 (r tty) = true /\ file_closed h1 (w tty) = true
        /\ closer tty = winTtyCloser_fn /\ closer pty = winPtyCloser_fn
        /\ handle tty = handle pty
        /\ name pty = "" /\ name tty = "windows-pty"
    | inr _ => True
    end).
Proof.
  unfold open.
  apply post_bind, post_os_Pipe. intros [[pr_ cw]|e] evs1;
    [|apply post_ret; exact I].
  apply post_bind, post_os_Pipe. intros [[cr pw_]|e] evs2.
  2:{ repeat (apply post_bind, post_File_Close; intros ? ? _).
      apply post_ret. exact I. }
  apply post_bind. eapply post_emits; [apply procCreatePseudoConsole_extends|].
  intros [[e|] hpc] evs3 _.
  { repeat (apply post_bind, post_File_Close; intros ? ? _).
    apply post_ret. exact I. }
  apply post_bind, post_File_Close. intros [e|] evs4 Hcw.
  { apply post_ret. exact I. }
  apply post_bind, post_File_Close. intros [e|] evs5 Hcr.
  { apply post_ret. exact I. }
  apply post_ret. simpl.
  split; [exact Hcr|]. split; [apply file_closed_mono; exact Hcw|].
  repeat split.
Qed.

(** X6: the tty that [open] returns: its two files have been closed by [open]
    already, so its Close returns the error of a file that is closed and
    calls nothing; it shares the handle of the pty, and its name is
    windows-pty while the name of the pty is empty. *)
Theorem legacy_tty_close_reports_closed (h h1 : history) (pty tty : conPty) :
  open Pack h = (inl (pty, tty), h1) ->
  Close tty h1 = (Some ErrFileClosed, tty, h1)
  /\ Fd tty = Fd pty
  /\ Name tty = "windows-pty" /\ Name pty = "".
Proof.
  intros Hopen.
  pose proof (open_success h) as H. unfold post in H. rewrite Hopen in H.
  simpl in H. destruct H as (Hr & Hw & Hct & _ & Hh & Hnp & Hnt).
  split; [|split; [exact Hh|split; [exact Hnt|exact Hnp]]].
  unfold Close. rewrite Hct. unfold winTtyCloser, bind, ret.
  rewrite (File_Close_again _ _ Hr), (File_Close_again _ _ Hw). reflexivity.
Qed.

End LegacyOpen.

Lemma legacy_tty_close_reports_closed_witness :
  let '(res, h1) := Legacy.open (P := Sample.host) Sample.pack [] in
  match res with
  | inl (pty, tty) =>
      pty = Sample.legacy_pty
      /\ Legacy.Close (P := Sample.host) tty h1 = (Some ErrFileClosed, tty, h1)
  | inr _ => False
  end.
Proof.
  destruct (Legacy.open (P := Sample.host) Sample.pack []) as [res h1] eqn:Hopen.
  destruct res as [[pty tty]|e].
  - split.
    + vm_compute in Hopen. injection Hopen as <- _ _. reflexivity.
    + exact (proj1 (legacy_tty_close_reports_closed (P := Sample.host)
                      Sample.pack [] h1 pty tty Hopen)).
  - vm_compute in Hopen. discriminate.
Defined.

(** ** The allocator of the mutex-guarded generation *)

Section OpenPty.

Context {P : platform}.
Import ConPty.

Lemma opened_app evs1 evs2 :
  Trace.opened (evs1 ++ evs2) = Trace.opened evs1 ++ Trace.opened evs2.
Proof.
  induction evs1 as [|e evs1 IH]; [reflexivity|].
  destruct e as [[[a b]|]|[[a b]|]| | | | | | | | | | | | | | | | |]; simpl;
    rewrite ?IH; reflexivity.
Qed.

Lemma opened_file_close evs :
  Forall only_file_close evs -> Trace.opened evs = [].
Proof.
  induction 1 as [|e evs He _ IH]; [reflexivity|].
  destruct e; try discriminate. exact IH.
Qed.

(** Two closes in a row: both files end closed, nothing is created. *)
Lemma close_both_step a b h :
  exists evs,
    snd (close_both a b h) = h ++ evs
    /\ Forall only_file_close evs
    /\ file_closed (h ++ evs) a = true /\ file_closed (h ++ evs) b = true.
Proof.
  unfold close_both, bind, ret.
  destruct (File_Close_step a h) as (ea & evsa & Ha & Hqa & Hca). rewrite Ha.
  destruct (File_Close_step b (h ++ evsa)) as (eb & evsb & Hb & Hqb & Hcb).
  rewrite Hb. simpl. exists (evsa ++ evsb). rewrite app_assoc.
  split; [reflexivity|]. split; [apply Forall_app; auto|].
  split; [apply file_closed_mono; exact Hca|exact Hcb].
Qed.

(** X7: [openPty] leaves nothing behind when it fails: on a host that is too
    old it creates nothing, and when the second pipe or the console cannot
    be created every file it has created is closed before it returns.  When
    it succeeds it has created the four files of the pair and closed none,
    the console was created last, 80 by 80, and the pair is not closed. *)
Theorem openPty_no_leak (h : history) :
  let '(res, h') := openPty h in
  let evs := drop (length h) h' in
  match res with
  | inr _ => Forall (fun f => file_closed h' f = true) (Trace.opened evs)
  | inl p =>
      Some <$> Trace.opened evs = [pr p; consolew p; consoler p; pw p]
      /\ count is_file_close evs = 0%nat
      /\ closed p = false
      /\ exists hin hout err,
           last evs = Some (EvCreatePseudoConsole (80 + 80 * 65536) hin hout
                              0 S_OK err (console p))
  end.
Proof.
  unfold openPty. unfold bind at 1, RtlGetVersion at 1.
  destruct (pl_RtlGetVersion h) as [major build]. cbv beta iota zeta.
  cbn [fst snd].
  destruct ((major <? 10) || (build <? 17763)).
  { unfold ret. rewrite drop_emitted. constructor. }
  unfold bind at 1, os_Pipe at 1.
  destruct (pl_Pipe _) as [e|]; cbv beta iota zeta.
  { unfold ret. rewrite <- app_assoc, drop_emitted. constructor. }
  generalize (next_fd (h ++ [EvRtlGetVersion major build])). intros a.
  unfold bind at 1, os_Pipe at 1.
  destruct (pl_Pipe _) as [e|]; cbv beta iota zeta.
  { unfold bind at 1.
    match goal with
    | |- context [close_both ?x ?y ?hh] =>
        destruct (close_both_step x y hh) as (evs & Hev & Hq & Hca & Hcb);
        destruct (close_both x y hh) as [[] h2]
    end.
    simpl in Hev. subst h2. unfold ret. cbv beta iota zeta.
    rewrite <- !app_assoc in *. simpl in Hca, Hcb.
    rewrite drop_emitted. simpl.
    rewrite (opened_file_close _ Hq).
    repeat constructor; assumption. }
  generalize (next_fd ((h ++ [EvRtlGetVersion major build])
                       ++ [EvPipe (inl (a, S a))])). intros c.
  unfold bind at 1, CreatePseudoConsole_Call at 1.
  destruct (pl_CreatePseudoConsole _) as [[r1 err] hpc]. cbv beta iota zeta.
  destruct (r1 =? S_OK) eqn:Hr1; cbn [negb]; cbv beta iota zeta.
  - apply Z.eqb_eq in Hr1. unfold ret. cbv beta iota zeta.
    rewrite <- !app_assoc, drop_emitted. simpl.
    repeat split. exists (Z.of_nat c), (Z.of_nat c), err.
    rewrite Hr1. reflexivity.
  - unfold bind at 1.
    match goal with
    | |- context [close_both ?x ?y ?hh] =>
        destruct (close_both_step x y hh) as (evs1 & Hev1 & Hq1 & Hca & Hcb);
        destruct (close_both x y hh) as [[] h3]
    end.
    simpl in Hev1. subst h3. cbv beta iota zeta. unfold bind at 1.
    match goal with
    | |- context [close_both ?x ?y ?hh] =>
        destruct (close_both_step x y hh) as (evs2 & Hev2 & Hq2 & Hcc & Hcd);
        destruct (close_both x y hh) as [[] h4]
    end.
    simpl in Hev2. subst h4. unfold ret. cbv beta iota zeta.
    apply (file_closed_mono _ evs2) in Hca, Hcb.
    rewrite <- !app_assoc in *. simpl in Hca, Hcb, Hcc, Hcd.
    rewrite drop_emitted. simpl.
    rewrite !opened_app, (opened_file_close _ Hq1), (opened_file_close _ Hq2).
    simpl. repeat constructor; assumption.
Qed.

End OpenPty.

(** ** The monitor of the mutex-guarded generation *)

Section Monitor.

Context {P : platform}.
Import ConPty.

(** X8: [waitInternal] on a process as [start] creates it, on a host on which
    destroy does not fail: callers of Wait are blocked until it has run; it
    issues one OS wait and closes no file; afterwards Wait returns the
    stored outcome (the error of the wait, an exit error on an abnormal
    exit, nil on a clean one), the console is destroyed, and Setsize on the
    pair answers [ErrClosed] without a resize. *)
Theorem waitInternal_outcome (p : winProc) (pty : conPty) (size : Winsize)
    (h : history) :
  destroy_succeeds -> cmdDone p = false -> cmdErr p = None ->
  let res := pl_ProcWait h (proc p) in
  let '(p', pty', h') := waitInternal p pty h in
  let evs := drop (length h) h' in
  Wait p = None
  /\ Wait p' = Some (match res with
                     | inr err => Some err
                     | inl st => if Success st then None
                                 else Some (ExitError st)
                     end)
  /\ count is_proc_wait evs = 1%nat
  /\ count is_file_close evs = 0%nat
  /\ console pty' = InvalidHandle
  /\ (console pty <> InvalidHandle -> count is_destroy evs = 1%nat)
  /\ setsize pty' size h' = (Some ErrClosed, h').
Proof.
  intros Hok Hdone Herr res.
  unfold waitInternal, bind, Proc_Wait. fold res. cbv beta iota zeta.
  rewrite closeConsoleNoLock_eq.
  destruct (console pty =? InvalidHandle) eqn:Hinv.
  - apply Z.eqb_eq in Hinv. unfold ret. cbv beta iota zeta.
    rewrite drop_emitted.
    split; [unfold Wait; rewrite Hdone; reflexivity|].
    split; [|split; [reflexivity|split; [reflexivity|split; [exact Hinv|split]]]].
    + unfold Wait, record_teardown, record_exit. simpl.
      destruct res as [st|e]; [destruct (Success st)|]; simpl;
        rewrite ?Herr; reflexivity.
    + intros Hne. contradiction.
    + unfold setsize. rewrite Hinv, Z.eqb_refl, orb_true_r. reflexivity.
  - cbv zeta. rewrite Hok. unfold ret. cbv beta iota zeta.
    rewrite <- app_assoc, drop_emitted.
    split; [unfold Wait; rewrite Hdone; reflexivity|].
    split; [|split; [reflexivity|split; [reflexivity|split; [reflexivity|split]]]].
    + unfold Wait, record_teardown, record_exit. simpl.
      destruct res as [st|e]; [destruct (Success st)|]; simpl;
        rewrite ?Herr; reflexivity.
    + intros _. reflexivity.
    + unfold setsize. simpl. rewrite orb_true_r. reflexivity.
Qed.

End Monitor.

Lemma waitInternal_outcome_witness :
  ConPty.destroy_succeeds (P := Sample.host)
  /\ (let p := {| ConPty.cmdDone := false; ConPty.cmdErr := None;
                  ConPty.proc := 77 |} in
      let '(p', pty', h') :=
        ConPty.waitInternal (P := Sample.host) p Sample.pair [] in
      ConPty.Wait p = None /\ ConPty.Wait p' = Some None
      /\ ConPty.setsize (P := Sample.host) pty' Sample.size_24x80 h'
         = (Some ErrClosed, h')).
Proof.
  assert (Hok : ConPty.destroy_succeeds (P := Sample.host))
    by (intros h hpc; reflexivity).
  split; [exact Hok|]. intros p.
  pose proof (waitInternal_outcome (P := Sample.host) p Sample.pair
                Sample.size_24x80 [] Hok eq_refl eq_refl) as H.
  destruct (ConPty.waitInternal (P := Sample.host) p Sample.pair [])
    as [[p' pty'] h'].
  destruct H as (H1 & H2 & _ & _ & _ & _ & H7).
  split; [exact H1|]. split; [exact H2|exact H7].
Defined.

(** ** The sizes *)

Section Sizes.

Context {P : platform}.

Lemma int16_mod x : int16 x mod 2 ^ 16 = x mod 2 ^ 16.
Proof.
  unfold int16. rewrite Zminus_mod_idemp_l.
  replace (x + 2 ^ 15 - 2 ^ 15) with x by ring. reflexivity.
Qed.

Lemma uint16_int16_succ x : uint16 (int16 (int16 x + 1)) = (x + 1) mod 2 ^ 16.
Proof.
  unfold uint16. rewrite int16_mod.
  rewrite <- Zplus_mod_idemp_l, int16_mod, Zplus_mod_idemp_l. reflexivity.
Qed.

Lemma coord_word_uint16 c r :
  0 <= c < 65536 -> 0 <= r < 65536 ->
  coord_word (int16 c) (int16 r) = c + 65536 * r.
Proof.
  intros Hc Hr. unfold coord_word, uint16.
  rewrite !int16_mod.
  change (2 ^ 16) with 65536.
  rewrite !Z.mod_small by lia. ring.
Qed.

(** X9: [getsizeFull] and the read-locked [GetsizeFull] on a console that is
    open ask the host once for the window of the screen buffer and return
    its height and width, bottom - top + 1 and right - left + 1, as
    [uint16]; they issue no other call. *)
Theorem getsizeFull_window (p : ConPty.conPty) (win : SmallRect) (h : history) :
  ConPty.closed p = false -> ConPty.console p <> InvalidHandle ->
  ConPty.console p <> 0 ->
  pl_GetConsoleScreenBufferInfo h (ConPty.console p) = inl win ->
  let size := {| Rows := (Bottom win - Top win + 1) mod 65536;
                 Cols := (Right win - Left win + 1) mod 65536;
                 X := 0; Y := 0 |} in
  let h' := h ++ [EvGetConsoleScreenBufferInfo (ConPty.console p) (inl win)] in
  ConPty.getsizeFull p h = (Some size, None, h')
  /\ Rw.GetsizeFull (Rw.FilePty {| Rw.handle := ConPty.console p |}) h
     = (Some size, None, h')
  /\ (0 <= Bottom win - Top win + 1 < 65536 ->
      Rows size = Bottom win - Top win + 1)
  /\ (0 <= Right win - Left win + 1 < 65536 ->
      Cols size = Right win - Left win + 1).
Proof.
  intros Hc Hi H0 Hwin size h'.
  apply Z.eqb_neq in Hi. apply Z.eqb_neq in H0.
  split; [|split; [|split]].
  - unfold ConPty.getsizeFull. rewrite Hc, Hi. cbn [orb].
    unfold bind, ret, GetConsoleScreenBufferInfo. rewrite Hwin.
    cbv beta iota zeta. rewrite !uint16_int16_succ. reflexivity.
  - unfold Rw.GetsizeFull. cbn [Rw.handle]. rewrite H0.
    unfold bind, ret, GetConsoleScreenBufferInfo. rewrite Hwin.
    cbv beta iota zeta. rewrite !uint16_int16_succ. reflexivity.
  - intros Hr. simpl. apply Z.mod_small. exact Hr.
  - intros Hr. simpl. apply Z.mod_small. exact Hr.
Qed.

(** X10: [setsize] and the read-locked [Setsize] on a console that is open issue
    one resize call, with the columns in the low half and the rows in the
    high half of the size word, from which both are read back; [setsize]
    returns the last error of the call when the answer is not S_OK, the
    read-locked [Setsize] returns the answer itself as an error. *)
Theorem setsize_word (p : ConPty.conPty) (size : Winsize) (h : history) :
  ConPty.closed p = false -> ConPty.console p <> InvalidHandle ->
  ConPty.console p <> 0 ->
  0 <= Rows size < 65536 -> 0 <= Cols size < 65536 ->
  let word := Cols size + 65536 * Rows size in
  let r1 := fst (pl_ResizePseudoConsole h (ConPty.console p) word) in
  let err := snd (pl_ResizePseudoConsole h (ConPty.console p) word) in
  let h' := h ++ [EvResizePseudoConsole (ConPty.console p) word r1 err] in
  ConPty.setsize p size h = (if r1 =? S_OK then None else err, h')
  /\ Rw.Setsize (Rw.FilePty {| Rw.handle := ConPty.console p |}) size h
     = (if r1 =? S_OK then None else Some (Errno r1), h')
  /\ word mod 65536 = Cols size /\ word / 65536 = Rows size.
Proof.
  intros Hc Hi H0 Hr Hcols word r1 err h'.
  apply Z.eqb_neq in Hi. apply Z.eqb_neq in H0.
  split; [|split; [|split]].
  - unfold ConPty.setsize. rewrite Hc, Hi. cbn [orb].
    unfold bind, ret, ResizePseudoConsole_Call.
    rewrite coord_word_uint16 by assumption.
    fold word. subst r1 err h'.
    destruct (pl_ResizePseudoConsole h (ConPty.console p) word) as [a b].
    simpl. destruct (a =? S_OK); reflexivity.
  - unfold Rw.Setsize. cbn [Rw.handle]. rewrite H0.
    unfold bind, ret, windows_ResizePseudoConsole, ResizePseudoConsole_Call.
    rewrite coord_word_uint16 by assumption.
    fold word. subst r1 err h'.
    destruct (pl_ResizePseudoConsole h (ConPty.console p) word) as [a b].
    simpl. unfold S_OK. destruct (a =? 0); reflexivity.
  - unfold word.
    replace (Cols size + 65536 * Rows size)
      with (Cols size + Rows size * 65536) by ring.
    rewrite Z_mod_plus_full. apply Z.mod_small. exact Hcols.
  - unfold word.
    replace (Cols size + 65536 * Rows size)
      with (Cols size + Rows size * 65536) by ring.
    rewrite Z_div_plus_full by lia.
    rewrite Z.div_small by exact Hcols. reflexivity.
Qed.

End Sizes.

Lemma getsizeFull_window_witness :
  ConPty.getsizeFull (P := Sample.host) Sample.pair []
  = (Some {| Rows := 30; Cols := 80; X := 0; Y := 0 |}, None,
     [EvGetConsoleScreenBufferInfo 4096
        (inl {| Left := 0; Top := 0; Right := 79; Bottom := 29 |})]).
Proof.
  assert (Hi : ConPty.console Sample.pair <> InvalidHandle) by discriminate.
  assert (H0 : ConPty.console Sample.pair <> 0) by discriminate.
  exact (proj1 (getsizeFull_window (P := Sample.host) Sample.pair
                  {| Left := 0; Top := 0; Right := 79; Bottom := 29 |} []
                  eq_refl Hi H0 eq_refl)).
Defined.

Lemma setsize_word_witness :
  ConPty.setsize (P := Sample.host) Sample.pair Sample.size_24x80 []
  = (None, [EvResizePseudoConsole 4096 (80 + 65536 * 24) 0 None]).
Proof.
  assert (Hi : ConPty.console Sample.pair <> InvalidHandle) by discriminate.
  assert (H0 : ConPty.console Sample.pair <> 0) by discriminate.
  exact (proj1 (setsize_word (P := Sample.host) Sample.pair Sample.size_24x80 []
                  eq_refl Hi H0 ltac:(simpl; lia) ltac:(simpl; lia))).
Defined.

(** ** Starting a process *)

Section StartTrace.

Context {P : platform}.
Import ConPty.

Ltac host_answers :=
  repeat first
    [ progress cbv beta iota zeta
    | match goal with
      | |- context [pl_Lib ?h ?f ?a] =>
          lazymatch h with
          | context [pl_Lib] => fail
          | _ => destruct (pl_Lib h f a)
          end
      | |- context [pl_UpdateAttr ?h ?c] => destruct (pl_UpdateAttr h c)
      | |- context [pl_CreateProcess ?h] => destruct (pl_CreateProcess h)
      | |- context [pl_FindProcess ?h ?c] => destruct (pl_FindProcess h c)
      | |- context [pl_execEnvDefault ?h] => destruct (pl_execEnvDefault h)
      end ].

(** X11: [conPty.start]: on success the host has seen, in this order and apart
    from calls of Go's library, the attribute update with the console of
    the pair, the creation of the process with the merged environment, the
    lookup of the process, the start of the monitor, the start of the
    watcher when the command has a context, and the close of the two
    handles of the process; [cmd.Process] is set.  On an error no goroutine
    is started, [cmd.Process] is unchanged, and the handles of the process
    are closed exactly when it had been created.  In no case does it kill
    a process, close a file, or destroy or resize a console. *)
Theorem start_trace (p : conPty) (cmd : Cmd) (h : history) :
  let '(err, cmd', h') := start p cmd h in
  let evs := drop (length h) h' in
  let merged := Env.addCriticalEnv go_EqualFold pl_Getenv
                  (Env.dedupEnvCase go_ToLower true (Env cmd)) in
  match err with
  | None =>
      exists pid,
        Process cmd' = Some pid
        /\ Trace.steps evs
           = [EvUpdateAttr (console p) None;
              EvCreateProcess (negb (Token cmd =? 0)) merged (inl pid);
              EvFindProcess pid None; EvGo (TaskWait pid)]
             ++ (if Context cmd then [EvGo (TaskKillOnContext pid)] else [])
             ++ [EvCloseHandles pid]
  | Some _ =>
      Process cmd' = Process cmd
      /\ count Trace.is_go evs = 0%nat
      /\ count Trace.is_close_handles evs = count Trace.is_created evs
  end
  /\ count Trace.is_kill evs = 0%nat
  /\ count is_file_close evs = 0%nat
  /\ count is_destroy evs = 0%nat
  /\ count is_resize evs = 0%nat.
Proof.
  unfold start, bind, ret, Lib, UpdateAttr, CreateProcess, FindProcess,
    CloseHandles, go.
  cbn [Context set_Process set_Dir].
  destruct (String.eqb (Dir cmd) ""), (Context cmd); host_answers;
    rewrite <- ?app_assoc, ?drop_emitted; cbn;
    (split; [first [eexists; split; reflexivity|repeat split]|repeat split]).
Qed.

(** X12: a command built by [Command] and started as it is: its environment
    is empty, so the process is created with one entry, the synthesized
    SYSTEMROOT, and with no token; it has a context, so the watcher is
    started after the monitor; the command line begins with the name. *)
Theorem Command_start (p : conPty) (name : string) (arg : list string)
    (h : history) :
  let cmd := Command.Command name arg in
  let '(err, cmd', h') := start p cmd h in
  let evs := drop (length h) h' in
  Args cmd' = name :: arg
  /\ Env cmd' = []
  /\ (err = None ->
      exists pid,
        Process cmd' = Some pid
        /\ Trace.steps evs
           = [EvUpdateAttr (console p) None;
              EvCreateProcess false
                ["SYSTEMROOT=" +:+ pl_Getenv "SYSTEMROOT"] (inl pid);
              EvFindProcess pid None; EvGo (TaskWait pid);
              EvGo (TaskKillOnContext pid); EvCloseHandles pid]).
Proof.
  unfold start, bind, ret, Lib, UpdateAttr, CreateProcess, FindProcess,
    CloseHandles, go, Command.Command, Command.CommandContext.
  cbn [Context set_Process set_Dir Dir Env Token Path Args String.eqb].
  host_answers; rewrite <- ?app_assoc, ?drop_emitted; cbn;
    (split; [reflexivity|split; [reflexivity|]]);
    intros Herr; try discriminate Herr.
  eexists. split; reflexivity.
Qed.

End StartTrace.

Section LegacyStartTrace.

Context {P : platform}.
Variable makeCmdLine : Legacy.Cmd -> string.
Import Legacy.

Ltac legacy_answers :=
  repeat first
    [ progress cbv beta iota zeta
    | match goal with
      | |- context [pl_execEnvDefault ?h] => destruct (pl_execEnvDefault h)
      | |- context [pl_Lib ?h ?f ?a] =>
          lazymatch h with
          | context [pl_Lib] => fail
          | context [pl_execEnvDefault] => fail
          | _ => destruct (pl_Lib h f a)
          end
      | |- context [pl_UpdateAttr ?h ?c] => destruct (pl_UpdateAttr h c)
      | |- context [pl_CreateProcess ?h] => destruct (pl_CreateProcess h)
      | |- context [pl_FindProcess ?h ?c] => destruct (pl_FindProcess h c)
      end ].

(** X13: [windowExecCmd.Start]: a command that has a process already is
    refused without any call.  On success the host has seen, in this order
    and apart from calls of Go's library, the default environment being
    read when the command has none, the attribute update with the handle of
    the pty when there is one, the creation of the process with the merged
    environment, the lookup of the process, the start of the monitor and the
    close of the two handles of the process; [cmd.Process] is set.  On an
    error no goroutine is started, [cmd.Process] is unchanged, and the
    handles of the process are closed exactly when it had been created.  In
    no case does it kill a process, close a file, or destroy or resize a
    console. *)
Theorem windowExecCmd_Start_trace (c : Cmd) (pty : option conPty) (h : history) :
  let '(err, c', h') := windowExecCmd_Start makeCmdLine c pty h in
  let evs := drop (length h) h' in
  let sys := default SysProcAttr_zero (SysProcAttr_ c) in
  (Process c <> None -> err = Some (ErrNew "exec: already started") /\ h' = h)
  /\ match err with
     | None =>
         exists pid env,
           Process c' = Some pid /\ Env c' = Some env
           /\ (Env c <> None -> Env c = Some env)
           /\ Trace.steps evs
              = match Env c with
                | None => [EvExecEnvDefault (inl env)]
                | Some _ => []
                end
                ++ match pty with
                   | Some p => [EvUpdateAttr (handle p) None]
                   | None => []
                   end
                ++ [EvCreateProcess (negb (Token sys =? 0))
                      (Env.addCriticalEnv go_EqualFold pl_Getenv
                         (Env.dedupEnvCase go_ToLower true env))
                      (inl pid);
                    EvFindProcess pid None; EvGo (TaskWait pid);
                    EvCloseHandles pid]
     | Some _ =>
         Process c' = Process c
         /\ count Trace.is_go evs = 0%nat
         /\ count Trace.is_close_handles evs = count Trace.is_created evs
     end
  /\ count Trace.is_kill evs = 0%nat
  /\ count is_file_close evs = 0%nat
  /\ count is_destroy evs = 0%nat
  /\ count is_resize evs = 0%nat.
Proof.
  unfold windowExecCmd_Start.
  destruct (Process c) as [pid0|] eqn:Hproc.
  { unfold ret. cbv beta iota zeta. rewrite drop_all.
    split; [intros _; split; reflexivity|]. rewrite Hproc. repeat split. }
  unfold updateProcThreadAttribute.
  unfold bind, ret, Lib, UpdateAttr, CreateProcess,
    FindProcess, CloseHandles, go, execEnvDefault.
  destruct (Env c) as [env0|] eqn:Henv;
    cbn [Env set_Env set_Path set_Process Dir Path Process];
    destruct (String.eqb (Dir c) ""),
      (String.eqb (CmdLine (default SysProcAttr_zero (SysProcAttr_ c))) ""),
      pty as [pt|];
    cbn [negb];
    repeat first
      [ progress legacy_answers
      | progress cbn [Env set_Env set_Path set_Process Dir Path Process
                      default negb]
      | match goal with
        | |- context [negb (String.eqb ?x "")] => destruct (String.eqb x "")
        end ];
    rewrite <- ?app_assoc, ?drop_emitted; rewrite ?Hproc, ?Henv; cbn;
    (split; [intros Hne; exfalso; apply Hne; reflexivity|]);
    (split; [first [eexists _, _; repeat split;
                    first [reflexivity|congruence]
                   |repeat split; first [reflexivity|assumption]]
            |repeat split]).
Qed.

End LegacyStartTrace.

(** ** StartWithAttrs *)

Section StartWithAttrsFacts.

Context {P : platform}.
Import ConPty.

Lemma count_Forall_false (q : event -> bool) evs :
  Forall (fun e => q e = false) evs -> count q evs = 0%nat.
Proof.
  induction 1 as [|e evs He _ IH]; [reflexivity|].
  unfold count in *. simpl. rewrite He. exact IH.
Qed.

Ltac count_zero H :=
  apply count_Forall_false; eapply Forall_impl; [exact H|];
  unfold Trace.spares_pair; cbv beta; intros ? ?; tauto.

(** The allocator starts nothing and resizes and destroys nothing. *)
Lemma openPty_quiet :
  emits (fun e => Trace.is_launch e = false /\ is_resize e = false
                  /\ is_destroy e = false) openPty.
Proof. unfold openPty, close_both. emits_with ltac:(repeat split). Qed.

(** When the allocator succeeds it has closed no file. *)
Lemma openPty_success h p h' :
  openPty h = (inl p, h') ->
  count is_file_close (drop (length h) h') = 0%nat /\ closed p = false.
Proof.
  unfold openPty, bind, ret, RtlGetVersion, os_Pipe, CreatePseudoConsole_Call.
  destruct (pl_RtlGetVersion h) as [major build]. cbv beta iota zeta.
  cbn [fst snd].
  destruct ((major <? 10) || (build <? 17763)); [discriminate|].
  destruct (pl_Pipe _) as [e|]; cbv beta iota zeta; [discriminate|].
  destruct (pl_Pipe _) as [e|]; cbv beta iota zeta.
  { destruct (close_both _ _ _) as [[] h2]. discriminate. }
  destruct (pl_CreatePseudoConsole _) as [[r1 err] hpc]. cbv beta iota zeta.
  destruct (negb (r1 =? S_OK)).
  { destruct (close_both _ _ _) as [[] h2].
    destruct (close_both _ _ _) as [[] h3]. discriminate. }
  intros H. injection H as <- <-. rewrite <- !app_assoc, drop_emitted.
  split; reflexivity.
Qed.

Lemma start_spares p cmd : emits Trace.spares_pair (start p cmd).
Proof. unfold start. emits_with ltac:(repeat split). Qed.

(** [setsize] adds nothing or one resize. *)
Lemma setsize_events p size h :
  exists evs,
    snd (setsize p size h) = h ++ evs
    /\ (count is_resize evs <= 1)%nat
    /\ Forall (fun e => Trace.is_launch e = false /\ is_file_close e = false
                        /\ is_destroy e = false) evs
    /\ (fst (setsize p size h) = None -> count is_resize evs = 1%nat).
Proof.
  unfold setsize, bind, ret, ResizePseudoConsole_Call.
  destruct (closed p || (console p =? InvalidHandle)).
  - exists []. rewrite app_nil_r. simpl. repeat split; auto. discriminate.
  - destruct (pl_ResizePseudoConsole _ _ _) as [r1 err].
    eexists [_]. destruct (negb (r1 =? S_OK)); simpl;
      (split; [reflexivity|]); repeat split; auto.
Qed.

(** X14: [StartWithAttrs]: it returns the master file exactly when it returns
    no error; what it calls splits into a part that creates no process and
    starts no goroutine, followed by a part without a resize, so the size is
    applied before the process exists; with a size a success has issued
    exactly one resize, without a size none is issued; and once [openPty]
    has succeeded it closes no file and destroys no console, whether the
    size or the start fails or not, and the pair is returned not closed. *)
Theorem StartWithAttrs_order (cmd : Cmd) (sz : option Winsize) (h : history) :
  let '(f, err, pty, h') := StartWithAttrs cmd sz h in
  let evs := drop (length h) h' in
  match err with
  | None => exists p, pty = Some p /\ f = Some (ptyf p)
  | Some _ => f = None
  end
  /\ (exists before after,
        evs = before ++ after
        /\ count Trace.is_launch before = 0%nat
        /\ count is_resize after = 0%nat)
  /\ match sz with
     | Some _ => (count is_resize evs <= 1)%nat
                 /\ (err = None -> count is_resize evs = 1%nat)
     | None => count is_resize evs = 0%nat
     end
  /\ (forall p, pty = Some p ->
        closed p = false
        /\ count is_file_close evs = 0%nat /\ count is_destroy evs = 0%nat).
Proof.
  unfold StartWithAttrs. unfold bind at 1.
  destruct (openPty_quiet h) as (evs0 & Hev0 & Hq0).
  pose proof (openPty_success h) as Hs.
  destruct (openPty h) as [[p|e] h1]; simpl in Hev0; subst h1.
  2:{ unfold ret. rewrite drop_emitted.
      split; [reflexivity|]. split.
      - exists evs0, []. rewrite app_nil_r. split; [reflexivity|].
        split; [|reflexivity]. count_zero Hq0.
      - assert (Hr : count is_resize evs0 = 0%nat).
        { count_zero Hq0. }
        split; [destruct sz; rewrite Hr; [split; [lia|discriminate]|reflexivity]|].
        discriminate. }
  destruct (Hs p _ eq_refl) as [Hfc0 Hclosed]. rewrite drop_emitted in Hfc0.
  assert (Hl0 : count Trace.is_launch evs0 = 0%nat)
    by (count_zero Hq0).
  assert (Hr0 : count is_resize evs0 = 0%nat)
    by (count_zero Hq0).
  assert (Hd0 : count is_destroy evs0 = 0%nat)
    by (count_zero Hq0).
  unfold bind at 1.
  assert (Hsz : exists evs1,
             snd ((match sz with
                   | Some sz0 => setsize p sz0
                   | None => ret None
                   end) (h ++ evs0)) = (h ++ evs0) ++ evs1
             /\ Forall (fun e => Trace.is_launch e = false
                                 /\ is_file_close e = false
                                 /\ is_destroy e = false) evs1
             /\ match sz with
                | Some _ =>
                    (count is_resize evs1 <= 1)%nat
                    /\ (fst ((match sz with
                              | Some sz0 => setsize p sz0
                              | None => ret None
                              end) (h ++ evs0)) = None ->
                        count is_resize evs1 = 1%nat)
                | None => evs1 = []
                end).
  { destruct sz as [sz0|].
    - destruct (setsize_events p sz0 (h ++ evs0)) as (evs1 & H1 & H2 & H3 & H4).
      exists evs1. auto.
    - exists []. unfold ret. simpl. rewrite app_nil_r. auto. }
  destruct Hsz as (evs1 & Hev1 & Hq1 & Hsz).
  destruct ((match sz with
             | Some sz0 => setsize p sz0
             | None => ret None
             end) (h ++ evs0)) as [err1 h2].
  simpl in Hev1. subst h2. simpl fst in Hsz.
  assert (Hl1 : count Trace.is_launch evs1 = 0%nat)
    by (count_zero Hq1).
  assert (Hf1 : count is_file_close evs1 = 0%nat)
    by (count_zero Hq1).
  assert (Hd1 : count is_destroy evs1 = 0%nat)
    by (count_zero Hq1).
  destruct err1 as [e1|].
  { unfold StartWithAttrs_deferred, bind, ret.
    rewrite <- app_assoc, drop_emitted.
    split; [reflexivity|]. split.
    - exists (evs0 ++ evs1), []. rewrite app_nil_r, count_app, Hl0, Hl1.
      repeat split.
    - rewrite !count_app, Hr0, Hfc0, Hf1, Hd0, Hd1. split.
      + destruct sz; [|subst evs1; reflexivity].
        destruct Hsz as [Hle _]. split; [exact Hle|discriminate].
      + intros p0 Hp0. injection Hp0 as <-. repeat split; auto. }
  unfold bind at 1.
  destruct (start_spares p cmd ((h ++ evs0) ++ evs1)) as (evs2 & Hev2 & Hq2).
  destruct (start p cmd ((h ++ evs0) ++ evs1)) as [[err2 cmd'] h3].
  simpl in Hev2. subst h3.
  assert (Hr2 : count is_resize evs2 = 0%nat)
    by (count_zero Hq2).
  assert (Hf2 : count is_file_close evs2 = 0%nat)
    by (count_zero Hq2).
  assert (Hd2 : count is_destroy evs2 = 0%nat)
    by (count_zero Hq2).
  assert (Hrest :
    (exists before after,
        evs0 ++ evs1 ++ evs2 = before ++ after
        /\ count Trace.is_launch before = 0%nat
        /\ count is_resize after = 0%nat)
    /\ match sz with
       | Some _ => (count is_resize (evs0 ++ evs1 ++ evs2) <= 1)%nat
                   /\ count is_resize (evs0 ++ evs1 ++ evs2) = 1%nat
       | None => count is_resize (evs0 ++ evs1 ++ evs2) = 0%nat
       end
    /\ count is_file_close (evs0 ++ evs1 ++ evs2) = 0%nat
    /\ count is_destroy (evs0 ++ evs1 ++ evs2) = 0%nat).
  { split.
    - exists (evs0 ++ evs1), evs2. rewrite <- app_assoc, count_app, Hl0, Hl1.
      repeat split. exact Hr2.
    - rewrite !count_app, Hr0, Hr2, Hfc0, Hf1, Hf2, Hd0, Hd1, Hd2.
      split; [|split; reflexivity].
      destruct sz; [|subst evs1; reflexivity].
      destruct Hsz as [_ Hone]. rewrite (Hone eq_refl). split; lia. }
  destruct Hrest as (Hsplit & Hres & Hfc & Hdd).
  destruct err2 as [e2|]; unfold StartWithAttrs_deferred, bind, ret;
    rewrite <- !app_assoc, drop_emitted.
  - split; [reflexivity|]. split; [exact Hsplit|]. split.
    + destruct sz; [destruct Hres as [Hle _]; split; [exact Hle|discriminate]
                   |exact Hres].
    + intros p0 Hp0. injection Hp0 as <-. auto.
  - split; [exists p; split; reflexivity|]. split; [exact Hsplit|]. split.
    + destruct sz; [destruct Hres as [Hle Hone]; split; [exact Hle|intros _; exact Hone]
                   |exact Hres].
    + intros p0 Hp0. injection Hp0 as <-. auto.
Qed.

End StartWithAttrsFacts.

(** ** The options of Start *)

Section Options.

Context {P : platform}.

(** X15: the loop over the options of [start], on Windows and on Unix: running
    a list of options followed by another runs the first list and, when
    none of its options failed, the second from where the first left the
    pty; an option that fails ends the loop, and no later option runs. *)
Theorem run_options_app (opts1 opts2 : list StartOption) (name : fd -> string)
    (pty : Legacy.conPty) (f : fd) (h : history) :
  Legacy.run_options (opts1 ++ opts2) pty h
  = (let '(err, pty1, h1) := Legacy.run_options opts1 pty h in
     match err with
     | Some e => (Some e, pty1, h1)
     | None => Legacy.run_options opts2 pty1 h1
     end)
  /\ Unix.run_options name (opts1 ++ opts2) f h
     = (let '(err, h1) := Unix.run_options name opts1 f h in
        match err with
        | Some e => (Some e, h1)
        | None => Unix.run_options name opts2 f h1
        end).
Proof.
  split.
  - revert pty h. induction opts1 as [|o opts1 IH]; intros pty h.
    + reflexivity.
    + cbn [app Legacy.run_options]. unfold bind.
      destruct (Legacy.run_option o pty h) as [[[e|] pty1] h1].
      * reflexivity.
      * apply IH.
  - revert h. induction opts1 as [|o opts1 IH]; intros h.
    + reflexivity.
    + cbn [app Unix.run_options]. unfold bind.
      destruct (Unix.run_option name o f h) as [[e|] h1].
      * reflexivity.
      * apply IH.
Qed.

End Options.

(** ** Errors of CreatePseudoConsole *)

Section CreateErrors.

Context {P : platform}.
Variable Pack : Z -> Z -> Z.
Import Legacy.

Lemma land_shiftl_r a b n :
  0 <= n -> Z.land a (Z.shiftl b n) = Z.shiftl (Z.land (Z.shiftr a n) b) n.
Proof.
  intros Hn. apply Z.bits_inj'. intros i Hi.
  rewrite Z.land_spec, !Z.shiftl_spec by lia.
  destruct (Z.ltb_spec i n) as [Hlt|Hge].
  - rewrite !(Z.testbit_neg_r _ (i - n)) by lia. apply andb_false_r.
  - rewrite Z.land_spec, Z.shiftr_spec by lia.
    replace (i - n + n) with i by ring. reflexivity.
Qed.

Lemma facility_win32 c :
  0 <= c < 65536 ->
  Z.land (0x80070000 + c) 0x1fff0000 = 0x00070000
  /\ Z.land (0x80070000 + c) 0xffff = c
  /\ int32 (0x80070000 + c) < 0.
Proof.
  intros Hc. split; [|split].
  - change 0x1fff0000 with (Z.shiftl 0x1fff 16).
    rewrite land_shiftl_r by lia. rewrite Z.shiftr_div_pow2 by lia.
    replace ((0x80070000 + c) / 2 ^ 16) with 0x8007; [reflexivity|].
    apply (Z.div_unique_pos _ _ _ c); lia.
  - change 0xffff with (Z.ones 16). rewrite Z.land_ones by lia.
    symmetry. apply (Z.mod_unique_pos _ _ 0x8007); lia.
  - unfold int32.
    replace ((0x80070000 + c + 2 ^ 31) mod 2 ^ 32) with (0x70000 + c); [lia|].
    apply (Z.mod_unique_pos _ _ 1); lia.
Qed.

(** X16: [procCreatePseudoConsole], the entry point being found: an answer that
    is not negative as a 32-bit integer is a success; an answer that is the
    HRESULT of a Win32 error code, 0x8007 in its high half and the code in
    its low half, is returned as that code; in both cases one create call is
    issued, for 80 columns and 30 rows. *)
Theorem procCreatePseudoConsole_decodes (hi ho fl ch : Z) (h : history)
    (r0 : Z) (err : option error) (hpc : Handle) :
  pl_Find h "CreatePseudoConsole" = None ->
  pl_CreatePseudoConsole (h ++ [EvFind "CreatePseudoConsole" None])
    = (r0, err, hpc) ->
  let h' := h ++ [EvFind "CreatePseudoConsole" None;
                  EvCreatePseudoConsole (Pack 80 30) hi ho fl r0 err hpc] in
  (0 <= int32 r0 ->
   procCreatePseudoConsole Pack hi ho fl ch h = (None, hpc, h'))
  /\ (forall c, 0 <= c < 65536 -> r0 = 0x80070000 + c ->
      procCreatePseudoConsole Pack hi ho fl ch h = (Some (Errno c), hpc, h')).
Proof.
  intros Hfind Hans h'. unfold h'.
  unfold procCreatePseudoConsole, bind, Find, CreatePseudoConsole_Call, ret.
  rewrite Hfind. cbv beta iota zeta. rewrite Hans. cbv beta iota zeta.
  rewrite <- app_assoc. cbn [app]. split.
  - intros Hpos. apply Z.ltb_ge in Hpos. rewrite Hpos. reflexivity.
  - intros c Hc ->. destruct (facility_win32 c Hc) as (Hf & Hl & Hneg).
    apply Z.ltb_lt in Hneg. rewrite Hneg, Hf, Z.eqb_refl, Hl. reflexivity.
Qed.

End CreateErrors.

Lemma procCreatePseudoConsole_decodes_witness :
  Legacy.procCreatePseudoConsole (P := Hosts.create_answers 0x80070057 None)
    Sample.pack 2 1 0 0 []
  = (Some (Errno 87), 0,
     [EvFind "CreatePseudoConsole" None;
      EvCreatePseudoConsole (Sample.pack 80 30) 2 1 0 0x80070057 None 0]).
Proof.
  destruct (procCreatePseudoConsole_decodes
              (P := Hosts.create_answers 0x80070057 None) Sample.pack 2 1 0 0 []
              0x80070057 None 0 eq_refl eq_refl) as [_ H].
  apply (H 87); [lia|reflexivity].
Defined.

(** ** The pair: the order of a shutdown *)

Section Shutdown.

Context {P : platform}.
Import ConPty Files.

Hypothesis Hdestroy : destroy_succeeds.

Lemma file_closed_snoc h f g res :
  file_closed (h ++ [EvFileClose g res]) f = file_closed h f || Nat.eqb f g.
Proof. rewrite file_closed_app. simpl. rewrite orb_false_r. reflexivity. Qed.

Lemma file_closed_destroy h f hpc r1 err :
  file_closed (h ++ [EvClosePseudoConsole hpc r1 err]) f = file_closed h f.
Proof. rewrite file_closed_app. simpl. rewrite orb_false_r. reflexivity. Qed.

Lemma file_closed_after h evs f :
  file_closed h f = false -> file_closed (h ++ evs) f = existsb (closes f) evs.
Proof. intros H. rewrite file_closed_app, H. reflexivity. Qed.

Lemma four_files_distinct p a b c d h :
  four_files p a b c d h ->
  Nat.eqb a b = false /\ Nat.eqb a c = false /\ Nat.eqb a d = false
  /\ Nat.eqb b c = false /\ Nat.eqb b d = false /\ Nat.eqb c d = false
  /\ file_closed h a = false /\ file_closed h b = false
  /\ file_closed h c = false /\ file_closed h d = false.
Proof.
  intros (_ & _ & _ & _ & Hnd & Hopen).
  assert (Hne : a <> b /\ a <> c /\ a <> d /\ b <> c /\ b <> d /\ c <> d).
  { repeat match goal with
           | H : NoDup (_ :: _) |- _ =>
               apply NoDup_cons in H; destruct H as [? H]
           end.
    repeat split; intros ->; set_solver. }
  destruct Hne as (? & ? & ? & ? & ? & ?).
  repeat split; try (apply Nat.eqb_neq; assumption);
    apply Hopen; set_solver.
Qed.

(** X17: [conPty.Close] on an open pair whose destroy call succeeds: it returns
    nil and has made five calls in this order: the destroy of the console,
    then the close of [pw], [consoler], [consolew] and [pr]; the pair is
    closed and its handle invalid. *)
Theorem Close_order (p : conPty) (a b c d : fd) (h : history) :
  four_files p a b c d h -> is_open p ->
  exists r1 err e1 e2 e3 e4,
    Close p h
    = (None, set_closed (set_console p InvalidHandle) true,
       h ++ [EvClosePseudoConsole (console p) r1 err;
             EvFileClose d e1; EvFileClose c e2;
             EvFileClose b e3; EvFileClose a e4]).
Proof.
  intros Hf [Hcl Hcon].
  destruct (four_files_distinct _ _ _ _ _ _ Hf)
    as (Hab & Hac & Had & Hbc & Hbd & Hcd & Ha & Hb & Hc & Hd).
  destruct Hf as (Hpr & Hcw & Hcr & Hpw & _).
  apply Z.eqb_neq in Hcon.
  rewrite Close_eq, Hcl, closeConsoleNoLock_eq, Hcon. cbv zeta.
  rewrite Hdestroy.
  unfold close_pipes, bind, ret, File_Close.
  cbn [pw pr consoler consolew set_closed set_console].
  rewrite Hpw, Hcr, Hcw, Hpr.
  rewrite file_closed_destroy, Hd. cbv zeta.
  rewrite file_closed_snoc, file_closed_destroy, Hc, Hcd. cbv zeta. cbn [orb].
  rewrite !file_closed_snoc, file_closed_destroy, Hb, Hbc, Hbd.
  cbv zeta. cbn [orb].
  rewrite !file_closed_snoc, file_closed_destroy, Ha, Hab, Hac, Had.
  cbv zeta. cbn [orb snd].
  rewrite <- !app_assoc. cbn [app].
  do 6 eexists. reflexivity.
Qed.

(** X18: closing a file of the pair, then the pair.  The pty file closes [pr],
    then [pw], then destroys the console, and leaves the pair not closed
    with an invalid handle; [conPty.Close] then destroys nothing and closes
    the two files of the console only; closing the pty file once more calls
    nothing and returns the two errors of files already closed.  The tty
    file closes [consoler] then [consolew] and leaves the pair as it was;
    [conPty.Close] then destroys the console and closes [pw] and [pr]. *)
Theorem file_Close_then_Close (p : conPty) (a b c d : fd) (h : history) :
  four_files p a b c d h -> is_open p ->
  (exists e1 e2 r1 err e3 e4,
     let p1 := set_console p InvalidHandle in
     let h1 := h ++ [EvFileClose a e1; EvFileClose d e2;
                     EvClosePseudoConsole (console p) r1 err] in
     conFile_Close (ptyf p) p h
       = (errors_Join [errors_Join [e1; e2]; None], p1, h1)
     /\ Close p1 h1
        = (None, set_closed p1 true,
           h1 ++ [EvFileClose c e3; EvFileClose b e4])
     /\ conFile_Close (ptyf p) p1 h1
        = (Some (ErrJoin [ErrJoin [ErrFileClosed; ErrFileClosed]]), p1, h1))
  /\ (exists e1 e2 r1 err e3 e4,
       let h1 := h ++ [EvFileClose c e1; EvFileClose b e2] in
       conFile_Close (ttyf p) p h = (errors_Join [e1; e2], p, h1)
       /\ Close p h1
          = (None, set_closed (set_console p InvalidHandle) true,
             h1 ++ [EvClosePseudoConsole (console p) r1 err;
                    EvFileClose d e3; EvFileClose a e4])).
Proof.
  intros Hf [Hcl Hcon].
  destruct (four_files_distinct _ _ _ _ _ _ Hf)
    as (Hab & Hac & Had & Hbc & Hbd & Hcd & Ha & Hb & Hc & Hd).
  assert (Hba : Nat.eqb b a = false) by (rewrite Nat.eqb_sym; exact Hab).
  assert (Hca : Nat.eqb c a = false) by (rewrite Nat.eqb_sym; exact Hac).
  assert (Hda : Nat.eqb d a = false) by (rewrite Nat.eqb_sym; exact Had).
  assert (Hcb : Nat.eqb c b = false) by (rewrite Nat.eqb_sym; exact Hbc).
  assert (Hdb : Nat.eqb d b = false) by (rewrite Nat.eqb_sym; exact Hbd).
  assert (Hdc : Nat.eqb d c = false) by (rewrite Nat.eqb_sym; exact Hcd).
  destruct Hf as (Hpr & Hcw & Hcr & Hpw & _).
  apply Z.eqb_neq in Hcon.
  assert (Hinv : (InvalidHandle =? InvalidHandle) = true) by apply Z.eqb_refl.
  pose proof (file_closed_after h) as Hafter.
  split; do 6 eexists; cbv zeta; repeat split;
    rewrite ?Close_eq; unfold conFile_Close, close_pipes, bind, ret, File_Close;
    cbn [ptyf ttyf r w master closed console pw pr consoler consolew
         set_closed set_console];
    rewrite ?Hcl, ?Hpr, ?Hpw, ?Hcr, ?Hcw;
    do 3 (repeat (rewrite <- ?app_assoc; cbn [app snd fst];
                  first [ rewrite (Hafter _ a Ha) | rewrite (Hafter _ b Hb)
                        | rewrite (Hafter _ c Hc) | rewrite (Hafter _ d Hd)
                        | rewrite Ha | rewrite Hb | rewrite Hc | rewrite Hd ];
                  cbn [existsb closes orb];
                  rewrite ?Nat.eqb_refl, ?Hab, ?Hac, ?Had, ?Hbc, ?Hbd, ?Hcd,
                    ?Hba, ?Hca, ?Hda, ?Hcb, ?Hdb, ?Hdc;
                  cbn [orb]; cbv beta iota zeta);
          rewrite ?closeConsoleNoLock_eq; cbn [console set_console];
          rewrite ?Hcon, ?Hinv; cbv beta iota zeta; rewrite ?Hdestroy;
          unfold close_pipes, bind, ret, File_Close;
          cbn [closed console pw pr consoler consolew set_closed set_console];
          rewrite ?Hcl, ?Hpr, ?Hpw, ?Hcr, ?Hcw; cbv beta iota zeta);
    rewrite <- ?app_assoc; cbn [app snd fst];
    reflexivity.
Qed.

End Shutdown.

Lemma Close_order_witness :
  exists r1 err e1 e2 e3 e4,
    ConPty.Close (P := Sample.host) Sample.pair []
    = (None,
       ConPty.set_closed (ConPty.set_console Sample.pair InvalidHandle) true,
       [EvClosePseudoConsole 4096 r1 err;
        EvFileClose 3%nat e1; EvFileClose 2%nat e2;
        EvFileClose 1%nat e3; EvFileClose 0%nat e4]).
Proof.
  apply (Close_order (P := Sample.host) (fun _ _ => eq_refl) Sample.pair
           0%nat 1%nat 2%nat 3%nat []).
  - repeat split; try reflexivity.
    apply (bool_decide_unpack _). vm_compute. exact I.
  - split; [reflexivity|]. vm_compute. discriminate.
Defined.

Lemma file_Close_then_Close_witness :
  ConPty.conFile_Close (P := Sample.host) (ConPty.ptyf Sample.pair)
    (ConPty.set_console Sample.pair InvalidHandle)
    [EvFileClose 0%nat None; EvFileClose 3%nat None;
     EvClosePseudoConsole 4096 1 None]
  = (Some (ErrJoin [ErrJoin [ErrFileClosed; ErrFileClosed]]),
     ConPty.set_console Sample.pair InvalidHandle,
     [EvFileClose 0%nat None; EvFileClose 3%nat None;
      EvClosePseudoConsole 4096 1 None]).
Proof.
  destruct (file_Close_then_Close (P := Sample.host) (fun _ _ => eq_refl)
              Sample.pair 0%nat 1%nat 2%nat 3%nat [])
    as [(e1 & e2 & r1 & err & e3 & e4 & H1 & _ & H3) _].
  - repeat split; try reflexivity.
    apply (bool_decide_unpack _). vm_compute. exact I.
  - split; [reflexivity|]. vm_compute. discriminate.
  - vm_compute in H1. injection H1 as _ <- <- <- <-. exact H3.
Defined.

(** ** Goroutines: every call takes effect once *)

Section Quiescent.

Context {P : platform}.
Import ConPty.

Lemma step_pool_length i c h :
  length (pool (fst (step i c h))) = length (pool c).
Proof.
  unfold step. destruct (pool c !! i) as [[res|k|k|f]|]; try reflexivity.
  - destruct (mutex c); [reflexivity|]. cbn [fst pool].
    apply length_insert.
  - cbn [fst pool]. apply length_insert.
  - destruct (f (pair c) h) as [[t p'] h']. cbn [fst pool].
    apply length_insert.
Qed.

Lemma run_sched_pool_length sched : forall c h,
  length (pool (fst (run_sched sched c h))) = length (pool c).
Proof.
  induction sched as [|i sched IH]; intros c h; [reflexivity|].
  cbn [run_sched]. unfold bind.
  pose proof (step_pool_length i c h) as Hs.
  destruct (step i c h) as [c1 h1]. rewrite IH. exact Hs.
Qed.

Lemma thread_of_not_Done c res : thread_of c <> Done res.
Proof. destruct c; discriminate. Qed.

Lemma order_of_idx (cs : list call) idx order :
  Forall2 (fun i ci => cs !! i = Some ci) idx order ->
  order = (fun i => default CallClose (cs !! i)) <$> idx.
Proof.
  induction 1 as [|i ci idx order Hi _ IH]; [reflexivity|].
  cbn [fmap list_fmap]. rewrite Hi. cbn [default]. f_equal. exact IH.
Qed.

Lemma calls_of_seq (cs : list call) :
  cs = (fun i => default CallClose (cs !! i)) <$> seq 0 (length cs).
Proof.
  apply list_eq. intros i. rewrite list_lookup_fmap.
  destruct (cs !! i) as [c|] eqn:Hc.
  - rewrite lookup_seq_lt by (eapply lookup_lt_Some; exact Hc).
    cbn. rewrite Hc. reflexivity.
  - rewrite lookup_seq_ge by (apply lookup_ge_None; exact Hc). reflexivity.
Qed.

(** X19: goroutines that make the calls [cs] on one pair, each call being Close,
    Setsize, GetsizeFull or the teardown of the monitor: once every
    goroutine has returned, however the scheduler interleaved them, the
    pair and the history are those of the same calls made one after the
    other in some order, every call exactly once; each goroutine has
    returned what its call returns in that order, and the mutex is free. *)
Theorem goroutines_linearizable (cs : list call) (sched : list nat)
    (p : conPty) (h : history) :
  let c' := fst (run_sched sched (spawn cs p) h) in
  let h' := snd (run_sched sched (spawn cs p) h) in
  (forall j t, pool c' !! j = Some t -> exists res, t = Done res) ->
  exists idx order errs,
    idx ≡ₚ seq 0 (length cs)
    /\ Forall2 (fun i ci => cs !! i = Some ci) idx order
    /\ order ≡ₚ cs
    /\ run_calls order p h = (errs, pair c', h')
    /\ mutex c' = None
    /\ forall k j, idx !! k = Some j ->
         exists res, errs !! k = Some res /\ pool c' !! j = Some (Done res).
Proof.
  intros c' h' Hdone.
  destruct (goroutines_serialised cs sched p h) as [idx Hs].
  fold c' h' in Hs.
  destruct Hs as (Hnd & order & errs & p1 & h1 & Hord & Hrun & Hm).
  assert (Hlen : length (pool c') = length cs).
  { unfold c'. rewrite run_sched_pool_length. unfold spawn. cbn [pool].
    apply length_map. }
  destruct (mutex c') as [i|] eqn:Hmx.
  { destruct Hm as (t & ci & Hi & Hcrit & _).
    destruct (Hdone _ _ Hi) as [res ->]. inversion Hcrit. }
  destruct Hm as (-> & -> & Hsettled).
  assert (Hreturned : forall j t, pool c' !! j = Some t ->
            exists k res, idx !! k = Some j /\ errs !! k = Some res
                          /\ t = Done res).
  { intros j t Hj. destruct (Hsettled j t Hj) as [(_ & cj & _ & ->)|Hk].
    - destruct (Hdone _ _ Hj) as [res Hres].
      destruct (thread_of_not_Done _ _ Hres).
    - exact Hk. }
  assert (Hperm : idx ≡ₚ seq 0 (length cs)).
  { apply NoDup_Permutation; [exact Hnd|apply NoDup_seq|].
    intros j. rewrite elem_of_seq. split.
    - intros Hj. apply list_elem_of_lookup in Hj as [k Hk].
      destruct (Forall2_lookup_l _ _ _ _ _ Hord Hk) as (cj & _ & Hcj).
      apply lookup_lt_Some in Hcj. lia.
    - intros [_ Hj]. cbn in Hj. rewrite <- Hlen in Hj.
      destruct (lookup_lt_is_Some_2 _ _ Hj) as [t Ht].
      destruct (Hreturned j t Ht) as (k & res & Hk & _).
      apply list_elem_of_lookup. exists k. exact Hk. }
  exists idx, order, errs.
  split; [exact Hperm|]. split; [exact Hord|].
  split.
  { rewrite (order_of_idx _ _ _ Hord).
    etransitivity; [apply fmap_Permutation; exact Hperm|].
    rewrite <- calls_of_seq. reflexivity. }
  split; [exact Hrun|]. split; [reflexivity|].
  intros k j Hk.
  assert (Hj : (j < length (pool c'))%nat).
  { rewrite Hlen. destruct (Forall2_lookup_l _ _ _ _ _ Hord Hk) as (cj & _ & Hcj).
    eapply lookup_lt_Some. exact Hcj. }
  destruct (lookup_lt_is_Some_2 _ _ Hj) as [t Ht].
  destruct (Hreturned j t Ht) as (k' & res & Hk' & Hres & ->).
  assert (k' = k) as -> by (eapply NoDup_lookup; eassumption).
  exists res. split; assumption.
Qed.

End Quiescent.

Lemma goroutines_linearizable_witness :
  let cs := [ConPty.CallClose; ConPty.CallTeardown] in
  let st := ConPty.run_sched
              [1; 0; 1; 1; 0; 1; 1; 0; 0; 0; 0; 0; 0; 0; 0; 0]%nat
              (ConPty.spawn (P := Sample.host) cs Sample.pair) [] in
  exists idx order errs,
    idx ≡ₚ seq 0 (length cs)
    /\ Forall2 (fun i ci => cs !! i = Some ci) idx order
    /\ order ≡ₚ cs
    /\ ConPty.run_calls (P := Sample.host) order Sample.pair []
       = (errs, ConPty.pair (fst st), snd st)
    /\ ConPty.mutex (fst st) = None
    /\ forall k j, idx !! k = Some j ->
         exists res, errs !! k = Some res
                     /\ ConPty.pool (fst st) !! j = Some (ConPty.Done res).
Proof.
  intros cs st.
  apply (goroutines_linearizable (P := Sample.host) cs
           [1; 0; 1; 1; 0; 1; 1; 0; 0; 0; 0; 0; 0; 0; 0; 0]%nat Sample.pair []).
  intros j t Hj.
  assert (Hp : ConPty.pool
                 (fst (ConPty.run_sched
                         [1; 0; 1; 1; 0; 1; 1; 0; 0; 0; 0; 0; 0; 0; 0; 0]%nat
                         (ConPty.spawn (P := Sample.host) cs Sample.pair) []))
               = [ConPty.Done None; ConPty.Done None])
    by (vm_compute; reflexivity).
  rewrite Hp in Hj.
  destruct j as [|[|j]]; cbn in Hj; [| |discriminate];
    injection Hj as <-; eexists; reflexivity.
Defined.
